(** * qti-html-renderer: a shallow embedding of [src/index.ts]

    The development follows the layout of the TypeScript module:
    string helpers, the XML tree and its locators, the rubric and choice
    extractors, the scoring renderer, the report renderer with its three
    string passes, and the two HTML post-processing utilities.

    Conventions.
    - A JavaScript string is the list of its UTF-16 code units ([jsstring]).
    - The parsed XML document is an immutable tree ([Node]).
    - [blankCounter] is threaded through the scoring renderer by a small
      state monad; the arguments handed to [options.blankRenderer] are
      recorded next to the counter so that they can be talked about.
    - A thrown [Error] is a value of [Result] carrying the message.
    - A number is a binary64 value that is not negative, counted in units
      of 2^-1074 ([number]); numerals and sums are rounded to nearest, ties
      to even.
    - Callbacks and parsers are functions: what is proved holds for the
      calls in which they return. *)

From Stdlib Require Import String Ascii.
From Stdlib Require Import List NArith Arith Bool Lia.
From Stdlib Require Import ZArith DecimalNat.
From Stdlib Require SpecFloat.
Import ListNotations.

Set Warnings "-register-all".
Local Open Scope nat_scope.
Local Open Scope list_scope.

(* ================================================================== *)
(** ** JavaScript strings *)
(* ================================================================== *)

Definition jsstring := list N.

(** An ASCII literal of the source, as code units. *)
Definition lit (s : String.string) : jsstring :=
  map Ascii.N_of_ascii (String.list_ascii_of_string s).
Arguments lit s%_string.

Fixpoint jseqb (a b : jsstring) : bool :=
  match a, b with
  | [], [] => true
  | x :: a', y :: b' => N.eqb x y && jseqb a' b'
  | _, _ => false
  end.

Infix "=?s" := jseqb (at level 70, no associativity).

(** [s.length === 0], and the truthiness of a string. *)
Definition isEmpty (s : jsstring) : bool :=
  match s with [] => true | _ :: _ => false end.

Definition truthy (s : jsstring) : bool := negb (isEmpty s).


(** Truthiness of [string | null]. *)
Definition truthyOpt (o : option jsstring) : bool :=
  match o with Some s => truthy s | None => false end.

(** [o ?? d] *)
Definition orElse {A : Type} (o : option A) (d : A) : A :=
  match o with Some a => a | None => d end.

(** [parts.join('')] *)
Definition join (parts : list jsstring) : jsstring := concat parts.

Fixpoint startsWith (s prefix : jsstring) : bool :=
  match prefix, s with
  | [], _ => true
  | p :: prefix', c :: s' => N.eqb c p && startsWith s' prefix'
  | _ :: _, [] => false
  end.

(** [s.includes(needle)] *)
Fixpoint includes (s needle : jsstring) : bool :=
  startsWith s needle ||
  match s with
  | [] => false
  | _ :: s' => includes s' needle
  end.

Fixpoint takeWhile (p : N -> bool) (s : jsstring) : jsstring :=
  match s with
  | c :: s' => if p c then c :: takeWhile p s' else []
  | [] => []
  end.

Fixpoint dropWhile (p : N -> bool) (s : jsstring) : jsstring :=
  match s with
  | c :: s' => if p c then dropWhile p s' else s
  | [] => []
  end.

(** [s.slice(start)] and [s.slice(0, end)] for in-range indices. *)
Definition sliceFrom (s : jsstring) (start : nat) : jsstring := skipn start s.
Definition sliceTo (s : jsstring) (stop : nat) : jsstring := firstn stop s.

(** [s.slice(-n)] *)
Definition sliceLast (s : jsstring) (n : nat) : jsstring :=
  skipn (length s - n) s.

(** The class [\s] of a regular expression, which is also what
    [String.prototype.trim] strips: WhiteSpace and LineTerminator. *)
Definition isWhiteSpace (c : N) : bool :=
  ((9 <=? c) && (c <=? 13) || (c =? 32) || (c =? 160) || (c =? 5760)
   || (8192 <=? c) && (c <=? 8202) || (c =? 8232) || (c =? 8233)
   || (c =? 8239) || (c =? 8287) || (c =? 12288) || (c =? 65279))%N.

(** What [.] does not match (no [s] flag): the line terminators. *)
Definition isLineTerminator (c : N) : bool :=
  ((c =? 10) || (c =? 13) || (c =? 8232) || (c =? 8233))%N.

(** [\d] *)
Definition isDigit (c : N) : bool := ((48 <=? c) && (c <=? 57))%N.

(** [[A-Za-z]] (also [[a-z]] under the [i] flag). *)
Definition isAsciiLetter (c : N) : bool :=
  ((65 <=? c) && (c <=? 90) || (97 <=? c) && (c <=? 122))%N.

(** [\w] *)
Definition isWordChar (c : N) : bool :=
  (isAsciiLetter c || isDigit c || (c =? 95))%N.

Definition trimStart (s : jsstring) : jsstring := dropWhile isWhiteSpace s.
Definition trimEnd (s : jsstring) : jsstring :=
  rev (dropWhile isWhiteSpace (rev s)).
Definition trim (s : jsstring) : jsstring := trimEnd (trimStart s).

(** [s.replace(/c/g, replacement)] for a one-character pattern and a
    replacement without [$]. *)
Definition replaceChar (c : N) (replacement : jsstring) (s : jsstring)
  : jsstring :=
  flat_map (fun x => if N.eqb x c then replacement else [x]) s.

Definition escapeHtml (value : jsstring) : jsstring :=
  replaceChar 39 (lit "&#39;")
    (replaceChar 34 (lit "&quot;")
       (replaceChar 62 (lit "&gt;")
          (replaceChar 60 (lit "&lt;")
             (replaceChar 38 (lit "&amp;") value)))).

(** The double quote, and a value between double quotes. *)
Definition dq : jsstring := [34%N].
Definition quoted (v : jsstring) : jsstring := dq ++ v ++ dq.

(** [String(n)] / [`${n}`] for a non-negative integer. *)
Fixpoint uintDigits (d : Decimal.uint) : jsstring :=
  match d with
  | Decimal.Nil => []
  | Decimal.D0 d => 48%N :: uintDigits d
  | Decimal.D1 d => 49%N :: uintDigits d
  | Decimal.D2 d => 50%N :: uintDigits d
  | Decimal.D3 d => 51%N :: uintDigits d
  | Decimal.D4 d => 52%N :: uintDigits d
  | Decimal.D5 d => 53%N :: uintDigits d
  | Decimal.D6 d => 54%N :: uintDigits d
  | Decimal.D7 d => 55%N :: uintDigits d
  | Decimal.D8 d => 56%N :: uintDigits d
  | Decimal.D9 d => 57%N :: uintDigits d
  end.

Definition numberToString (n : nat) : jsstring := uintDigits (Nat.to_uint n).

(* ================================================================== *)
(** ** The parsed XML document *)
(* ================================================================== *)

(** A DOM node.  [CharacterData] covers every node that is not an element:
    text (nodeType 3), CDATA sections (4), processing instructions (7) and
    comments (8). *)
Inductive Node : Type :=
| CharacterData (nodeType : N) (data : jsstring)
| Element (nodeName localName : jsstring)
          (attributes : list (jsstring * jsstring))
          (childNodes : list Node).

Module NODE_TYPES.
Definition ELEMENT_NODE : N := 1.
Definition TEXT_NODE : N := 3.
End NODE_TYPES.

Definition nodeType (n : Node) : N :=
  match n with
  | CharacterData t _ => t
  | Element _ _ _ _ => NODE_TYPES.ELEMENT_NODE
  end.

Definition localName (n : Node) : jsstring :=
  match n with
  | CharacterData _ _ => []
  | Element _ l _ _ => l
  end.

Definition nodeName (n : Node) : jsstring :=
  match n with
  | CharacterData _ _ => []
  | Element q _ _ _ => q
  end.

Definition attributes (n : Node) : list (jsstring * jsstring) :=
  match n with
  | CharacterData _ _ => []
  | Element _ _ a _ => a
  end.

Definition childNodes (n : Node) : list Node :=
  match n with
  | CharacterData _ _ => []
  | Element _ _ _ c => c
  end.

Definition isElement (n : Node) : bool :=
  match n with
  | CharacterData _ _ => false
  | Element _ _ _ _ => true
  end.

(** [el.getAttribute(name)]: the value of the first attribute of that name,
    [None] for JavaScript's [null]. *)
Fixpoint lookupAttr (name : jsstring) (attrs : list (jsstring * jsstring))
  : option jsstring :=
  match attrs with
  | [] => None
  | (k, v) :: rest => if k =?s name then Some v else lookupAttr name rest
  end.

Definition getAttribute (el : Node) (name : jsstring) : option jsstring :=
  lookupAttr name (attributes el).

(** [node.textContent]: the data of a character-data node; for an element
    the concatenated text of its descendants, comments and processing
    instructions left out. *)
Fixpoint textContent (n : Node) : jsstring :=
  match n with
  | CharacterData _ d => d
  | Element _ _ _ children =>
      concat (map (fun c =>
                     match c with
                     | CharacterData t _ =>
                         if (N.eqb t 3 || N.eqb t 4)%bool
                         then textContent c else []
                     | Element _ _ _ _ => textContent c
                     end) children)
  end.

(** The descendants of a node in document order (the node itself left
    out). *)
Fixpoint descendants (n : Node) : list Node :=
  match n with
  | CharacterData _ _ => []
  | Element _ _ _ children =>
      flat_map (fun c => c :: descendants c) children
  end.

Definition getElementsByTagNameNS_any (root : Node) (name : jsstring)
  : list Node :=
  filter (fun n => isElement n && (localName n =?s name)) (descendants root).

Definition getElementsByTagName (root : Node) (name : jsstring) : list Node :=
  filter (fun n => isElement n && (nodeName n =?s name)) (descendants root).

Definition getElementsByLocalName (root : Node) (name : jsstring)
  : list Node :=
  let withNamespace := getElementsByTagNameNS_any root name in
  if 0 <? length withNamespace then withNamespace
  else getElementsByTagName root name.

(** An element whose qualified name is its local name. *)
Definition attr (k v : String.string) : jsstring * jsstring := (lit k, lit v).
Arguments attr (k v)%_string.

Definition el (name : String.string) (attrs : list (jsstring * jsstring))
           (children : list Node) : Node :=
  Element (lit name) (lit name) attrs children.
Arguments el name%_string attrs children.

Definition textNode (s : String.string) : Node := CharacterData 3 (lit s).
Arguments textNode s%_string.

Fixpoint height (n : Node) : nat :=
  match n with
  | CharacterData _ _ => 0
  | Element _ _ _ children => S (list_max (map height children))
  end.

(* ================================================================== *)
(** ** Scoring renderer *)
(* ================================================================== *)

Record ScoringRenderOptions : Type := {
  blankRenderer : nat -> jsstring;
  extendedTextRenderer : unit -> jsstring;
  choiceListClassName : jsstring;
  preWithBlanksClassName : jsstring
}.

Definition defaultScoringOptions : ScoringRenderOptions := {|
  blankRenderer := fun index =>
    lit "<input class=" ++ quoted (lit "qti-blank-input")
    ++ lit " data-blank=" ++ quoted (numberToString index)
    ++ lit " type=" ++ quoted (lit "text")
    ++ lit " size=" ++ quoted (lit "6")
    ++ lit " disabled aria-label="
    ++ quoted (lit "blank " ++ numberToString index) ++ lit " />";
  extendedTextRenderer := fun _ =>
    lit "<span class=" ++ quoted (lit "qti-extended-placeholder") ++ lit ">"
    ++ [65288; 35352; 36848; 65289]%N ++ lit "</span>";
  choiceListClassName := lit "qti-choice-list";
  preWithBlanksClassName := lit "qti-pre-with-blanks"
|}.

(** The options a caller may pass: every field optional. *)
Record PartialScoringRenderOptions : Type := {
  blankRenderer_opt : option (nat -> jsstring);
  extendedTextRenderer_opt : option (unit -> jsstring);
  choiceListClassName_opt : option jsstring;
  preWithBlanksClassName_opt : option jsstring
}.

Definition noScoringOptions : PartialScoringRenderOptions :=
  {| blankRenderer_opt := None; extendedTextRenderer_opt := None;
     choiceListClassName_opt := None; preWithBlanksClassName_opt := None |}.

(** [{ ...defaultScoringOptions, ...options }] *)
Definition resolveScoringOptions (options : PartialScoringRenderOptions)
  : ScoringRenderOptions := {|
  blankRenderer :=
    orElse (blankRenderer_opt options) (blankRenderer defaultScoringOptions);
  extendedTextRenderer :=
    orElse (extendedTextRenderer_opt options)
           (extendedTextRenderer defaultScoringOptions);
  choiceListClassName :=
    orElse (choiceListClassName_opt options)
           (choiceListClassName defaultScoringOptions);
  preWithBlanksClassName :=
    orElse (preWithBlanksClassName_opt options)
           (preWithBlanksClassName defaultScoringOptions)
|}.

(** The object [{ value: number }] shared by one traversal.  [issued] is
    not part of the JavaScript object: it lists, oldest first, every call
    of [options.blankRenderer] made so far, as the index passed and the
    text-entry-interaction element it was made for. *)
Record BlankCounter : Type := {
  value : nat;
  issued : list (nat * Node)
}.

Definition newBlankCounter : BlankCounter := {| value := 0; issued := [] |}.

(** Computations that read and update the counter.  [None] is only ever
    produced by [outOfFuel]. *)
Definition M (A : Type) : Type := BlankCounter -> option (A * BlankCounter).

Definition ret {A : Type} (a : A) : M A := fun st => Some (a, st).

Definition bind {A B : Type} (m : M A) (k : A -> M B) : M B :=
  fun st =>
    match m st with
    | Some (a, st') => k a st'
    | None => None
    end.

Definition outOfFuel {A : Type} : M A := fun _ => None.

Notation "x <- m ;; k" := (bind m (fun x => k))
  (at level 61, m at next level, right associativity).

(** [++blankCounter.value] *)
Definition preIncrement : M nat :=
  fun st =>
    let idx := S (value st) in
    Some (idx, {| value := idx; issued := issued st |}).

(** [options.blankRenderer(idx)], called while rendering [el]. *)
Definition callBlankRenderer (options : ScoringRenderOptions) (el : Node)
           (idx : nat) : M jsstring :=
  fun st =>
    Some (blankRenderer options idx,
          {| value := value st; issued := issued st ++ [(idx, el)] |}).

(** [list.map(f)] for an [f] that touches the counter. *)
Fixpoint mapM {A B : Type} (f : A -> M B) (l : list A) : M (list B) :=
  match l with
  | [] => ret []
  | x :: l' => y <- f x ;; ys <- mapM f l' ;; ret (y :: ys)
  end.

(** [list.map((x, index) => f(x, index))], the first index being [i]. *)
Fixpoint mapiM_from {A B : Type} (i : nat) (f : A -> nat -> M B)
         (l : list A) : M (list B) :=
  match l with
  | [] => ret []
  | x :: l' => y <- f x i ;; ys <- mapiM_from (S i) f l' ;; ret (y :: ys)
  end.

Definition mapiM {A B : Type} (f : A -> nat -> M B) (l : list A)
  : M (list B) := mapiM_from 0 f l.

(** [list.map(f).join('')] *)
Definition mapJoin {A : Type} (f : A -> M jsstring) (l : list A)
  : M jsstring := parts <- mapM f l ;; ret (join parts).

(** [inner.match(/^\s+/)] and [inner.match(/\s+$/)]: the matched text. *)
Definition matchLeadingWhiteSpace (s : jsstring) : option jsstring :=
  match takeWhile isWhiteSpace s with
  | [] => None
  | m => Some m
  end.

Definition matchTrailingWhiteSpace (s : jsstring) : option jsstring :=
  match rev (takeWhile isWhiteSpace (rev s)) with
  | [] => None
  | m => Some m
  end.

(** The two [if] blocks of [renderCodeInPre]. *)
Definition trimCodeStart (trimStart : bool) (inner : jsstring) : jsstring :=
  if trimStart then
    let leading := orElse (matchLeadingWhiteSpace inner) [] in
    if truthy leading && negb (includes leading [10%N])
       && negb (includes leading [13%N])
    then sliceFrom inner (length leading)
    else inner
  else inner.

Definition trimCodeEnd (trimEnd : bool) (inner : jsstring) : jsstring :=
  if trimEnd then
    let trailing := orElse (matchTrailingWhiteSpace inner) [] in
    if truthy trailing && negb (includes trailing [10%N])
       && negb (includes trailing [13%N])
    then sliceTo inner (length inner - length trailing)
    else inner
  else inner.

(** [isBlank] of the [qti-pre] case. *)
Definition isBlank (child : Node) : bool :=
  N.eqb (nodeType child) NODE_TYPES.ELEMENT_NODE
  && (localName child =?s lit "qti-text-entry-interaction").

Definition isCodeElement (child : Node) : bool :=
  N.eqb (nodeType child) NODE_TYPES.ELEMENT_NODE
  && (localName child =?s lit "qti-code").

(** [significantNodes] of the [qti-pre] case. *)
Definition significantNodes (children : list Node) : list Node :=
  filter (fun child =>
            if negb (N.eqb (nodeType child) NODE_TYPES.TEXT_NODE) then true
            else negb (isEmpty (trim (textContent child))))
         children.

(** [index > 0 && isBlank(significantNodes[index - 1])] and
    [index < significantNodes.length - 1 &&
     isBlank(significantNodes[index + 1])]. *)
Definition prevBlankAt (significant : list Node) (index : nat) : bool :=
  (0 <? index)
  && match nth_error significant (index - 1) with
     | Some n => isBlank n
     | None => false
     end.

Definition nextBlankAt (significant : list Node) (index : nat) : bool :=
  (index <? length significant - 1)
  && match nth_error significant (index + 1) with
     | Some n => isBlank n
     | None => false
     end.

Section ScoringCases.
(** The parts of the [switch] that do not depend on how the recursive
    call is made; [render] stands for [renderNodeForScoring] with the
    options and the counter already supplied. *)
Variable render : Node -> bool -> bool -> M jsstring.
Variable options : ScoringRenderOptions.

Definition renderCodeInPre (codeEl : Node) (trimStart trimEnd : bool)
  : M jsstring :=
  inner <- mapJoin (fun child => render child true true)
                   (childNodes codeEl) ;;
  ret (lit "<code>" ++ trimCodeEnd trimEnd (trimCodeStart trimStart inner)
       ++ lit "</code>").

(** The callback of [significantNodes.map] in the [qti-pre] case. *)
Definition renderPreChild (significant : list Node) (child : Node)
           (index : nat) : M jsstring :=
  if isCodeElement child then
    let prevBlank := prevBlankAt significant index in
    let nextBlank := nextBlankAt significant index in
    renderCodeInPre child prevBlank nextBlank
  else render child true false.

Definition renderPre (el : Node) : M jsstring :=
  let significant := significantNodes (childNodes el) in
  let hasBlank := existsb isBlank significant in
  parts <- mapiM (renderPreChild significant) significant ;;
  let rendered := join parts in
  let classAttr :=
    if hasBlank
    then lit " class=" ++ quoted (preWithBlanksClassName options)
    else [] in
  ret (lit "<pre" ++ classAttr ++ lit ">" ++ rendered ++ lit "</pre>").

(** The callback of [choices.map] in the [qti-choice-interaction] case. *)
Definition renderChoice (choice : Node) : M jsstring :=
  let id := orElse (getAttribute choice (lit "identifier")) [] in
  text <- mapJoin (fun child => render child false false)
                  (childNodes choice) ;;
  ret (lit "<li data-choice=" ++ quoted (escapeHtml id) ++ lit ">"
       ++ text ++ lit "</li>").

Definition renderChoiceInteraction (el : Node) : M jsstring :=
  let choices := getElementsByLocalName el (lit "qti-simple-choice") in
  listItems <- mapJoin renderChoice choices ;;
  ret (lit "<ol class=" ++ quoted (choiceListClassName options) ++ lit ">"
       ++ listItems ++ lit "</ol>").
End ScoringCases.

(** [<tag>inner</tag>] *)
Definition wrapTag (tag inner : jsstring) : jsstring :=
  lit "<" ++ tag ++ lit ">" ++ inner ++ lit "</" ++ tag ++ lit ">".

(** [renderNodeForScoring].  The recursion of the source descends into the
    children of a node and, for a choice interaction, into the children of
    its simple-choice descendants; [fuel] bounds its depth, and
    [S (height node)] is always enough ([renderNodeForScoring_total]). *)
Fixpoint renderNodeForScoring (fuel : nat) (node : Node)
         (options : ScoringRenderOptions)
         (inPre preserveWhitespace : bool) {struct fuel} : M jsstring :=
  match fuel with
  | 0 => outOfFuel
  | S fuel' =>
    match node with
    | CharacterData t data =>
        if N.eqb t NODE_TYPES.TEXT_NODE then
          let text := data in
          if inPre && negb preserveWhitespace && isEmpty (trim text)
          then ret []
          else ret (escapeHtml text)
        else ret []
    | Element _ name _ children =>
        let el := node in
        let render := fun child nextInPre nextPreserve =>
          renderNodeForScoring fuel' child options nextInPre nextPreserve in
        let renderChildren := fun nextInPre nextPreserve =>
          mapJoin (fun child => render child nextInPre nextPreserve)
                  children in
        let wrapped := fun tag =>
          inner <- renderChildren inPre preserveWhitespace ;;
          ret (wrapTag tag inner) in
        if name =?s lit "qti-p" then wrapped (lit "p")
        else if (name =?s lit "qti-h3") || (name =?s lit "qti-h4")
                || (name =?s lit "qti-h5") || (name =?s lit "qti-h6") then
          let level := sliceLast name 2 in
          wrapped level
        else if name =?s lit "qti-em" then wrapped (lit "em")
        else if name =?s lit "qti-strong" then wrapped (lit "strong")
        else if name =?s lit "qti-del" then wrapped (lit "del")
        else if name =?s lit "qti-a" then
          let href := getAttribute el (lit "href") in
          let title := getAttribute el (lit "title") in
          let hrefAttr :=
            if truthyOpt href
            then lit " href=" ++ quoted (escapeHtml (orElse href []))
            else [] in
          let titleAttr :=
            if truthyOpt title
            then lit " title=" ++ quoted (escapeHtml (orElse title []))
            else [] in
          inner <- renderChildren inPre preserveWhitespace ;;
          ret (lit "<a" ++ hrefAttr ++ titleAttr ++ lit ">" ++ inner
               ++ lit "</a>")
        else if name =?s lit "qti-code" then
          inner <- renderChildren inPre true ;;
          ret (lit "<code>" ++ inner ++ lit "</code>")
        else if name =?s lit "qti-pre" then renderPre render options el
        else if name =?s lit "qti-blockquote" then wrapped (lit "blockquote")
        else if name =?s lit "qti-ul" then wrapped (lit "ul")
        else if name =?s lit "qti-ol" then
          let start := getAttribute el (lit "start") in
          let startAttr :=
            if truthyOpt start
            then lit " start=" ++ quoted (escapeHtml (orElse start []))
            else [] in
          inner <- renderChildren inPre preserveWhitespace ;;
          ret (lit "<ol" ++ startAttr ++ lit ">" ++ inner ++ lit "</ol>")
        else if name =?s lit "qti-li" then wrapped (lit "li")
        else if name =?s lit "qti-table" then wrapped (lit "table")
        else if name =?s lit "qti-thead" then wrapped (lit "thead")
        else if name =?s lit "qti-tbody" then wrapped (lit "tbody")
        else if name =?s lit "qti-tr" then wrapped (lit "tr")
        else if name =?s lit "qti-th" then wrapped (lit "th")
        else if name =?s lit "qti-td" then wrapped (lit "td")
        else if name =?s lit "qti-hr" then ret (lit "<hr />")
        else if name =?s lit "qti-img" then
          let src := orElse (getAttribute el (lit "src")) [] in
          let alt := orElse (getAttribute el (lit "alt")) [] in
          let title := getAttribute el (lit "title") in
          let titleAttr :=
            if truthyOpt title
            then lit " title=" ++ quoted (escapeHtml (orElse title []))
            else [] in
          ret (lit "<img src=" ++ quoted (escapeHtml src)
               ++ lit " alt=" ++ quoted (escapeHtml alt)
               ++ titleAttr ++ lit " />")
        else if name =?s lit "qti-text-entry-interaction" then
          idx <- preIncrement ;;
          callBlankRenderer options el idx
        else if name =?s lit "qti-extended-text-interaction" then
          ret (extendedTextRenderer options tt)
        else if name =?s lit "qti-choice-interaction" then
          renderChoiceInteraction render options el
        else if name =?s lit "qti-rubric-block" then ret []
        else renderChildren inPre preserveWhitespace
    end
  end.

(* ================================================================== *)
(** ** Rubric and choice extractors *)
(* ================================================================== *)

(** A JavaScript number that is not negative: an IEEE 754 binary64 value,
    finite or [Infinity].  Every finite binary64 value is a whole multiple
    of the smallest positive one, 2^-1074, and [Finite k] is the value
    k * 2^-1074.  The numbers of this module come from numerals without a
    sign and from sums of them, so that neither a negative number nor NaN
    occurs. *)
Inductive number : Type :=
| Finite (units : N)
| Infinity.

(** The whole number [n] (exact up to 2^53). *)
Definition wholeNumber (n : N) : number := Finite (n * 2 ^ 1074).

(** Rounding to nearest, ties to even: the binary64 value of the rational
    [numerator / denominator], which is given in units of 2^-1074.  The
    value is cut to the multiples of 2^shift, where [shift] leaves 53
    binary digits to a value of 2^53 units (2^-1021) or more and is 0
    below, the range of the subnormal numbers and of the first binade;
    what is cut off decides between the two neighbours; a result of 2^1024
    (2^2098 units) or more is [Infinity]. *)
Definition roundToNearestEven (numerator denominator : N) : number :=
  let whole := (numerator / denominator)%N in
  let shift := (N.log2 whole - 52)%N in
  let step := (denominator * 2 ^ shift)%N in
  let q := (numerator / step)%N in
  let r := (numerator mod step)%N in
  let significand :=
    if (2 * r <? step)%N then q
    else if (step <? 2 * r)%N then (q + 1)%N
    else if N.even q then q else (q + 1)%N in
  let units := (significand * 2 ^ shift)%N in
  if (units <? 2 ^ 2098)%N then Finite units else Infinity.

(** [a + b]: the exact sum, rounded. *)
Definition numberAdd (a b : number) : number :=
  match a, b with
  | Finite x, Finite y => roundToNearestEven (x + y) 1
  | _, _ => Infinity
  end.

Record RubricCriterion : Type := {
  index : nat;
  points : number;
  text : jsstring
}.

Record ChoiceOption : Type := {
  co_identifier : jsstring;
  co_text : jsstring
}.

(** The value of a run of decimal digits. *)
Definition digitsValue (ds : jsstring) : N :=
  fold_left (fun acc c => (acc * 10 + (c - 48))%N) ds 0%N.

Fixpoint pow10 (n : nat) : positive :=
  match n with
  | 0 => 1%positive
  | S n' => (10 * pow10 n')%positive
  end.

(** [Number.parseFloat] on a numeral [digits] or [digits.digits], which is
    all that the pattern of [parseCriterionText] lets through: the binary64
    value nearest to the decimal value of the numeral. *)
Definition parseFloat (s : jsstring) : number :=
  let int := takeWhile isDigit s in
  let frac :=
    match dropWhile isDigit s with
    | 46%N :: r => takeWhile isDigit r
    | _ => []
    end in
  roundToNearestEven (digitsValue (int ++ frac) * 2 ^ 1074)
                     (Npos (pow10 (length frac))).

(** [trimmed.match(re)] for the pattern
    [^ \[ (\d+(?:\.\d+)?) \] \s* ( .* ) $] (written here with spaces
    between its parts): the two groups.  [\d+] and [\s*] are greedy and nothing before the end
    can be matched in a second way, so the match is the one computed here:
    the digits, a fraction when a dot and digits follow, the bracket, the
    longest run of white space, and a rest free of line terminators. *)
Definition matchCriterion (trimmed : jsstring)
  : option (jsstring * jsstring) :=
  match trimmed with
  | 91%N :: r1 =>
      let int := takeWhile isDigit r1 in
      let r2 := dropWhile isDigit r1 in
      if isEmpty int then None
      else
        let '(num, r3) :=
          match r2 with
          | 46%N :: r2' =>
              let frac := takeWhile isDigit r2' in
              if isEmpty frac then (int, r2)
              else (int ++ [46%N] ++ frac, dropWhile isDigit r2')
          | _ => (int, r2)
          end in
        match r3 with
        | 93%N :: r4 =>
            let rest := dropWhile isWhiteSpace r4 in
            if existsb isLineTerminator rest then None
            else Some (num, rest)
        | _ => None
        end
  | _ => None
  end.

Definition parseCriterionText (rawText : jsstring) : number * jsstring :=
  let trimmed := trim rawText in
  match matchCriterion trimmed with
  | None => (Finite 0, trimmed)
  | Some (g1, g2) => (parseFloat g1, trim g2)
  end.

Definition extractRubricCriteria (itemBody : Node) : list RubricCriterion :=
  let rubricBlocks := getElementsByLocalName itemBody (lit "qti-rubric-block") in
  let scorer :=
    find (fun block =>
            match getAttribute block (lit "view") with
            | Some v => v =?s lit "scorer"
            | None => false
            end) rubricBlocks in
  match scorer with
  | None => []
  | Some scorer =>
      let lines := getElementsByLocalName scorer (lit "qti-p") in
      fold_left
        (fun criteria line =>
           let text := trim (textContent line) in
           let parsed := parseCriterionText text in
           criteria ++ [{| index := length criteria + 1;
                           points := fst parsed;
                           text := snd parsed |}])
        lines []
  end.

Definition extractChoices (itemBody : Node) : list ChoiceOption :=
  let choices := getElementsByLocalName itemBody (lit "qti-simple-choice") in
  map (fun choice =>
         {| co_identifier := orElse (getAttribute choice (lit "identifier")) [];
            co_text := trim (textContent choice) |})
      choices.

(* ================================================================== *)
(** ** The scoring entry point *)
(* ================================================================== *)

Record ParsedItemForScoring : Type := {
  identifier : jsstring;
  title : jsstring;
  promptHtml : jsstring;
  rubricCriteria : list RubricCriterion;
  choices : list ChoiceOption;
  candidateExplanationHtml : option jsstring
}.

(** What an entry point produces: a value, a thrown [Error] with its
    message, or [FuelExhausted] when a renderer returned [None] (which does
    not happen, see [renderQtiItemForScoring_fuel]). *)
Inductive Result (A : Type) : Type :=
| Ok (a : A)
| Throw (message : jsstring)
| FuelExhausted.
Arguments Ok {A} a.
Arguments Throw {A} message.
Arguments FuelExhausted {A}.

(** The document handed back by the XML parser. *)
Record Document : Type := {
  documentElement : option Node
}.

(** [nodes.map(node => renderNodeForScoring(node, options, blankCounter))
    .join('')] for the nodes below [parent]. *)
Definition renderNodesForScoring (parent : Node) (nodes : list Node)
           (options : ScoringRenderOptions) : M jsstring :=
  mapJoin (fun node =>
             renderNodeForScoring (S (height parent)) node options
                                  false false)
          nodes.

(** The feedback element and the nodes of its content body that
    [parseCandidateExplanation] renders. *)
Definition findExplanationFeedback (root : Node) : option Node :=
  let modalFeedbacks := getElementsByLocalName root (lit "qti-modal-feedback") in
  let hasId := fun feedback =>
    match getAttribute feedback (lit "identifier") with
    | Some v => v =?s lit "EXPLANATION"
    | None => false
    end in
  let hasOutcome := fun feedback =>
    match getAttribute feedback (lit "outcome-identifier") with
    | Some v => v =?s lit "FEEDBACK"
    | None => false
    end in
  match find (fun feedback => hasId feedback && hasOutcome feedback)
             modalFeedbacks with
  | Some f => Some f
  | None => find hasId modalFeedbacks
  end.

Definition explanationNodes (contentBody : Node) : list Node :=
  filter (fun node =>
            negb (N.eqb (nodeType node) NODE_TYPES.TEXT_NODE)
            || negb (isEmpty (trim (textContent node))))
         (childNodes contentBody).

(** [parseCandidateExplanation]; the outer [option] is the fuel, the inner
    one is [string | null]. *)
Definition parseCandidateExplanation (root : Node)
           (options : ScoringRenderOptions)
  : option (option jsstring) :=
  match findExplanationFeedback root with
  | None => Some None
  | Some explanationFeedback =>
      match nth_error (getElementsByLocalName explanationFeedback
                                              (lit "qti-content-body")) 0 with
      | None => Some None
      | Some contentBody =>
          let blankCounter := newBlankCounter in
          match renderNodesForScoring contentBody
                  (explanationNodes contentBody) options blankCounter with
          | Some (html, _) => Some (Some html)
          | None => None
          end
      end
  end.

Section ScoringEntry.
(** The XML parser ([globalThis.DOMParser] or xmldom), for the calls in
    which it returns a document: the parser of a browser reports
    malformed XML by a [parsererror] root, xmldom may throw a ParseError,
    which the entry point does not catch. *)
Variable parseXml : jsstring -> Document.

Definition renderQtiItemForScoring (xml : jsstring)
           (options : PartialScoringRenderOptions)
  : Result ParsedItemForScoring :=
  let resolved := resolveScoringOptions options in
  let doc := parseXml xml in
  match documentElement doc with
  | None => Throw (lit "QTI item XML parse failed")
  | Some root =>
      if nodeName root =?s lit "parsererror"
      then Throw (lit "QTI item XML parse failed")
      else
        let identifier := orElse (getAttribute root (lit "identifier")) [] in
        let title := orElse (getAttribute root (lit "title")) identifier in
        match nth_error (getElementsByLocalName root (lit "qti-item-body"))
                        0 with
        | None => Throw (lit "qti-item-body not found")
        | Some itemBody =>
            let blankCounter := newBlankCounter in
            match renderNodesForScoring itemBody (childNodes itemBody)
                    resolved blankCounter with
            | None => FuelExhausted
            | Some (promptHtml, _) =>
                let rubricCriteria := extractRubricCriteria itemBody in
                let choices := extractChoices itemBody in
                match parseCandidateExplanation root resolved with
                | None => FuelExhausted
                | Some candidateExplanationHtml =>
                    Ok {| identifier := identifier;
                          title := title;
                          promptHtml := promptHtml;
                          rubricCriteria := rubricCriteria;
                          choices := choices;
                          candidateExplanationHtml :=
                            candidateExplanationHtml |}
                end
            end
        end
  end.
End ScoringEntry.

(* ================================================================== *)
(** ** Which blanks a well-formed item body lets the renderer reach *)
(* ================================================================== *)



(** The text-entry interactions of an item body, in document order. *)
Definition textEntryInteractions (itemBody : Node) : list Node :=
  filter isBlank (descendants itemBody).






(* ================================================================== *)
(** ** The HTML document of the post-processing utilities *)
(* ================================================================== *)

(** The document an HTML parser returns: the [head] and the [body] element
    below its root.  Elements are referred to by where they are, which is
    what a DOM reference amounts to while the tree keeps its shape (the
    utilities only set attributes). *)
Record HtmlDocument : Type := {
  head : Node;
  body : Node
}.

Definition path := list nat.

Inductive ElementRef : Type :=
| InHead (p : path)
| InBody (p : path).

Fixpoint nodeAt (p : path) (n : Node) : option Node :=
  match p with
  | [] => Some n
  | i :: p' =>
      match nth_error (childNodes n) i with
      | Some c => nodeAt p' c
      | None => None
      end
  end.

Fixpoint updateNth {A : Type} (i : nat) (f : A -> A) (l : list A) : list A :=
  match l, i with
  | [], _ => []
  | x :: l', 0 => f x :: l'
  | x :: l', S j => x :: updateNth j f l'
  end.

Fixpoint updateAt (p : path) (f : Node -> Node) (n : Node) : Node :=
  match p with
  | [] => f n
  | i :: p' =>
      match n with
      | CharacterData _ _ => n
      | Element q l a children =>
          Element q l a (updateNth i (updateAt p' f) children)
      end
  end.

Definition deref (doc : HtmlDocument) (r : ElementRef) : option Node :=
  match r with
  | InHead p => nodeAt p (head doc)
  | InBody p => nodeAt p (body doc)
  end.

Definition update (doc : HtmlDocument) (r : ElementRef) (f : Node -> Node)
  : HtmlDocument :=
  match r with
  | InHead p => {| head := updateAt p f (head doc); body := body doc |}
  | InBody p => {| head := head doc; body := updateAt p f (body doc) |}
  end.

(** [el.setAttribute(name, value)]: an attribute of that name takes the
    value and keeps its place, a new one goes last. *)
Fixpoint setAttr (name value : jsstring) (attrs : list (jsstring * jsstring))
  : list (jsstring * jsstring) :=
  match attrs with
  | [] => [(name, value)]
  | (k, v) :: rest =>
      if k =?s name then (k, value) :: rest
      else (k, v) :: setAttr name value rest
  end.

Definition setAttributeOf (name value : jsstring) (n : Node) : Node :=
  match n with
  | CharacterData _ _ => n
  | Element q l a children => Element q l (setAttr name value a) children
  end.

Definition setAttribute (doc : HtmlDocument) (r : ElementRef)
           (name value : jsstring) : HtmlDocument :=
  update doc r (setAttributeOf name value).

(** The places of the elements at or below [n] that [matches] accepts, in
    document order. *)
Fixpoint selectPaths (matches : Node -> bool) (n : Node) : list path :=
  match n with
  | CharacterData _ _ => []
  | Element _ _ _ children =>
      (if matches n then [[]] else [])
      ++ (fix below (i : nat) (l : list Node) : list path :=
            match l with
            | [] => []
            | c :: l' =>
                map (cons i) (selectPaths matches c) ++ below (S i) l'
            end) 0 children
  end.

Record HtmlDomParser : Type := {
  parseFromString : jsstring -> jsstring -> HtmlDocument
}.

Record HtmlTransformOptions : Type := {
  domParser : option HtmlDomParser
}.

Record RewriteImageSourcesOptions : Type := {
  rw_domParser : option HtmlDomParser;
  resolveUrl : jsstring -> jsstring -> jsstring;
  isExternalSource : option (jsstring -> bool)
}.

(** The [response] argument: [null] or [undefined], one string, or an
    array of strings. *)
Inductive ResponseArg : Type :=
| NoResponse
| SingleResponse (s : jsstring)
| ResponseList (l : list jsstring).

Definition MIN_BLANK_SIZE : nat := 6.

Definition normalizeResponses (response : ResponseArg) : list jsstring :=
  match response with
  | NoResponse => []
  | ResponseList l => l
  | SingleResponse s => [s]
  end.

Definition computeBlankSize (value : jsstring) : nat :=
  Nat.max MIN_BLANK_SIZE (length value).

(** The pattern "^(?:[a-z]+:)?//" under the [i] flag: letters and a colon,
    if they are there, then two slashes. *)
Definition testSchemeOrProtocolRelative (src : jsstring) : bool :=
  let scheme := takeWhile isAsciiLetter src in
  let rest := dropWhile isAsciiLetter src in
  (negb (isEmpty scheme) && startsWith rest (lit "://"))
  || startsWith src (lit "//").

Definition defaultIsExternalSource (src : jsstring) : bool :=
  testSchemeOrProtocolRelative src
  || startsWith src (lit "data:")
  || startsWith src (lit "/").

Section HtmlUtilities.
(** The DOM engine: which elements a selector matches and how a body is
    written back ([innerHTML]); the parser the platform may offer
    ([globalThis.DOMParser]); and [resolveRelativePath] of qti-xml-core,
    whose result is a path or a falsy value. *)
Variable matchesSelector : jsstring -> Node -> bool.
Variable innerHTML : Node -> jsstring.
Variable globalDOMParser : option HtmlDomParser.
Variable resolveRelativePath : jsstring -> jsstring -> option jsstring.

(** [doc.querySelectorAll(selector)] *)
Definition querySelectorAll (doc : HtmlDocument) (selector : jsstring)
  : list ElementRef :=
  map InHead (selectPaths (matchesSelector selector) (head doc))
  ++ map InBody (selectPaths (matchesSelector selector) (body doc)).

Definition resolveHtmlDomParser (domParser : option HtmlDomParser)
  : Result HtmlDomParser :=
  match domParser with
  | Some p => Ok p
  | None =>
      match globalDOMParser with
      | Some p => Ok p
      | None =>
          Throw (lit "DOMParser is not available. Provide a domParser option (e.g. from linkedom/jsdom).")
      end
  end.

(** The callback of [blanks.forEach]. *)
Definition fillBlank (responses : list jsstring) (doc : HtmlDocument)
           (blank : ElementRef) (index : nat) : HtmlDocument :=
  match nth_error responses index with
  | None => doc
  | Some value =>
      let doc1 := setAttribute doc blank (lit "value") value in
      setAttribute doc1 blank (lit "size")
                   (numberToString (computeBlankSize value))
  end.

(** [refs.forEach((ref, index) => ...)] on the document. *)
Definition forEachIndexed (step : HtmlDocument -> ElementRef -> nat ->
                                  HtmlDocument)
           (refs : list ElementRef) (doc : HtmlDocument) : HtmlDocument :=
  fold_left (fun d ri => step d (fst ri) (snd ri))
            (combine refs (seq 0 (length refs))) doc.

Definition applyResponsesToPromptHtml (promptHtml : jsstring)
           (response : ResponseArg) (options : HtmlTransformOptions)
  : Result jsstring :=
  if negb (includes promptHtml (lit "qti-blank-input")) then Ok promptHtml
  else
    let responses := normalizeResponses response in
    if length responses =? 0 then Ok promptHtml
    else
      match resolveHtmlDomParser (domParser options) with
      | Throw m => Throw m
      | FuelExhausted => FuelExhausted
      | Ok parser =>
          let doc := parseFromString parser promptHtml (lit "text/html") in
          let blanks := querySelectorAll doc (lit "input.qti-blank-input") in
          if length blanks =? 0 then Ok promptHtml
          else
            let doc' := forEachIndexed (fillBlank responses) blanks doc in
            Ok (innerHTML (body doc'))
      end.

(** The callback of [images.forEach]. *)
Definition rewriteImage (baseFilePath : jsstring)
           (options : RewriteImageSourcesOptions)
           (doc : HtmlDocument) (img : ElementRef) (_ : nat)
  : HtmlDocument :=
  let isExternal :=
    orElse (isExternalSource options) defaultIsExternalSource in
  let rawSrc :=
    match deref doc img with
    | Some e => getAttribute e (lit "src")
    | None => None
    end in
  match rawSrc with
  | None => doc
  | Some src =>
      if negb (truthy src) || isExternal src then doc
      else
        let resolved := resolveRelativePath baseFilePath src in
        match resolved with
        | None => doc
        | Some r =>
            if negb (truthy r) then doc
            else setAttribute doc img (lit "src") (resolveUrl options r src)
        end
  end.

Definition rewriteHtmlImageSources (html baseFilePath : jsstring)
           (options : RewriteImageSourcesOptions) : Result jsstring :=
  match resolveHtmlDomParser (rw_domParser options) with
  | Throw m => Throw m
  | FuelExhausted => FuelExhausted
  | Ok parser =>
      let doc := parseFromString parser html (lit "text/html") in
      let images := querySelectorAll doc (lit "img[src]") in
      let doc' := forEachIndexed (rewriteImage baseFilePath options)
                                 images doc in
      Ok (innerHTML (body doc'))
  end.
End HtmlUtilities.


(* ================================================================== *)
(** ** String matching for the report passes *)
(* ================================================================== *)

(** The first occurrence of a literal: what is before it, what is after. *)
Fixpoint findFrom (pat s : jsstring) : option (jsstring * jsstring) :=
  if startsWith s pat then Some ([], skipn (length pat) s)
  else
    match s with
    | [] => None
    | c :: s' =>
        match findFrom pat s' with
        | Some (before, after) => Some (c :: before, after)
        | None => None
        end
    end.

Definition endsWith (s suffix : jsstring) : bool :=
  startsWith (rev s) (rev suffix).

(** [s.replace(/pat/g, rep)] for a literal pattern that is not empty and a
    replacement without [$].  [skip] counts the units of a match that are
    still to be passed over. *)
Fixpoint replaceLiteral (pat rep : jsstring) (skip : nat) (s : jsstring)
  : jsstring :=
  match s with
  | [] => []
  | c :: s' =>
      match skip with
      | S k => replaceLiteral pat rep k s'
      | 0 =>
          if startsWith s pat
          then rep ++ replaceLiteral pat rep (length pat - 1) s'
          else c :: replaceLiteral pat rep 0 s'
      end
  end.

(** [s.replace(re, callback)] for a global pattern that never matches the
    empty string.  [matchAt] says whether the pattern matches at the start
    of its argument, and then gives the length of the match and what the
    callback returns for it. *)
Fixpoint replaceMatches (matchAt : jsstring -> option (nat * jsstring))
         (skip : nat) (s : jsstring) : jsstring :=
  match s with
  | [] => []
  | c :: s' =>
      match skip with
      | S k => replaceMatches matchAt k s'
      | 0 =>
          match matchAt s with
          | Some (len, replacement) =>
              replacement ++ replaceMatches matchAt (len - 1) s'
          | None => c :: replaceMatches matchAt 0 s'
          end
      end
  end.

(** The leftmost match of a pattern that is not anchored. *)
Fixpoint firstMatch {X : Type} (matchAt : jsstring -> option X)
         (s : jsstring) : option X :=
  match matchAt s with
  | Some x => Some x
  | None =>
      match s with
      | [] => None
      | _ :: s' => firstMatch matchAt s'
      end
  end.

(** The leftmost match with what is before and after it: the text before,
    the matched text, the text after. *)
Fixpoint splitAtMatch (matchAt : jsstring -> option nat) (s : jsstring)
  : option (jsstring * jsstring * jsstring) :=
  match matchAt s with
  | Some len => Some ([], firstn len s, skipn len s)
  | None =>
      match s with
      | [] => None
      | c :: s' =>
          match splitAtMatch matchAt s' with
          | Some (before, matched, after) => Some (c :: before, matched, after)
          | None => None
          end
      end
  end.

(** A tag at the start of [s]: the literal [opening], a word boundary,
    anything but [>], and [>].  This is the pattern [<pre\b[^>]*>] for the
    opening [<pre], and likewise for [<code] and [</code].  Result: the
    tag and what follows it. *)
Definition matchTag (opening : jsstring) (s : jsstring)
  : option (jsstring * jsstring) :=
  if startsWith s opening then
    let r := skipn (length opening) s in
    match r with
    | [] => None
    | c :: _ =>
        if isWordChar c then None
        else
          match findFrom [62%N] r with
          | Some (inside, rest) => Some (opening ++ inside ++ [62%N], rest)
          | None => None
          end
    end
  else None.

Definition matchPreOpen : jsstring -> option (jsstring * jsstring) :=
  matchTag (lit "<pre").
Definition matchCodeOpen : jsstring -> option (jsstring * jsstring) :=
  matchTag (lit "<code").

(** The pattern [<\/?code\b[^>]*>]. *)
Definition matchCodeTag (s : jsstring) : option (jsstring * jsstring) :=
  match matchTag (lit "</code") s with
  | Some r => Some r
  | None => matchTag (lit "<code") s
  end.

(** [s.split(/\s+/)] *)
Fixpoint splitWhiteSpace (current : jsstring) (s : jsstring)
  : list jsstring :=
  match s with
  | [] => [current]
  | c :: s' =>
      if isWhiteSpace c then current :: skipWhiteSpace s'
      else splitWhiteSpace (current ++ [c]) s'
  end
with skipWhiteSpace (s : jsstring) : list jsstring :=
  match s with
  | [] => [[]]
  | c :: s' =>
      if isWhiteSpace c then skipWhiteSpace s'
      else splitWhiteSpace [c] s'
  end.

Definition split_ws (s : jsstring) : list jsstring := splitWhiteSpace [] s.

(** [list.includes(x)] for strings. *)
Definition includesString (l : list jsstring) (x : jsstring) : bool :=
  existsb (fun y => y =?s x) l.

(** The first result of [f] along a list (a [for] loop that returns from
    its first match). *)
Fixpoint firstSome {A B : Type} (f : A -> option B) (l : list A) : option B :=
  match l with
  | [] => None
  | x :: rest =>
      match f x with
      | Some y => Some y
      | None => firstSome f rest
      end
  end.

(** [list.join(' ')] *)
Fixpoint joinWith (sep : jsstring) (l : list jsstring) : jsstring :=
  match l with
  | [] => []
  | [x] => x
  | x :: rest => x ++ sep ++ joinWith sep rest
  end.

(** The text that [String.prototype.replace] puts in place of a match when
    the replacement is a string (GetSubstitution): [$$], [$&], the text
    before and after the match, and the numbered groups; there are no named
    groups here, so [$<] stands for itself. *)
Definition captureAt (captures : list jsstring) (n : N) : option jsstring :=
  if (1 <=? n)%N && (N.to_nat n <=? length captures)
  then nth_error captures (N.to_nat n - 1)
  else None.

Fixpoint getSubstitution (matched before after : jsstring)
         (captures : list jsstring) (template : jsstring) : jsstring :=
  match template with
  | [] => []
  | c :: t1 =>
      if N.eqb c 36 then
        match t1 with
        | [] => [36%N]
        | d1 :: t2 =>
            if N.eqb d1 36 then
              36%N :: getSubstitution matched before after captures t2
            else if N.eqb d1 38 then
              matched ++ getSubstitution matched before after captures t2
            else if N.eqb d1 96 then
              before ++ getSubstitution matched before after captures t2
            else if N.eqb d1 39 then
              after ++ getSubstitution matched before after captures t2
            else if isDigit d1 then
              let one :=
                match captureAt captures (d1 - 48) with
                | Some g =>
                    g ++ getSubstitution matched before after captures t2
                | None =>
                    36%N :: getSubstitution matched before after captures t1
                end in
              match t2 with
              | d2 :: t3 =>
                  if isDigit d2 then
                    match captureAt captures (10 * (d1 - 48) + (d2 - 48)) with
                    | Some g =>
                        g ++ getSubstitution matched before after captures t3
                    | None => one
                    end
                  else one
              | [] => one
              end
            else 36%N :: getSubstitution matched before after captures t1
        end
      else c :: getSubstitution matched before after captures t1
  end.

(* ================================================================== *)
(** ** Report renderer *)
(* ================================================================== *)

Record CodeHighlightResult : Type := {
  hl_language : option jsstring;
  hl_html : jsstring
}.

(** The resolved options without [codeHighlighter]. *)
Record ReportRenderOptions : Type := {
  clozeInputHtml : jsstring;
  choiceWrapperClassName : jsstring;
  codeBlockClassName : jsstring;
  codeBlockCodeClassName : jsstring;
  inlineCodeClassName : jsstring;
  dataCodeLangAttribute : jsstring;
  itemBodyWrapperClassName : jsstring
}.

Definition Highlighter : Type :=
  jsstring -> option jsstring -> CodeHighlightResult.

Definition defaultReportOptions : ReportRenderOptions := {|
  clozeInputHtml :=
    lit "<input class=cloze-input type=text readonly aria-label=blank>";
  choiceWrapperClassName := lit "choice-interaction";
  codeBlockClassName := lit "code-block hljs";
  codeBlockCodeClassName := lit "code-block-code";
  inlineCodeClassName := lit "code-inline";
  dataCodeLangAttribute := lit "data-code-lang";
  itemBodyWrapperClassName := lit "item-body"
|}.

(** The options a caller may pass. *)
Record PartialReportRenderOptions : Type := {
  clozeInputHtml_opt : option jsstring;
  choiceWrapperClassName_opt : option jsstring;
  codeBlockClassName_opt : option jsstring;
  codeBlockCodeClassName_opt : option jsstring;
  inlineCodeClassName_opt : option jsstring;
  dataCodeLangAttribute_opt : option jsstring;
  itemBodyWrapperClassName_opt : option jsstring;
  codeHighlighter : option Highlighter
}.

Definition noReportOptions : PartialReportRenderOptions := {|
  clozeInputHtml_opt := None;
  choiceWrapperClassName_opt := None;
  codeBlockClassName_opt := None;
  codeBlockCodeClassName_opt := None;
  inlineCodeClassName_opt := None;
  dataCodeLangAttribute_opt := None;
  itemBodyWrapperClassName_opt := None;
  codeHighlighter := None
|}.

(** [{ ...defaultReportOptions, ...options }] *)
Definition resolveReportOptions (options : PartialReportRenderOptions)
  : ReportRenderOptions := {|
  clozeInputHtml :=
    orElse (clozeInputHtml_opt options) (clozeInputHtml defaultReportOptions);
  choiceWrapperClassName :=
    orElse (choiceWrapperClassName_opt options)
           (choiceWrapperClassName defaultReportOptions);
  codeBlockClassName :=
    orElse (codeBlockClassName_opt options)
           (codeBlockClassName defaultReportOptions);
  codeBlockCodeClassName :=
    orElse (codeBlockCodeClassName_opt options)
           (codeBlockCodeClassName defaultReportOptions);
  inlineCodeClassName :=
    orElse (inlineCodeClassName_opt options)
           (inlineCodeClassName defaultReportOptions);
  dataCodeLangAttribute :=
    orElse (dataCodeLangAttribute_opt options)
           (dataCodeLangAttribute defaultReportOptions);
  itemBodyWrapperClassName :=
    orElse (itemBodyWrapperClassName_opt options)
           (itemBodyWrapperClassName defaultReportOptions)
|}.

Definition serializeAttributes (el : Node) : jsstring :=
  join (map (fun a => lit " " ++ fst a ++ lit "=" ++ quoted (escapeHtml (snd a)))
            (filter (fun a => negb ((fst a =?s lit "xmlns")
                                    || startsWith (fst a) (lit "xmlns:")))
                    (attributes el))).

Fixpoint renderNodeForReport (node : Node) (options : ReportRenderOptions)
         (inPre preserveWhitespace : bool) : jsstring :=
  match node with
  | CharacterData t data =>
      if N.eqb t NODE_TYPES.TEXT_NODE then
        let text := data in
        if inPre && negb preserveWhitespace && isEmpty (trim text)
        then []
        else escapeHtml text
      else []
  | Element _ name _ children =>
      let el := node in
      let renderChildren := fun nextInPre nextPreserve =>
        join (map (fun child =>
                     renderNodeForReport child options nextInPre nextPreserve)
                  children) in
      if name =?s lit "qti-rubric-block" then []
      else if name =?s lit "qti-choice-interaction" then
        let classAttr :=
          if truthy (choiceWrapperClassName options)
          then lit " class="
               ++ quoted (escapeHtml (choiceWrapperClassName options))
          else [] in
        lit "<div" ++ classAttr ++ lit ">"
        ++ renderChildren inPre preserveWhitespace ++ lit "</div>"
      else if name =?s lit "qti-text-entry-interaction" then
        clozeInputHtml options
      else if name =?s lit "qti-extended-text-interaction" then []
      else if (name =?s lit "qti-pre") || (name =?s lit "pre") then
        let attrs := serializeAttributes el in
        lit "<pre" ++ attrs ++ lit ">" ++ renderChildren true false
        ++ lit "</pre>"
      else if (name =?s lit "qti-code") || (name =?s lit "code") then
        let attrs := serializeAttributes el in
        lit "<code" ++ attrs ++ lit ">" ++ renderChildren inPre true
        ++ lit "</code>"
      else if (name =?s lit "qti-img") || (name =?s lit "img") then
        let attrs := serializeAttributes el in
        lit "<img" ++ attrs ++ lit " />"
      else if (name =?s lit "qti-hr") || (name =?s lit "hr") then
        lit "<hr />"
      else
        let tagName :=
          if startsWith name (lit "qti-") then sliceFrom name 4 else name in
        let attrs := serializeAttributes el in
        lit "<" ++ tagName ++ attrs ++ lit ">"
        ++ renderChildren inPre preserveWhitespace
        ++ lit "</" ++ tagName ++ lit ">"
  end.

(* ================================================================== *)
(** ** The three string passes of the report *)
(* ================================================================== *)

Definition decodeXmlEntities (value : jsstring) : jsstring :=
  replaceLiteral (lit "&apos;") [39%N] 0
    (replaceLiteral (lit "&quot;") [34%N] 0
       (replaceLiteral (lit "&amp;") [38%N] 0
          (replaceLiteral (lit "&gt;") [62%N] 0
             (replaceLiteral (lit "&lt;") [60%N] 0 value)))).

(** [[A-Za-z_:]] and [[A-Za-z0-9_.:-]] *)
Definition isAttrNameStart (c : N) : bool :=
  (isAsciiLetter c || (c =? 95) || (c =? 58))%N.
Definition isAttrNameChar (c : N) : bool :=
  (isAsciiLetter c || isDigit c || (c =? 95) || (c =? 46) || (c =? 58)
   || (c =? 45))%N.

(** One match of the attribute pattern of [parseAttributes] at the start
    of [s]: a name, [=] with optional white space around it, and a value
    between double or single quotes.  Result: the length of the match, the
    name, the value. *)
Definition matchAttribute (s : jsstring) : option (nat * jsstring * jsstring) :=
  match s with
  | c :: r =>
      if isAttrNameStart c then
        let name := c :: takeWhile isAttrNameChar r in
        let r1 := dropWhile isAttrNameChar r in
        let ws1 := takeWhile isWhiteSpace r1 in
        match dropWhile isWhiteSpace r1 with
        | 61%N :: r2 =>
            let ws2 := takeWhile isWhiteSpace r2 in
            match dropWhile isWhiteSpace r2 with
            | q :: r3 =>
                if N.eqb q 34 || N.eqb q 39 then
                  match findFrom [q] r3 with
                  | Some (value, _) =>
                      Some (length name + length ws1 + 1 + length ws2 + 1
                            + length value + 1, name, value)
                  | None => None
                  end
                else None
            | [] => None
            end
        | _ => None
        end
      else None
  | [] => None
  end.

(** The [exec] loop of [parseAttributes]: the matches from left to right. *)
Fixpoint scanAttributes (skip : nat) (s : jsstring)
  : list (jsstring * jsstring) :=
  match s with
  | [] => []
  | _ :: s' =>
      match skip with
      | S k => scanAttributes k s'
      | 0 =>
          match matchAttribute s with
          | Some (len, name, value) =>
              (name, value) :: scanAttributes (len - 1) s'
          | None => scanAttributes 0 s'
          end
      end
  end.

(** [parseAttributes(tagOpen)]: the record as the list of its assignments,
    oldest first; a later assignment to a name overrides an earlier one.
    The record is a plain object: an assignment to [__proto__] calls the
    setter that the object inherits from [Object.prototype], which ignores
    a string, so that no property is made. *)
Definition parseAttributes (tagOpen : jsstring) : list (jsstring * jsstring) :=
  filter (fun a => negb (fst a =?s lit "__proto__"))
         (scanAttributes 0 tagOpen).

(** [attributes[name]] for a name that the record does not inherit from
    [Object.prototype]; the passes read [class], [data-lang],
    [data-language] and [data-code-lang]. *)
Definition attributeOf (attrs : list (jsstring * jsstring)) (name : jsstring)
  : option jsstring := lookupAttr name (rev attrs).

Definition extractInnerXml (tagBlock tagName : jsstring) : option jsstring :=
  match matchTag (lit "<" ++ tagName) tagBlock with
  | Some (_, rest) =>
      let closing := lit "</" ++ tagName ++ lit ">" in
      if endsWith rest closing
      then Some (firstn (length rest - length closing) rest)
      else None
  | None => None
  end.

(** The pattern of [addOrUpdateAttribute]: a white-space character, the
    attribute name, an equals sign, and a value between double quotes that
    holds none.  The name is taken literally, which is what the pattern
    does for a name without characters that mean something in a regular
    expression ([class] and [data-code-lang] are such names; with other
    names the pattern built by [new RegExp] is another one, or is refused
    with a SyntaxError, and what is proved of the passes for a name that
    the caller chooses is proved for names of letters, digits, [_] and [-]
    or for fragments in which the pattern is not used).  Result: the length
    of a match at the start of [s]. *)
Definition matchAttributeNamed (name : jsstring) (s : jsstring) : option nat :=
  match s with
  | c :: r =>
      if isWhiteSpace c && startsWith r (name ++ lit "=" ++ dq) then
        match findFrom dq (skipn (length name + 2) r) with
        | Some (value, _) => Some (1 + length name + 2 + length value + 1)
        | None => None
        end
      else None
  | [] => None
  end.

(** [[A-Za-z0-9-]] *)
Definition isTagNameChar (c : N) : bool :=
  (isAsciiLetter c || isDigit c || (c =? 45))%N.

Definition addOrUpdateAttribute (tagOpen attributeName attributeValue : jsstring)
  : jsstring :=
  match splitAtMatch (matchAttributeNamed attributeName) tagOpen with
  | Some (before, matched, after) =>
      before
      ++ getSubstitution matched before after []
           (lit " " ++ attributeName ++ lit "=" ++ quoted attributeValue)
      ++ after
  | None =>
      match tagOpen with
      | 60%N :: r =>
          let tag := takeWhile isTagNameChar r in
          if isEmpty tag then tagOpen
          else
            let after := dropWhile isTagNameChar r in
            getSubstitution (60%N :: tag) [] after [tag]
              (lit "<$1 " ++ attributeName ++ lit "=" ++ quoted attributeValue)
            ++ after
      | _ => tagOpen
      end
  end.

(** [new Set(tokens)] followed by [add]: the elements in the order of
    their first insertion. *)
Definition setAdd (merged : list jsstring) (token : jsstring)
  : list jsstring :=
  if includesString merged token then merged else merged ++ [token].

Definition addClasses (tagOpen : jsstring) (classNames : list jsstring)
  : jsstring :=
  let attributes := parseAttributes tagOpen in
  let existing := orElse (attributeOf attributes (lit "class")) [] in
  let merged :=
    fold_left setAdd
              (filter (fun token => 0 <? length token) (split_ws existing))
              [] in
  let merged := fold_left setAdd classNames merged in
  addOrUpdateAttribute tagOpen (lit "class") (joinWith (lit " ") merged).

(** [token.match(re)[1]] for the pattern
    "^(?:language|lang)-([A-Za-z0-9_-]+)$". *)
Definition isLanguageChar (c : N) : bool :=
  (isAsciiLetter c || isDigit c || (c =? 95) || (c =? 45))%N.

Definition matchLanguageToken (token : jsstring) : option jsstring :=
  let check := fun rest =>
    if negb (isEmpty rest) && forallb isLanguageChar rest
    then Some rest else None in
  if startsWith token (lit "language-") then check (sliceFrom token 9)
  else if startsWith token (lit "lang-") then check (sliceFrom token 5)
  else None.

Definition detectCodeLanguageFromOpenTag (tagOpen : jsstring)
  : option jsstring :=
  let attributes := parseAttributes tagOpen in
  let fromData :=
    match attributeOf attributes (lit "data-lang") with
    | Some v => Some v
    | None =>
        match attributeOf attributes (lit "data-language") with
        | Some v => Some v
        | None => attributeOf attributes (lit "data-code-lang")
        end
    end in
  if truthyOpt fromData then Some (trim (orElse fromData []))
  else
    let classAttr := attributeOf attributes (lit "class") in
    if negb (truthyOpt classAttr) then None
    else
      let tokens := split_ws (orElse classAttr []) in
      firstSome matchLanguageToken tokens.

Section ReportPasses.
(** [String.prototype.toLowerCase], whose Unicode case mapping is left
    to the platform. *)
Variable toLowerCase : jsstring -> jsstring.

Definition normalizeLanguageForReport (language : jsstring) : jsstring :=
  let normalized := toLowerCase language in
  if normalized =?s lit "xml" then lit "html"
  else if normalized =?s lit "plaintext" then lit "plain"
  else normalized.

(** The callback of [normalizePreBlocks]. *)
Definition normalizePreBlock (preBlock : jsstring) : jsstring :=
  match matchPreOpen preBlock with
  | None => preBlock
  | Some (preOpen, _) =>
      match extractInnerXml preBlock (lit "pre") with
      | None => preBlock
      | Some inner =>
          match firstMatch matchCodeOpen inner with
          | None => preBlock
          | Some (firstCodeOpen, _) =>
              let withoutCodeTags :=
                replaceMatches
                  (fun s =>
                     match matchCodeTag s with
                     | Some (tag, _) => Some (length tag, [])
                     | None => None
                     end)
                  0 inner in
              preOpen ++ firstCodeOpen ++ withoutCodeTags
              ++ lit "</code></pre>"
          end
      end
  end.

(** The pattern of [normalizePreBlocks] at the start of [s]: an opening
    pre tag and the text up to the first closing one. *)
Definition matchPreBlock (s : jsstring) : option jsstring :=
  match matchPreOpen s with
  | Some (preOpen, rest) =>
      match findFrom (lit "</pre>") rest with
      | Some (inner, _) => Some (preOpen ++ inner ++ lit "</pre>")
      | None => None
      end
  | None => None
  end.

Definition normalizePreBlocks (htmlFragment : jsstring) : jsstring :=
  replaceMatches
    (fun s =>
       match matchPreBlock s with
       | Some preBlock => Some (length preBlock, normalizePreBlock preBlock)
       | None => None
       end)
    0 htmlFragment.

(** The callback of [enhanceCodeBlocks]. *)
Definition enhanceCodeBlock (options : ReportRenderOptions)
           (codeHighlighter : option Highlighter)
           (preOpen whitespace codeOpen codeContent codeClose : jsstring)
  : jsstring :=
  let explicitLanguage := detectCodeLanguageFromOpenTag codeOpen in
  let language :=
    if truthyOpt explicitLanguage
    then normalizeLanguageForReport (orElse explicitLanguage [])
    else lit "plain" in
  let '(language, content) :=
    match codeHighlighter with
    | Some highlight =>
        let highlighted :=
          highlight (decodeXmlEntities codeContent) explicitLanguage in
        (normalizeLanguageForReport
           (orElse (hl_language highlighted) language),
         if 0 <? length (hl_html highlighted)
         then hl_html highlighted else codeContent)
    | None => (language, codeContent)
    end in
  let enhancedPre :=
    addOrUpdateAttribute
      (addClasses preOpen (split_ws (codeBlockClassName options)))
      (dataCodeLangAttribute options) language in
  let enhancedCode :=
    addOrUpdateAttribute
      (addClasses codeOpen (split_ws (codeBlockCodeClassName options)))
      (dataCodeLangAttribute options) language in
  enhancedPre ++ whitespace ++ enhancedCode ++ content ++ codeClose.

(** The pattern of [enhanceCodeBlocks] at the start of [s]: its five
    groups. *)
Definition matchPreCode (s : jsstring)
  : option (jsstring * jsstring * jsstring * jsstring * jsstring) :=
  match matchPreOpen s with
  | Some (preOpen, r1) =>
      let whitespace := takeWhile isWhiteSpace r1 in
      match matchCodeOpen (dropWhile isWhiteSpace r1) with
      | Some (codeOpen, r3) =>
          match findFrom (lit "</code>") r3 with
          | Some (codeContent, _) =>
              Some (preOpen, whitespace, codeOpen, codeContent,
                    lit "</code>")
          | None => None
          end
      | None => None
      end
  | None => None
  end.

Definition enhanceCodeBlocks (htmlFragment : jsstring)
           (options : ReportRenderOptions)
           (codeHighlighter : option Highlighter) : jsstring :=
  replaceMatches
    (fun s =>
       match matchPreCode s with
       | Some (preOpen, whitespace, codeOpen, codeContent, codeClose) =>
           Some (length preOpen + length whitespace + length codeOpen
                 + length codeContent + length codeClose,
                 enhanceCodeBlock options codeHighlighter preOpen
                   whitespace codeOpen codeContent codeClose)
       | None => None
       end)
    0 htmlFragment.

(** The callback of [enhanceInlineCode]. *)
Definition enhanceInlineCodeTag (options : ReportRenderOptions)
           (codeOpen : jsstring) : jsstring :=
  let attributes := parseAttributes codeOpen in
  let existingClasses := orElse (attributeOf attributes (lit "class")) [] in
  if includesString (split_ws existingClasses)
                    (codeBlockCodeClassName options)
  then codeOpen
  else
    let language := detectCodeLanguageFromOpenTag codeOpen in
    let enhancedCode :=
      addClasses codeOpen (split_ws (inlineCodeClassName options)) in
    if negb (truthyOpt language) then enhancedCode
    else
      addOrUpdateAttribute enhancedCode (dataCodeLangAttribute options)
        (normalizeLanguageForReport (orElse language [])).

Definition enhanceInlineCode (htmlFragment : jsstring)
           (options : ReportRenderOptions) : jsstring :=
  replaceMatches
    (fun s =>
       match matchCodeOpen s with
       | Some (codeOpen, _) =>
           Some (length codeOpen, enhanceInlineCodeTag options codeOpen)
       | None => None
       end)
    0 htmlFragment.

(* ================================================================ *)
(** ** The report entry point *)
(* ================================================================ *)

Record ParsedItemForReport : Type := {
  rp_identifier : jsstring;
  rp_title : jsstring;
  questionHtml : jsstring;
  rp_rubricCriteria : list RubricCriterion;
  itemMaxScore : number;
  rp_choices : list ChoiceOption
}.

(** The XML parser, for the calls in which it returns; an error that it
    throws is not caught by the entry point. *)
Variable parseXml : jsstring -> Document.

Definition renderQtiItemForReport (xml expectedIdentifier : jsstring)
           (options : PartialReportRenderOptions)
  : Result ParsedItemForReport :=
  let resolved := resolveReportOptions options in
  let doc := parseXml xml in
  let parseFailed :=
    Throw (lit "Invalid assessment item: XML parse failed for "
           ++ expectedIdentifier) in
  match documentElement doc with
  | None => parseFailed
  | Some root =>
      if nodeName root =?s lit "parsererror" then parseFailed
      else
        let identifier := orElse (getAttribute root (lit "identifier")) [] in
        let title :=
          orElse (getAttribute root (lit "title")) expectedIdentifier in
        if negb (truthy identifier) then
          Throw (lit "Invalid assessment item: identifier missing in "
                 ++ expectedIdentifier)
        else if negb (identifier =?s expectedIdentifier) then
          Throw (lit "Assessment item identifier mismatch: expected "
                 ++ expectedIdentifier ++ lit " but found " ++ identifier)
        else
          match nth_error
                  (getElementsByLocalName root (lit "qti-item-body")) 0 with
          | None =>
              Throw (lit "Invalid assessment item: qti-item-body not found for "
                     ++ identifier)
          | Some itemBody =>
              let rubricCriteria := extractRubricCriteria itemBody in
              let itemMaxScore :=
                fold_left (fun sum criterion =>
                             numberAdd sum (points criterion))
                          rubricCriteria (Finite 0) in
              let rawBody :=
                join (map (fun node =>
                             renderNodeForReport node resolved false false)
                          (childNodes itemBody)) in
              let wrappedHtml :=
                lit "<div class="
                ++ quoted (itemBodyWrapperClassName resolved) ++ lit ">"
                ++ rawBody ++ lit "</div>" in
              let normalizedPreBlocks := normalizePreBlocks wrappedHtml in
              let withCodeBlocks :=
                enhanceCodeBlocks normalizedPreBlocks resolved
                                  (codeHighlighter options) in
              let questionHtml := enhanceInlineCode withCodeBlocks resolved in
              let choices := extractChoices itemBody in
              Ok {| rp_identifier := identifier;
                    rp_title := title;
                    questionHtml := questionHtml;
                    rp_rubricCriteria := rubricCriteria;
                    itemMaxScore := itemMaxScore;
                    rp_choices := choices |}
          end
  end.
End ReportPasses.


(* ================================================================== *)
(** ** Language detection on elements *)
(* ================================================================== *)

(** [detectCodeLanguage], the detector that reads the attributes of an
    element where [detectCodeLanguageFromOpenTag] reads them from the text
    of a tag. *)
Definition detectCodeLanguage (codeOpen : Node) : option jsstring :=
  let fromData :=
    match getAttribute codeOpen (lit "data-lang") with
    | Some v => Some v
    | None =>
        match getAttribute codeOpen (lit "data-language") with
        | Some v => Some v
        | None => getAttribute codeOpen (lit "data-code-lang")
        end
    end in
  if truthyOpt fromData then Some (trim (orElse fromData []))
  else
    let classAttr := getAttribute codeOpen (lit "class") in
    if negb (truthyOpt classAttr) then None
    else
      let tokens := split_ws (orElse classAttr []) in
      firstSome matchLanguageToken tokens.

Section Language.
Variable toLowerCase : jsstring -> jsstring.

Definition normalizeLanguage (language : jsstring) : jsstring :=
  let normalized := toLowerCase language in
  if normalized =?s lit "xml" then lit "html"
  else if normalized =?s lit "plaintext" then lit "plain"
  else normalized.
End Language.

(* ================================================================== *)
(** ** Notions used to state the properties, and the examples *)
(* ================================================================== *)

(** [Steps R m]: every run of [m] takes the counter from a state to an
    [R]-related one. *)
Definition Steps {A : Type} (R : BlankCounter -> BlankCounter -> Prop)
           (m : M A) : Prop :=
  forall st a st', m st = Some (a, st') -> R st st'.

(** [Total m]: [m] never runs out of fuel. *)
Definition Total {A : Type} (m : M A) : Prop :=
  forall st, exists a st', m st = Some (a, st').

(** [Counts st st']: from [st] to [st'] the counter went up by some [k]
    and the blank renderer was called with the next [k] indices. *)
Definition Counts (st st' : BlankCounter) : Prop :=
  exists k,
    value st' = value st + k /\
    map fst (issued st') = map fst (issued st) ++ seq (S (value st)) k.


(** [Refines m m']: whatever [m] returns, [m'] returns too. *)
Definition Refines {A : Type} (m m' : M A) : Prop :=
  forall st r, m st = Some r -> m' st = Some r.

(** The finite binary64 values that are not negative, in units of
  2^-1074: at most 53 significant binary digits, and below 2^1024. *)
Definition isBinary64 (k : N) : Prop :=
(k < 2 ^ 2098)%N /\ exists m j, k = (m * 2 ^ j)%N /\ (m < 2 ^ 53)%N.


(** The distance of a binary64 value from the rational [n / d], times
  [d]; all of it in units of 2^-1074. *)
Definition distanceInUnits (n d k : N) : Z :=
Z.abs (Z.of_N k * Z.of_N d - Z.of_N n)%Z.

(** A value of the type that is a binary64 value. *)
Definition isNumber (x : number) : Prop :=
match x with
| Finite k => isBinary64 k
| Infinity => True
end.

(** [a <= b] *)
Definition numberLe (a b : number) : Prop :=
match a, b with
| Finite x, Finite y => (x <= y)%N
| _, Infinity => True
| Infinity, Finite _ => False
end.



Definition explanationExample : Node :=
  el "qti-assessment-item" [attr "identifier" "item-1"]
     [ el "qti-item-body" []
          [ el "qti-p" [] [ el "qti-text-entry-interaction" [] [] ] ];
       el "qti-modal-feedback"
          [attr "identifier" "EXPLANATION";
           attr "outcome-identifier" "FEEDBACK"]
          [ el "qti-content-body" []
               [ el "qti-text-entry-interaction" [] [] ] ] ].

Definition blankA : Node :=
  el "qti-text-entry-interaction" [attr "response-identifier" "A"] [].
Definition blankB : Node :=
  el "qti-text-entry-interaction" [attr "response-identifier" "B"] [].
Definition blankC : Node :=
  el "qti-text-entry-interaction" [attr "response-identifier" "C"] [].





(** A simple choice inside a simple choice, and a blank of a choice
    interaction that is in no simple choice. *)
Definition nestedChoiceBody : Node :=
  el "qti-item-body" []
     [ el "qti-choice-interaction" []
          [ el "qti-simple-choice" [attr "identifier" "X"]
               [ textNode "x ";
                 el "qti-simple-choice" [attr "identifier" "Y"]
                    [ textNode "y "; blankA ] ] ] ].

Definition strayBlankBody : Node :=
  el "qti-item-body" []
     [ el "qti-choice-interaction" []
          [ blankA;
            el "qti-simple-choice" [attr "identifier" "X"] [ blankB ] ] ].

(** Blanks in a paragraph, in a simple choice, and around the code of a
    pre block. *)
Definition nestedBlanksItem : Node :=
  el "qti-assessment-item" [attr "identifier" "item-1"]
     [ el "qti-item-body" []
          [ el "qti-p" [] [ textNode "a "; blankA ];
            el "qti-choice-interaction" []
               [ el "qti-simple-choice" [attr "identifier" "X"]
                    [ textNode "x "; blankB ] ];
            el "qti-pre" []
               [ el "qti-code" [] [ textNode "y = " ];
                 blankC;
                 el "qti-code" [] [ textNode ";" ] ] ] ].

Definition nestedBlanksBody : Node :=
  match nestedBlanksItem with
  | Element _ _ _ (body :: _) => body
  | _ => nestedBlanksItem
  end.

(** A root without [identifier] but with a [title]. *)
Definition titledItem : Node :=
  el "qti-assessment-item" [attr "title" "Untitled draft"]
     [ el "qti-item-body" [] [ el "qti-p" [] [ textNode "Prompt" ] ] ].

Definition anonymousItem : Node :=
  el "qti-assessment-item" []
     [ el "qti-item-body" [] [ el "qti-p" [] [ textNode "Prompt" ] ] ].


















(** What an update of the attributes leaves alone. *)
Definition keepsChildren (f : Node -> Node) : Prop :=
  forall n, childNodes (f n) = childNodes n.

(** The attributes of an element. *)
Definition elementAttributes (n : Node)
  : option (list (jsstring * jsstring)) :=
  match n with
  | CharacterData _ _ => None
  | Element _ _ a _ => Some a
  end.

Definition attrsOf (o : option Node) : option (list (jsstring * jsstring)) :=
  match o with
  | Some n => elementAttributes n
  | None => None
  end.

(** The attributes of the element a reference points to. *)
Definition attrsAt (doc : HtmlDocument) (r : ElementRef)
  : option (list (jsstring * jsstring)) :=
  attrsOf (deref doc r).

(** [step] changes the attributes at the place it is given by [effect], and
    no attributes elsewhere. *)
Definition LocalStep
           (step : HtmlDocument -> ElementRef -> nat -> HtmlDocument)
           (effect : nat -> list (jsstring * jsstring) ->
                     list (jsstring * jsstring)) : Prop :=
  forall doc r i,
    attrsAt (step doc r i) r = option_map (effect i) (attrsAt doc r)
    /\ forall r', r <> r' -> attrsAt (step doc r i) r' = attrsAt doc r'.

(** The response at an index: a single string counts as a list of one
    response, and [null] or [undefined] as none. *)
Definition responseAt (response : ResponseArg) (i : nat) : option jsstring :=
  match response with
  | NoResponse => None
  | SingleResponse s =>
      match i with
      | 0 => Some s
      | S _ => None
      end
  | ResponseList l => nth_error l i
  end.

Definition hasResponse (response : ResponseArg) : bool :=
  match responseAt response 0 with
  | Some _ => true
  | None => false
  end.

(** What the loop of [applyResponsesToPromptHtml] does to the attributes
    of a blank, given the response at its position. *)
Definition filledAttributes (response : option jsstring)
           (attrs : list (jsstring * jsstring))
  : list (jsstring * jsstring) :=
  match response with
  | Some value =>
      setAttr (lit "size") (numberToString (Nat.max 6 (length value)))
              (setAttr (lit "value") value attrs)
  | None => attrs
  end.

(** A serializer and a selector engine for the examples: the text of the
    body, and an element of the given tag that has the given attribute. *)
Definition exampleInnerHTML (n : Node) : jsstring := textContent n.

Definition tagWithAttribute (tag name : jsstring) (n : Node) : bool :=
  (localName n =?s tag)
  && match getAttribute n name with Some _ => true | None => false end.

Definition exampleSelector (selector : jsstring) (n : Node) : bool :=
  if selector =?s lit "img[src]" then tagWithAttribute (lit "img") (lit "src") n
  else tagWithAttribute (lit "input") (lit "class") n.

(** A serializer for the examples: elements with their attributes between
    double quotes, [input] and [img] without content. *)
Fixpoint exampleMarkup (n : Node) : jsstring :=
  match n with
  | CharacterData t d => if N.eqb t 3 then escapeHtml d else []
  | Element _ name attrs children =>
      lit "<" ++ name
      ++ concat (map (fun a => lit " " ++ fst a ++ lit "="
                               ++ quoted (escapeHtml (snd a))) attrs)
      ++ lit ">"
      ++ (if (name =?s lit "input") || (name =?s lit "img") then []
          else concat (map exampleMarkup children)
               ++ lit "</" ++ name ++ lit ">")
  end.

Definition exampleSerializer (n : Node) : jsstring :=
  concat (map exampleMarkup (childNodes n)).

(** The prompt of the test suite, as a parser reads it. *)
Definition blankPrompt : jsstring :=
  lit "<p>A" ++ blankRenderer defaultScoringOptions 1 ++ lit "B</p>".

Definition blankPromptDocument : HtmlDocument :=
  {| head := el "head" [] [];
     body :=
       el "body" []
          [ el "p" []
               [ textNode "A";
                 el "input"
                    [attr "class" "qti-blank-input"; attr "data-blank" "1";
                     attr "type" "text"; attr "size" "6"; attr "disabled" "";
                     attr "aria-label" "blank 1"] [];
                 textNode "B" ] ] |}.

Definition blankPromptParser : HtmlDomParser :=
  {| parseFromString := fun _ _ => blankPromptDocument |}.

(** Sources that are external on the face of it: a scheme of letters
    followed by "://", a protocol-relative or root-relative reference, a
    data URI. *)
Definition hasScheme (src : jsstring) : Prop :=
  exists scheme rest,
    scheme <> []
    /\ Forall (fun c => isAsciiLetter c = true) scheme
    /\ src = scheme ++ lit "://" ++ rest.

Definition isListedExternal (src : jsstring) : Prop :=
  hasScheme src
  \/ startsWith src (lit "//") = true
  \/ startsWith src (lit "/") = true
  \/ startsWith src (lit "data:") = true.

(** What the loop of [rewriteHtmlImageSources] does to the attributes of
    an image. *)
Definition rewrittenAttributes
           (resolveRelativePath : jsstring -> jsstring -> option jsstring)
           (baseFilePath : jsstring) (options : RewriteImageSourcesOptions)
           (attrs : list (jsstring * jsstring))
  : list (jsstring * jsstring) :=
  match lookupAttr (lit "src") attrs with
  | None => attrs
  | Some src =>
      if negb (truthy src)
         || orElse (isExternalSource options) defaultIsExternalSource src
      then attrs
      else
        match resolveRelativePath baseFilePath src with
        | None => attrs
        | Some r =>
            if negb (truthy r) then attrs
            else setAttr (lit "src") (resolveUrl options r src) attrs
        end
  end.

(** The image of the test suite, and two that are external. *)
Definition imageDocument : HtmlDocument :=
  {| head := el "head" [] [];
     body :=
       el "body" []
          [ el "img" [attr "src" "images/pic.png"; attr "alt" "pic"] [];
            el "img" [attr "src" "https://example.org/a.png"] [];
            el "img" [attr "src" "/top.png"] [] ] |}.

Definition imageParser : HtmlDomParser :=
  {| parseFromString := fun _ _ => imageDocument |}.

Definition assetsOptions : RewriteImageSourcesOptions :=
  {| rw_domParser := Some imageParser;
     resolveUrl := fun resolved _ => lit "/assets/" ++ resolved;
     isExternalSource := None |}.

(** A resolver for the examples: the directory of the item, then the
    source, which is what the test suite expects of [resolveRelativePath]
    for [images/pic.png]. *)
Definition itemsResolver (_ src : jsstring) : option jsstring :=
  Some (lit "items/" ++ src).

(** Images whose sources have a scheme that is not made of letters only,
    and a data URI in capitals. *)
Definition schemeDocument : HtmlDocument :=
  {| head := el "head" [] [];
     body :=
       el "body" []
          [ el "img" [attr "src" "s3://bucket/pic.png"] [];
            el "img" [attr "src" "git+ssh://host/pic.png"] [];
            el "img" [attr "src" "DATA:image/png;base64,AAAA"] [] ] |}.

Definition schemeOptions : RewriteImageSourcesOptions :=
  {| rw_domParser :=
       Some {| parseFromString := fun _ _ => schemeDocument |};
     resolveUrl := fun resolved _ => lit "/assets/" ++ resolved;
     isExternalSource := None |}.

Definition unnamedReportItem : Node :=
  el "qti-assessment-item" [attr "title" "Item 7"]
     [ el "qti-item-body" [] [ el "qti-p" [] [ textNode "Prompt" ] ] ].

Definition otherReportItem : Node :=
  el "qti-assessment-item" [attr "identifier" "item-8"]
     [ el "qti-item-body" [] [ el "qti-p" [] [ textNode "Prompt" ] ] ].

(** How often a text occurs in a string. *)
Fixpoint countOccurrences (pat s : jsstring) : nat :=
  (if startsWith s pat then 1 else 0)
  + match s with
    | [] => 0
    | _ :: s' => countOccurrences pat s'
    end.

(** An item whose inline code carries the class [$&]. *)
Definition dollarClassItem : Node :=
  el "qti-assessment-item" [attr "identifier" "item-9"]
     [ el "qti-item-body" []
          [ el "qti-code" [attr "class" "$&"] [ textNode "x" ] ] ].

(** What the report renderer writes for its item body, the ampersand
    escaped. *)
Definition dollarClassCode : jsstring :=
  lit "<div class=" ++ quoted (lit "item-body") ++ lit ">"
  ++ lit "<code class=" ++ quoted (lit "$&amp;") ++ lit ">x</code>"
  ++ lit "</div>".

(** The same value in the representation of the standard library's
    specification of IEEE 754 ([SpecFloat]): sign, significand and
    exponent, subnormal values with the least exponent. *)
Definition toSpecFloat (x : number) : SpecFloat.spec_float :=
  match x with
  | Infinity => SpecFloat.S754_infinity false
  | Finite k =>
      let shift := (N.log2 k - 52)%N in
      match (k / 2 ^ shift)%N with
      | N0 => SpecFloat.S754_zero false
      | Npos m => SpecFloat.S754_finite false m (Z.of_N shift - 1074)
      end
  end.

(** An ASCII instance of [toLowerCase] for the examples. *)
Definition asciiLowerCase (s : jsstring) : jsstring :=
  map (fun c => if ((65 <=? c) && (c <=? 90))%N then (c + 32)%N else c) s.

Definition scoringTestItem : Node :=
  el "qti-assessment-item"
     [attr "xmlns" "http://www.imsglobal.org/xsd/imsqti_v3p0";
      attr "identifier" "item-1"; attr "title" "Item 1"]
     [ el "qti-item-body" []
          [ el "qti-p" [] [ textNode "Prompt" ];
            el "qti-choice-interaction"
               [attr "response-identifier" "RESPONSE"; attr "max-choices" "1"]
               [ el "qti-simple-choice" [attr "identifier" "A"]
                    [ textNode "Alpha" ];
                 el "qti-simple-choice" [attr "identifier" "B"]
                    [ textNode "Beta" ] ];
            el "qti-p" []
               [ el "qti-text-entry-interaction"
                    [attr "response-identifier" "RESPONSE"] [] ];
            el "qti-rubric-block" [attr "view" "scorer"]
               [ el "qti-p" [] [ textNode "[2] Good" ] ] ] ].

Definition reportTestItem : Node :=
  el "qti-assessment-item"
     [attr "xmlns" "http://www.imsglobal.org/xsd/imsqti_v3p0";
      attr "identifier" "item-7"; attr "title" "Item 7"]
     [ el "qti-item-body" []
          [ el "qti-p" []
               [ el "pre" []
                    [ el "code" [attr "class" "language-css"]
                         [ textNode ".modal { opacity: 0.5; }" ] ] ];
            el "qti-p" []
               [ el "qti-text-entry-interaction"
                    [attr "response-identifier" "RESPONSE"] [] ];
            el "qti-rubric-block" [attr "view" "scorer"]
               [ el "qti-p" [] [ textNode "[1] ok" ] ] ] ].

Definition cssHighlighter : Highlighter :=
  fun _ _ => {| hl_language := Some (lit "css");
                hl_html := lit "<span>css</span>" |}.

Definition reportTestOptions : PartialReportRenderOptions :=
  {| clozeInputHtml_opt := None;
     choiceWrapperClassName_opt := None;
     codeBlockClassName_opt := None;
     codeBlockCodeClassName_opt := None;
     inlineCodeClassName_opt := None;
     dataCodeLangAttribute_opt := None;
     itemBodyWrapperClassName_opt := None;
     codeHighlighter := Some cssHighlighter |}.

(** What [escapeHtml] writes for one code unit. *)
Definition escapeUnit (c : N) : jsstring :=
  if N.eqb c 38 then lit "&amp;"
  else if N.eqb c 60 then lit "&lt;"
  else if N.eqb c 62 then lit "&gt;"
  else if N.eqb c 34 then lit "&quot;"
  else if N.eqb c 39 then lit "&#39;"
  else [c].

(** The five characters that [escapeHtml] replaces. *)
Definition isHtmlSpecial (c : N) : bool :=
  (N.eqb c 38 || N.eqb c 60 || N.eqb c 62 || N.eqb c 34 || N.eqb c 39)%bool.

(** The characters that can open or close markup or an attribute value. *)
Definition isMarkupDelimiter (c : N) : bool :=
  (N.eqb c 60 || N.eqb c 62 || N.eqb c 34 || N.eqb c 39)%bool.

(** The text after each of the first three replacements of
    [decodeXmlEntities], unit by unit. *)
Definition afterLt (c : N) : jsstring :=
  if N.eqb c 60 then [c] else escapeUnit c.
Definition afterGt (c : N) : jsstring :=
  if N.eqb c 62 then [c] else afterLt c.
Definition afterAmp (c : N) : jsstring :=
  if N.eqb c 38 then [c] else afterGt c.

(** A name that the attribute pattern of [parseAttributes] reads as a
    whole. *)
Definition isPlainAttrName (name : jsstring) : bool :=
  match name with
  | c :: r => isAttrNameStart c && forallb isAttrNameChar r
  | [] => false
  end.

(** One attribute as the renderers write it: a space, the name, the value
    between double quotes. *)
Definition attributeText (a : jsstring * jsstring) : jsstring :=
  lit " " ++ fst a ++ lit "=" ++ quoted (snd a).

Definition attributesText (attrs : list (jsstring * jsstring)) : jsstring :=
  concat (map attributeText attrs).

(** An opening tag with its attributes. *)
Definition openTag (tag : jsstring) (attrs : list (jsstring * jsstring))
  : jsstring :=
  lit "<" ++ tag ++ attributesText attrs ++ lit ">".

(** An assignment that makes a property of a plain object: every name but
    [__proto__]. *)
Definition makesProperty (a : jsstring * jsstring) : bool :=
  negb (fst a =?s lit "__proto__").

(** The names that a plain object inherits from [Object.prototype]:
    [attributes[name]] for such a name is not [undefined] when nothing was
    assigned, and for [__proto__] it is never the string of an
    attribute. *)
Definition objectPrototypeNames : list jsstring :=
  [ lit "__proto__"; lit "constructor"; lit "hasOwnProperty";
    lit "isPrototypeOf"; lit "propertyIsEnumerable"; lit "toLocaleString";
    lit "toString"; lit "valueOf"; lit "__defineGetter__";
    lit "__defineSetter__"; lit "__lookupGetter__"; lit "__lookupSetter__" ].

Definition isInherited (name : jsstring) : bool :=
  includesString objectPrototypeNames name.

(** The attributes that [serializeAttributes] drops. *)
Definition isNamespaceDeclaration (a : jsstring * jsstring) : bool :=
  (fst a =?s lit "xmlns") || startsWith (fst a) (lit "xmlns:").

(** A run of name characters before something that is no assignment holds
    no attribute. *)
Definition noAssignment (s : jsstring) : Prop :=
  takeWhile isAttrNameChar s = []
  /\ match dropWhile isWhiteSpace s with
     | c :: _ => c <> 61%N
     | [] => True
     end.

(** [holdsUnit c s]: the code unit [c] occurs in [s]. *)
Definition holdsUnit (c : N) (s : jsstring) : bool := existsb (N.eqb c) s.

(** Attributes that are written the way [attributeText] writes them and
    can be read back: plain names, values without a double quote (code
    unit 34). *)
Definition isReadable (attrs : list (jsstring * jsstring)) : bool :=
  forallb (fun a => isPlainAttrName (fst a) && negb (holdsUnit 34 (snd a)))
          attrs.

Definition readable (attrs : list (jsstring * jsstring)) : Prop :=
  Forall (fun a => isPlainAttrName (fst a) = true /\ ~ In 34%N (snd a)) attrs.

(** A code element with a class, a title that needs escaping, a namespace
    declaration and an attribute named [__proto__]. *)
Definition serializedExample : Node :=
  Element (lit "code") (lit "code")
          [ attr "xmlns" "http://www.w3.org/1999/xhtml";
            attr "class" "language-js";
            attr "__proto__" "x";
            (lit "title", lit "a " ++ dq ++ lit "b" ++ dq ++ lit " <c>") ]
          [].

(** The first attribute of a name: the attributes before it, its value,
    the attributes after it. *)
Fixpoint firstNamed (name : jsstring) (attrs : list (jsstring * jsstring))
  : option (list (jsstring * jsstring) * jsstring
            * list (jsstring * jsstring)) :=
  match attrs with
  | [] => None
  | (k, v) :: rest =>
      if k =?s name then Some ([], v, rest)
      else
        match firstNamed name rest with
        | Some (pre, old, post) => Some ((k, v) :: pre, old, post)
        | None => None
        end
  end.

(** The attributes with [name] set to [value]: the first attribute of that
    name takes the value where it stands; when there is none, a new
    attribute is put first. *)
Definition withAttribute (name value : jsstring)
           (attrs : list (jsstring * jsstring))
  : list (jsstring * jsstring) :=
  match firstNamed name attrs with
  | Some (pre, _, post) => pre ++ (name, value) :: post
  | None => (name, value) :: attrs
  end.

(** A name that stands for itself in a regular expression and is a plain
    attribute name: a letter or an underscore, then letters, digits,
    underscores and hyphens. *)
Definition isLiteralAttrName (name : jsstring) : bool :=
  isPlainAttrName name && forallb isLanguageChar name.

(** Attributes that [addOrUpdateAttribute] can find by its pattern: they
    are readable, and no value ends with an equals sign (the pattern would
    take the closing quote of such a value for an opening one). *)
Definition isUpdatable (attrs : list (jsstring * jsstring)) : bool :=
  isReadable attrs
  && forallb (fun a => negb (endsWith (snd a) (lit "="))) attrs.

Definition updatable (attrs : list (jsstring * jsstring)) : Prop :=
  readable attrs
  /\ Forall (fun a => endsWith (snd a) (lit "=") = false) attrs.

Definition prepend (w : jsstring)
           (r : option (jsstring * jsstring * jsstring))
  : option (jsstring * jsstring * jsstring) :=
  match r with
  | Some (before, matched, after) => Some (w ++ before, matched, after)
  | None => None
  end.

(** The class names that [addClasses] writes: the tokens of the existing
    class value, then the new names, each kept where it comes first. *)
Definition mergedClasses (existing : jsstring) (classNames : list jsstring)
  : list jsstring :=
  fold_left setAdd classNames
            (fold_left setAdd
                       (filter (fun token => 0 <? length token)
                               (split_ws existing))
                       []).

(** The value of the class attribute of a tag, as [addClasses] reads it. *)
Definition existingClass (attrs : list (jsstring * jsstring)) : jsstring :=
  orElse (attributeOf attrs (lit "class")) [].

(** A class name that can be written into a tag and read back: not empty,
    no white space, no dollar sign (36), no double quote (34), no equals
    sign (61). *)
Definition isClassUnit (c : N) : bool :=
  negb (isWhiteSpace c || N.eqb c 36 || N.eqb c 34 || N.eqb c 61).

Definition isClassName (token : jsstring) : bool :=
  negb (isEmpty token) && forallb isClassUnit token.

(** The code tags of a text taken out, as [normalizePreBlock] does. *)
Definition withoutCodeTags (inner : jsstring) : jsstring :=
  replaceMatches
    (fun s =>
       match matchCodeTag s with
       | Some (tag, _) => Some (length tag, [])
       | None => None
       end)
    0 inner.

(** The sum that [renderQtiItemForReport] takes over the criteria. *)
Definition sumOfPoints (criteria : list RubricCriterion) : number :=
  fold_left (fun sum criterion => numberAdd sum (points criterion))
            criteria (Finite 0).

(** The sum of whole numbers. *)
Definition total (values : list N) : N := fold_right N.add 0%N values.

(** A feedback element is an explanation, and one bound to the FEEDBACK
    outcome. *)
Definition isExplanation (feedback : Node) : Prop :=
  getAttribute feedback (lit "identifier") = Some (lit "EXPLANATION").

Definition isFeedbackExplanation (feedback : Node) : Prop :=
  isExplanation feedback
  /\ getAttribute feedback (lit "outcome-identifier") = Some (lit "FEEDBACK").

(** The item of the test suite with blanks, choices and a rubric. *)
Definition agreeingItem : Node :=
  el "qti-assessment-item" [attr "identifier" "item-1"; attr "title" "Item 1"]
     [ el "qti-item-body" []
          [ el "qti-p" [] [ textNode "Prompt" ];
            el "qti-choice-interaction" []
               [ el "qti-simple-choice" [attr "identifier" "A"]
                    [ textNode "Alpha" ] ];
            el "qti-rubric-block" [attr "view" "scorer"]
               [ el "qti-p" [] [ textNode "[2] Good" ] ] ] ].

Definition agreeingScored : ParsedItemForScoring :=
  Eval vm_compute in
    match renderQtiItemForScoring
            (fun _ => {| documentElement := Some agreeingItem |})
            [] noScoringOptions with
    | Ok parsed => parsed
    | _ => {| identifier := []; title := []; promptHtml := [];
              rubricCriteria := []; choices := [];
              candidateExplanationHtml := None |}
    end.

Definition agreeingReported : ParsedItemForReport :=
  Eval vm_compute in
    match renderQtiItemForReport
            (fun s => s) (fun _ => {| documentElement := Some agreeingItem |})
            [] (lit "item-1") noReportOptions with
    | Ok parsed => parsed
    | _ => {| rp_identifier := []; rp_title := []; questionHtml := [];
              rp_rubricCriteria := []; itemMaxScore := Finite 0;
              rp_choices := [] |}
    end.

(** A tree without its attributes: the elements with their names, the
    texts, and how they are nested. *)
Fixpoint withoutAttributes (n : Node) : Node :=
  match n with
  | CharacterData t d => CharacterData t d
  | Element q l _ children => Element q l [] (map withoutAttributes children)
  end.


(** The trees of a document without their attributes. *)
Definition treesOf (doc : HtmlDocument) : Node * Node :=
  (withoutAttributes (head doc), withoutAttributes (body doc)).

(** The attribute of an element holds none of the five characters that
    [escapeHtml] replaces (or the element has no such attribute). *)
Definition hasPlainValue (el : Node) (name : jsstring) : bool :=
  match getAttribute el name with
  | Some v => forallb (fun c => negb (isHtmlSpecial c)) v
  | None => true
  end.

(** The four attributes that the language detectors read. *)
Definition languageAttributes : list jsstring :=
  [lit "data-lang"; lit "data-language"; lit "data-code-lang"; lit "class"].

(** A code element as an author writes it. *)
Definition languageExample : Node :=
  Element (lit "code") (lit "code")
          [ attr "class" "wide language-js"; attr "title" "a < b" ]
          [].

(** A tree whose rubric blocks are emptied: they keep their place and
    their name and lose their attributes and their content. *)
Fixpoint withEmptyRubricBlocks (n : Node) : Node :=
  match n with
  | CharacterData t d => CharacterData t d
  | Element q l a children =>
      if l =?s lit "qti-rubric-block" then Element q l [] []
      else Element q l a (map withEmptyRubricBlocks children)
  end.

(** The text by which [applyResponsesToPromptHtml] decides whether a
    prompt has blanks. *)
Definition blankMarker : jsstring := lit "qti-blank-input".

(** [Marks out m]: a run of [m] that called the blank renderer gives a
    text that holds the marker. *)
Definition Marks {A : Type} (out : A -> jsstring) (m : M A) : Prop :=
  forall st a st',
    m st = Some (a, st') ->
    issued st' = issued st \/ includes (out a) blankMarker = true.


(* ================================================================== *)
(** * Properties *)
(* ================================================================== *)

(** ** Strings *)

Lemma jseqb_eq (a b : jsstring) : (a =?s b) = true <-> a = b.
Proof.
  revert b; induction a as [|x a IH]; intros [|y b]; simpl; split;
    try congruence; try reflexivity.
  - rewrite andb_true_iff, N.eqb_eq, IH. intros [-> ->]. reflexivity.
  - intros H; injection H as -> ->.
    rewrite N.eqb_refl, (proj2 (IH b) eq_refl). reflexivity.
Qed.

Lemma jseqb_refl (a : jsstring) : (a =?s a) = true.
Proof. apply jseqb_eq. reflexivity. Qed.

Lemma takeWhile_dropWhile (p : N -> bool) (s : jsstring) :
  takeWhile p s ++ dropWhile p s = s.
Proof.
  induction s as [|c s IH]; simpl; [reflexivity|].
  destruct (p c); simpl; [rewrite IH|]; reflexivity.
Qed.

Lemma takeWhile_Forall (p : N -> bool) (s : jsstring) :
  Forall (fun c => p c = true) (takeWhile p s).
Proof.
  induction s as [|c s IH]; simpl; [constructor|].
  destruct (p c) eqn:E; constructor; assumption.
Qed.

Lemma dropWhile_head (p : N -> bool) (s : jsstring) :
  match dropWhile p s with
  | [] => True
  | c :: _ => p c = false
  end.
Proof.
  induction s as [|c s IH]; simpl; [exact I|].
  destruct (p c) eqn:E; [exact IH | exact E].
Qed.

Lemma dropWhile_app_all (p : N -> bool) (w s : jsstring) :
  Forall (fun c => p c = true) w -> dropWhile p (w ++ s) = dropWhile p s.
Proof.
  induction 1 as [|c w Hc _ IH]; simpl; [reflexivity|].
  rewrite Hc. exact IH.
Qed.

Lemma takeWhile_app_all (p : N -> bool) (w s : jsstring) :
  Forall (fun c => p c = true) w ->
  takeWhile p (w ++ s) = w ++ takeWhile p s.
Proof.
  induction 1 as [|c w Hc _ IH]; simpl; [reflexivity|].
  rewrite Hc, IH. reflexivity.
Qed.

Lemma dropWhile_idem (p : N -> bool) (s : jsstring) :
  dropWhile p (dropWhile p s) = dropWhile p s.
Proof.
  induction s as [|c s IH]; simpl; [reflexivity|].
  destruct (p c) eqn:E; [exact IH|]. simpl. rewrite E. reflexivity.
Qed.

(** ** The counter monad *)

Lemma bind_Some {A B : Type} (m : M A) (k : A -> M B) st b st' :
  bind m k st = Some (b, st') ->
  exists a st1, m st = Some (a, st1) /\ k a st1 = Some (b, st').
Proof.
  unfold bind. destruct (m st) as [[a st1]|]; [|discriminate].
  intros H. exists a, st1. split; [reflexivity | exact H].
Qed.

Lemma ret_Some {A : Type} (a : A) st b st' :
  ret a st = Some (b, st') -> b = a /\ st' = st.
Proof. unfold ret. intros H; injection H as <- <-. split; reflexivity. Qed.

Section StepsLemmas.
Variable R : BlankCounter -> BlankCounter -> Prop.
Hypothesis R_refl : forall st, R st st.
Hypothesis R_trans : forall a b c, R a b -> R b c -> R a c.

Lemma Steps_ret {A : Type} (a : A) : Steps R (ret a).
Proof. intros st b st' H. apply ret_Some in H as [_ ->]. apply R_refl. Qed.

Lemma Steps_bind {A B : Type} (m : M A) (k : A -> M B) :
  Steps R m -> (forall a, Steps R (k a)) -> Steps R (bind m k).
Proof.
  intros Hm Hk st b st' H.
  apply bind_Some in H as (a & st1 & H1 & H2).
  eapply R_trans; [eapply Hm | eapply Hk]; eassumption.
Qed.

Lemma Steps_mapM {A B : Type} (f : A -> M B) (l : list A) :
  (forall x, In x l -> Steps R (f x)) -> Steps R (mapM f l).
Proof.
  induction l as [|x l IH]; intros Hf; simpl.
  - apply Steps_ret.
  - apply Steps_bind; [apply Hf; left; reflexivity|].
    intros y. apply Steps_bind.
    + apply IH. intros z Hz. apply Hf. right. exact Hz.
    + intros ys. apply Steps_ret.
Qed.

Lemma Steps_mapJoin {A : Type} (f : A -> M jsstring) (l : list A) :
  (forall x, In x l -> Steps R (f x)) -> Steps R (mapJoin f l).
Proof.
  intros Hf. unfold mapJoin. apply Steps_bind.
  - apply Steps_mapM. exact Hf.
  - intros parts. apply Steps_ret.
Qed.

Lemma Steps_mapiM_from {A B : Type} (f : A -> nat -> M B) (l : list A) :
  (forall x i, In x l -> Steps R (f x i)) ->
  forall i, Steps R (mapiM_from i f l).
Proof.
  induction l as [|x l IH]; intros Hf i; simpl.
  - apply Steps_ret.
  - apply Steps_bind; [apply Hf; left; reflexivity|].
    intros y. apply Steps_bind.
    + apply IH. intros z j Hz. apply Hf. right. exact Hz.
    + intros ys. apply Steps_ret.
Qed.

Section Cases.
Variable render : Node -> bool -> bool -> M jsstring.
Variable options : ScoringRenderOptions.
Hypothesis render_steps : forall n a b, Steps R (render n a b).

Lemma Steps_renderPre (el : Node) : Steps R (renderPre render options el).
Proof.
  unfold renderPre. apply Steps_bind.
  - unfold mapiM. apply Steps_mapiM_from. intros x i _.
    unfold renderPreChild. destruct (isCodeElement x).
    + unfold renderCodeInPre. apply Steps_bind.
      * apply Steps_mapJoin. intros; apply render_steps.
      * intros; apply Steps_ret.
    + apply render_steps.
  - intros; apply Steps_ret.
Qed.

Lemma Steps_renderChoiceInteraction (el : Node) :
  Steps R (renderChoiceInteraction render options el).
Proof.
  unfold renderChoiceInteraction. apply Steps_bind.
  - apply Steps_mapJoin. intros x _. unfold renderChoice.
    apply Steps_bind.
    + apply Steps_mapJoin. intros; apply render_steps.
    + intros; apply Steps_ret.
  - intros; apply Steps_ret.
Qed.
End Cases.

Hypothesis R_blank : forall options el,
    Steps R (idx <- preIncrement ;; callBlankRenderer options el idx).

(** Whatever [R] the rule for a blank respects, the renderer respects. *)
Lemma Steps_renderNodeForScoring fuel :
  forall node options inPre preserveWhitespace,
    Steps R (renderNodeForScoring fuel node options inPre
                                  preserveWhitespace).
Proof.
  induction fuel as [|fuel IH]; intros node options inPre pw.
  - intros st a st' H. discriminate H.
  - destruct node as [t data | q name attrs children].
    + cbn [renderNodeForScoring].
      repeat lazymatch goal with
             | |- Steps _ (if ?c then _ else _) => destruct c
             end; apply Steps_ret.
    + assert (Hch : forall a b,
                 Steps R (mapJoin (fun child =>
                   renderNodeForScoring fuel child options a b) children)).
      { intros a b. apply Steps_mapJoin. intros; apply IH. }
      cbn [renderNodeForScoring].
      repeat lazymatch goal with
             | |- Steps _ (if ?c then _ else _) => destruct c
             end;
        try apply Steps_ret;
        try apply R_blank;
        try apply Hch;
        try (apply Steps_bind; [apply Hch | intros; apply Steps_ret]).
      * apply Steps_renderPre. intros; apply IH.
      * apply Steps_renderChoiceInteraction. intros; apply IH.
Qed.
End StepsLemmas.

(** *** The indices handed to the blank renderer are consecutive *)

Lemma Counts_refl st : Counts st st.
Proof.
  exists 0. split; [lia|]. simpl. rewrite app_nil_r. reflexivity.
Qed.

Lemma Counts_trans a b c : Counts a b -> Counts b c -> Counts a c.
Proof.
  intros (k1 & Hv1 & Hi1) (k2 & Hv2 & Hi2). exists (k1 + k2). split; [lia|].
  rewrite Hi2, Hi1, Hv1, <- app_assoc. f_equal.
  rewrite seq_app. f_equal.
Qed.

Lemma Counts_blank options el :
  Steps Counts (idx <- preIncrement ;; callBlankRenderer options el idx).
Proof.
  intros st a st' H. unfold bind, preIncrement, callBlankRenderer in H.
  injection H as _ <-. exists 1. simpl. split; [lia|].
  rewrite map_app. reflexivity.
Qed.

Lemma renderNodeForScoring_Counts fuel node options inPre preserveWhitespace :
  Steps Counts
        (renderNodeForScoring fuel node options inPre preserveWhitespace).
Proof.
  apply Steps_renderNodeForScoring.
  - exact Counts_refl.
  - exact Counts_trans.
  - exact Counts_blank.
Qed.

Lemma renderNodesForScoring_Counts parent nodes options :
  Steps Counts (renderNodesForScoring parent nodes options).
Proof.
  unfold renderNodesForScoring. apply Steps_mapJoin.
  - exact Counts_refl.
  - exact Counts_trans.
  - intros x _. apply renderNodeForScoring_Counts.
Qed.

(** Started on a fresh counter, a run hands out exactly [1..K]. *)
Lemma Counts_from_new st' :
  Counts newBlankCounter st' ->
  map fst (issued st') = seq 1 (length (issued st')) /\
  value st' = length (issued st').
Proof.
  intros (k & Hv & Hi). simpl in Hv, Hi.
  assert (Hl : length (issued st') = k).
  { rewrite <- (length_map fst), Hi, length_seq. reflexivity. }
  rewrite Hl. split; [exact Hi | exact Hv].
Qed.

(** *** Enough fuel *)

Lemma height_child q name attrs children c :
  In c children -> height c < height (Element q name attrs children).
Proof.
  intros Hin. simpl. apply Nat.lt_succ_r.
  induction children as [|x l IH]; [destruct Hin|].
  simpl. destruct Hin as [-> | Hin]; [lia|]. specialize (IH Hin). lia.
Qed.

(** Induction on the tree: a property of the children gives it for the
    element. *)
Lemma Node_induction (P : Node -> Prop) :
  (forall t d, P (CharacterData t d)) ->
  (forall q l a children,
      (forall c, In c children -> P c) -> P (Element q l a children)) ->
  forall n, P n.
Proof.
  intros Hc He n. remember (height n) as h eqn:Hh. revert n Hh.
  induction h as [h IH] using lt_wf_ind. intros n ->.
  destruct n as [t d | q l a children]; [apply Hc|].
  apply He. intros c Hin.
  exact (IH (height c) (height_child q l a children c Hin) c eq_refl).
Qed.

Lemma height_childNodes n c : In c (childNodes n) -> height c < height n.
Proof.
  destruct n as [t d | q name attrs children]; simpl childNodes.
  - intros [].
  - apply height_child.
Qed.

Lemma descendants_children n d :
  In d (descendants n) <->
  exists c, In c (childNodes n) /\ (d = c \/ In d (descendants c)).
Proof.
  destruct n as [t dt | q name attrs children]; simpl.
  - split; [intros [] | intros (c & [] & _)].
  - rewrite in_flat_map. split.
    + intros (c & Hc & [<- | Hd]); exists c; auto.
    + intros (c & Hc & [-> | Hd]); exists c; simpl; auto.
Qed.

Lemma height_descendant n : forall d, In d (descendants n) -> height d < height n.
Proof.
  remember (height n) as h eqn:Hh.
  revert n Hh. induction h as [h IH] using lt_wf_ind. intros n -> d Hd.
  apply descendants_children in Hd as (c & Hc & Hd).
  pose proof (height_childNodes n c Hc) as Hlt.
  destruct Hd as [-> | Hd]; [exact Hlt|].
  specialize (IH (height c) Hlt c eq_refl d Hd). lia.
Qed.

Lemma getElementsByLocalName_descendants root name x :
  In x (getElementsByLocalName root name) -> In x (descendants root).
Proof.
  unfold getElementsByLocalName, getElementsByTagNameNS_any,
    getElementsByTagName.
  destruct (0 <? _); intros H; apply filter_In in H; apply H.
Qed.

Section TotalLemmas.
Lemma Total_ret {A : Type} (a : A) : Total (ret a).
Proof. intros st. exists a, st. reflexivity. Qed.

Lemma Total_bind {A B : Type} (m : M A) (k : A -> M B) :
  Total m -> (forall a, Total (k a)) -> Total (bind m k).
Proof.
  intros Hm Hk st. destruct (Hm st) as (a & st1 & H1).
  destruct (Hk a st1) as (b & st2 & H2). exists b, st2.
  unfold bind. rewrite H1. exact H2.
Qed.

Lemma Total_mapM {A B : Type} (f : A -> M B) (l : list A) :
  (forall x, In x l -> Total (f x)) -> Total (mapM f l).
Proof.
  induction l as [|x l IH]; intros Hf; simpl.
  - apply Total_ret.
  - apply Total_bind; [apply Hf; left; reflexivity|].
    intros y. apply Total_bind.
    + apply IH. intros z Hz. apply Hf. right. exact Hz.
    + intros ys. apply Total_ret.
Qed.

Lemma Total_mapJoin {A : Type} (f : A -> M jsstring) (l : list A) :
  (forall x, In x l -> Total (f x)) -> Total (mapJoin f l).
Proof.
  intros Hf. unfold mapJoin. apply Total_bind.
  - apply Total_mapM. exact Hf.
  - intros parts. apply Total_ret.
Qed.

Lemma Total_mapiM_from {A B : Type} (f : A -> nat -> M B) (l : list A) :
  (forall x i, In x l -> Total (f x i)) ->
  forall i, Total (mapiM_from i f l).
Proof.
  induction l as [|x l IH]; intros Hf i; simpl.
  - apply Total_ret.
  - apply Total_bind; [apply Hf; left; reflexivity|].
    intros y. apply Total_bind.
    + apply IH. intros z j Hz. apply Hf. right. exact Hz.
    + intros ys. apply Total_ret.
Qed.
End TotalLemmas.

Lemma significantNodes_In children x :
  In x (significantNodes children) -> In x children.
Proof. unfold significantNodes. intros H. apply filter_In in H. apply H. Qed.

Lemma Total_blank options el :
  Total (idx <- preIncrement ;; callBlankRenderer options el idx).
Proof. intros st. eexists _, _. reflexivity. Qed.

(** The renderer returns whenever its fuel exceeds the height of the node. *)
Lemma renderNodeForScoring_total fuel :
  forall node options inPre preserveWhitespace,
    height node < fuel ->
    Total (renderNodeForScoring fuel node options inPre preserveWhitespace).
Proof.
  induction fuel as [|fuel IH]; intros node options inPre pw Hh; [lia|].
  destruct node as [t data | q name attrs children].
  - cbn [renderNodeForScoring].
    repeat lazymatch goal with
           | |- Total (if ?c then _ else _) => destruct c
           end; apply Total_ret.
  - assert (Hchild : forall c a b, In c children ->
               Total (renderNodeForScoring fuel c options a b)).
    { intros c a b Hc. apply IH.
      pose proof (height_child q name attrs children c Hc). lia. }
    assert (Hch : forall a b,
               Total (mapJoin (fun child =>
                 renderNodeForScoring fuel child options a b) children)).
    { intros a b. apply Total_mapJoin. intros; apply Hchild; assumption. }
    cbn [renderNodeForScoring].
    repeat lazymatch goal with
           | |- Total (if ?c then _ else _) => destruct c
           end;
      try apply Total_ret;
      try apply Total_blank;
      try apply Hch;
      try (apply Total_bind; [apply Hch | intros; apply Total_ret]).
    + unfold renderPre. apply Total_bind; [|intros; apply Total_ret].
      apply Total_mapiM_from. intros x i Hx.
      apply significantNodes_In in Hx. simpl in Hx.
      unfold renderPreChild. destruct (isCodeElement x).
      * unfold renderCodeInPre.
        apply Total_bind; [|intros; apply Total_ret].
        apply Total_mapJoin. intros y Hy. apply IH.
        pose proof (height_childNodes x y Hy).
        pose proof (height_child q name attrs children x Hx). lia.
      * apply Hchild. exact Hx.
    + unfold renderChoiceInteraction.
      apply Total_bind; [|intros; apply Total_ret].
      apply Total_mapJoin. intros x Hx. unfold renderChoice.
      apply Total_bind; [|intros; apply Total_ret].
      apply Total_mapJoin. intros y Hy. apply IH.
      apply getElementsByLocalName_descendants in Hx.
      apply height_descendant in Hx.
      pose proof (height_childNodes x y Hy). lia.
Qed.

Lemma renderNodesForScoring_total parent nodes options :
  (forall n, In n nodes -> In n (childNodes parent)) ->
  Total (renderNodesForScoring parent nodes options).
Proof.
  intros Hsub. unfold renderNodesForScoring. apply Total_mapJoin.
  intros x Hx. apply renderNodeForScoring_total.
  pose proof (height_childNodes parent x (Hsub x Hx)). lia.
Qed.

(** *** Which elements the blank renderer is called for *)











Lemma existsb_false_In {A : Type} (p : A -> bool) l :
  existsb p l = false -> forall x, In x l -> p x = false.
Proof.
  intros H x Hx. destruct (p x) eqn:E; [|reflexivity].
  rewrite <- H. symmetry. apply existsb_exists. exists x. auto.
Qed.









(** *** More fuel changes nothing *)

Lemma Refines_refl {A : Type} (m : M A) : Refines m m.
Proof. intros st r H. exact H. Qed.

Lemma Refines_bind {A B : Type} (m m' : M A) (k k' : A -> M B) :
  Refines m m' -> (forall a, Refines (k a) (k' a)) ->
  Refines (bind m k) (bind m' k').
Proof.
  intros Hm Hk st [b st'] H.
  apply bind_Some in H as (a & st1 & H1 & H2).
  unfold bind. rewrite (Hm _ _ H1). apply Hk. exact H2.
Qed.

Lemma Refines_mapM {A B : Type} (f f' : A -> M B) (l : list A) :
  (forall x, In x l -> Refines (f x) (f' x)) ->
  Refines (mapM f l) (mapM f' l).
Proof.
  induction l as [|x l IH]; intros Hf; simpl; [apply Refines_refl|].
  apply Refines_bind; [apply Hf; left; reflexivity|].
  intros y. apply Refines_bind; [|intros; apply Refines_refl].
  apply IH. intros z Hz. apply Hf. right. exact Hz.
Qed.

Lemma Refines_mapJoin {A : Type} (f f' : A -> M jsstring) (l : list A) :
  (forall x, In x l -> Refines (f x) (f' x)) ->
  Refines (mapJoin f l) (mapJoin f' l).
Proof.
  intros Hf. unfold mapJoin.
  apply Refines_bind; [apply Refines_mapM; exact Hf|].
  intros; apply Refines_refl.
Qed.

Lemma Refines_mapiM_from {A B : Type} (f f' : A -> nat -> M B) (l : list A) :
  (forall x i, In x l -> Refines (f x i) (f' x i)) ->
  forall i, Refines (mapiM_from i f l) (mapiM_from i f' l).
Proof.
  induction l as [|x l IH]; intros Hf i; simpl; [apply Refines_refl|].
  apply Refines_bind; [apply Hf; left; reflexivity|].
  intros y. apply Refines_bind; [|intros; apply Refines_refl].
  apply IH. intros z j Hz. apply Hf. right. exact Hz.
Qed.

(** A result obtained with some fuel is the result with any larger fuel:
    the fuel is not part of what is computed. *)
Lemma renderNodeForScoring_fuel_mono fuel :
  forall fuel' node options inPre preserveWhitespace,
    fuel <= fuel' ->
    Refines
      (renderNodeForScoring fuel node options inPre preserveWhitespace)
      (renderNodeForScoring fuel' node options inPre preserveWhitespace).
Proof.
  induction fuel as [|fuel IH]; intros fuel' node options inPre pw Hle.
  - intros st r H. discriminate H.
  - destruct fuel' as [|fuel']; [lia|].
    assert (Hrec : forall child a b,
               Refines (renderNodeForScoring fuel child options a b)
                       (renderNodeForScoring fuel' child options a b))
      by (intros; apply IH; lia).
    destruct node as [t data | q name attrs children];
      [apply Refines_refl|].
    assert (Hch : forall a b,
               Refines
                 (mapJoin (fun child =>
                    renderNodeForScoring fuel child options a b) children)
                 (mapJoin (fun child =>
                    renderNodeForScoring fuel' child options a b) children))
      by (intros; apply Refines_mapJoin; intros; apply Hrec).
    cbn [renderNodeForScoring].
    repeat lazymatch goal with
           | |- Refines (if ?c then _ else _) (if ?c then _ else _) =>
               destruct c
           end;
      try apply Refines_refl;
      try apply Hch;
      try (apply Refines_bind; [apply Hch | intros; apply Refines_refl]).
    + unfold renderPre.
      apply Refines_bind; [|intros; apply Refines_refl].
      unfold mapiM. apply Refines_mapiM_from. intros x i _.
      unfold renderPreChild. destruct (isCodeElement x); [|apply Hrec].
      unfold renderCodeInPre.
      apply Refines_bind; [|intros; apply Refines_refl].
      apply Refines_mapJoin. intros; apply Hrec.
    + unfold renderChoiceInteraction.
      apply Refines_bind; [|intros; apply Refines_refl].
      apply Refines_mapJoin. intros x _. unfold renderChoice.
      apply Refines_bind; [|intros; apply Refines_refl].
      apply Refines_mapJoin. intros; apply Hrec.
Qed.



Tactic Notation "name_is" hyp(E) :=
  apply jseqb_eq in E; subst.





(* ================================================================== *)
(** * Binary64 numbers: rounding to nearest, ties to even *)
(* ================================================================== *)

Section Binary64.
Local Open Scope N_scope.

Lemma pow2_pos s : 0 < 2 ^ s.
Proof. apply N.neq_0_lt_0. apply N.pow_nonzero. discriminate. Qed.

(** The leading 53 binary digits of a number. *)
Lemma leading_digits (w : N) :
let s := N.log2 w - 52 in
w / 2 ^ s < 2 ^ 53 /\ (0 < s -> 2 ^ 52 <= w / 2 ^ s).
Proof.
intros s. subst s.
destruct (N.eq_dec w 0) as [-> | Hw].
- cbn. split; [reflexivity | intros H; discriminate H].
- assert (Hpos : 0 < w) by lia.
  destruct (N.log2_spec w Hpos) as [Hlo Hhi].
  set (L := N.log2 w) in *.
  destruct (N.le_gt_cases L 52) as [Hle | Hgt].
  + replace (L - 52) with 0 by lia. rewrite N.pow_0_r, N.div_1_r.
    split; [|lia].
    apply N.lt_le_trans with (2 ^ N.succ L); [exact Hhi|].
    apply N.pow_le_mono_r; lia.
  + assert (HL : L = 52 + (L - 52)) by lia.
    set (s := L - 52) in *.
    assert (Hs : 0 < 2 ^ s) by apply pow2_pos.
    rewrite HL in Hlo. rewrite N.pow_add_r in Hlo.
    replace (N.succ L) with (53 + s) in Hhi by lia.
    rewrite N.pow_add_r in Hhi.
    split.
    * apply N.Div0.div_lt_upper_bound. lia.
    * intros _. apply N.div_le_lower_bound; lia.
Qed.

(** No binary64 value lies strictly between two neighbours of the grid. *)
Lemma grid_neighbours (s q k : N) :
(s = 0 \/ 2 ^ 52 <= q) ->
(exists m j, k = m * 2 ^ j /\ m < 2 ^ 53) ->
k <= q * 2 ^ s \/ (q + 1) * 2 ^ s <= k.
Proof.
intros Hq (m & j & -> & Hm).
destruct (N.le_gt_cases s j) as [Hsj | Hjs].
- replace j with ((j - s) + s) by lia. rewrite N.pow_add_r, N.mul_assoc.
  pose proof (pow2_pos s).
  destruct (N.le_gt_cases (m * 2 ^ (j - s)) q) as [Hle | Hgt].
  + left. apply N.mul_le_mono_r. exact Hle.
  + right. apply N.mul_le_mono_r. lia.
- left. destruct Hq as [-> | Hq]; [lia|].
  assert (Hs : s = N.succ j + (s - N.succ j)) by lia.
  rewrite Hs. set (t := s - N.succ j).
  rewrite N.pow_add_r, N.pow_succ_r'.
  pose proof (pow2_pos j). pose proof (pow2_pos t).
  assert (m * 2 ^ j <= 2 ^ 53 * 2 ^ j) by (apply N.mul_le_mono_r; lia).
  assert (2 ^ 52 * (2 * 2 ^ j) * 1 <= q * (2 * 2 ^ j) * 2 ^ t).
  { apply N.mul_le_mono; [|lia]. apply N.mul_le_mono_r. exact Hq. }
  change (2 ^ 53) with (2 ^ 52 * 2) in H1. lia.
Qed.

(** What [roundToNearestEven] computes: the grid, the neighbour below, the
  rest, and the neighbour that is chosen. *)
Lemma roundToNearestEven_cases (n d : N) :
d <> 0 ->
exists s q r m,
  (s = 0 \/ 2 ^ 52 <= q) /\ q < 2 ^ 53
  /\ n = q * (d * 2 ^ s) + r /\ r < d * 2 ^ s
  /\ ((m = q /\ 2 * r <= d * 2 ^ s
       /\ (2 * r = d * 2 ^ s -> N.even q = true))
      \/ (m = q + 1 /\ d * 2 ^ s <= 2 * r
          /\ (2 * r = d * 2 ^ s -> N.even q = false)))
  /\ roundToNearestEven n d
     = if m * 2 ^ s <? 2 ^ 2098 then Finite (m * 2 ^ s) else Infinity.
Proof.
intros Hd. unfold roundToNearestEven.
set (s := N.log2 (n / d) - 52).
set (step := d * 2 ^ s).
assert (Hstep : step <> 0).
{ unfold step. pose proof (pow2_pos s). nia. }
set (q := n / step). set (r := n mod step).
destruct (leading_digits (n / d)) as [Hhi Hlo]. fold s in Hhi, Hlo.
assert (Hq : q = n / d / 2 ^ s).
{ unfold q, step. rewrite N.Div0.div_div. reflexivity. }
rewrite <- Hq in Hhi, Hlo.
exists s, q, r.
assert (Hgrid : s = 0 \/ 2 ^ 52 <= q).
{ destruct (N.eq_dec s 0) as [-> | Hs]; [left; reflexivity|].
  right. apply Hlo. lia. }
assert (Hdiv : n = q * step + r).
{ unfold q, r. rewrite N.mul_comm. apply N.Div0.div_mod. }
assert (Hr : r < step) by (unfold r; apply N.mod_lt; exact Hstep).
destruct (2 * r <? step) eqn:H1.
- apply N.ltb_lt in H1. exists q. repeat split; try assumption.
  left. repeat split; lia.
- apply N.ltb_ge in H1. destruct (step <? 2 * r) eqn:H2.
  + apply N.ltb_lt in H2. exists (q + 1). repeat split; try assumption.
    right. repeat split; lia.
  + apply N.ltb_ge in H2. destruct (N.even q) eqn:Heven.
    * exists q. repeat split; try assumption.
      left. repeat split; try lia. 
    * exists (q + 1). repeat split; try assumption.
      right. repeat split; try lia.
Qed.

Lemma roundToNearestEven_binary64 (n d k : N) :
d <> 0 -> roundToNearestEven n d = Finite k -> isBinary64 k.
Proof.
intros Hd Hk.
destruct (roundToNearestEven_cases n d Hd)
  as (s & q & r & m & Hgrid & Hq & _ & _ & Hm & Hround).
rewrite Hround in Hk.
destruct (m * 2 ^ s <? 2 ^ 2098) eqn:Hlt; [|discriminate Hk].
injection Hk as <-. apply N.ltb_lt in Hlt. split; [exact Hlt|].
destruct (N.eq_dec m (2 ^ 53)) as [-> | Hne].
- exists (2 ^ 52), (N.succ s). split; [|reflexivity].
  rewrite N.pow_succ_r'. change (2 ^ 53) with (2 ^ 52 * 2). lia.
- exists m, s. split; [reflexivity|].
  destruct Hm as [(-> & _) | (-> & _)]; lia.
Qed.

Lemma roundToNearestEven_nearest (n d k k' : N) :
d <> 0 -> roundToNearestEven n d = Finite k ->
(exists m j, k' = m * 2 ^ j /\ m < 2 ^ 53) ->
(distanceInUnits n d k <= distanceInUnits n d k')%Z
/\ (distanceInUnits n d k = distanceInUnits n d k' -> k' <> k ->
    exists s m, k = m * 2 ^ s /\ (s = 0 \/ 2 ^ 52 <= m) /\ m <= 2 ^ 53
                /\ N.even m = true).
Proof.
intros Hd Hk Hrep.
destruct (roundToNearestEven_cases n d Hd)
  as (s & q & r & m & Hgrid & Hq & Hn & Hr & Hm & Hround).
rewrite Hround in Hk.
destruct (m * 2 ^ s <? 2 ^ 2098); [|discriminate Hk].
injection Hk as <-.
pose proof (grid_neighbours s q k' Hgrid Hrep) as Hk'.
pose proof (pow2_pos s) as Hs.
unfold distanceInUnits.
set (g := 2 ^ s) in *.
assert (Hbelow : k' <= q * g ->
                 (Z.of_N k' * Z.of_N d - Z.of_N n
                  <= - Z.of_N r)%Z) by nia.
assert (Hbelow' : k' < q * g ->
                  (Z.of_N k' * Z.of_N d - Z.of_N n
                   < - Z.of_N r)%Z) by nia.
assert (Habove : (q + 1) * g <= k' ->
                 (Z.of_N (d * g) - Z.of_N r
                  <= Z.of_N k' * Z.of_N d - Z.of_N n)%Z) by nia.
assert (Habove' : (q + 1) * g < k' ->
                  (Z.of_N (d * g) - Z.of_N r
                   < Z.of_N k' * Z.of_N d - Z.of_N n)%Z) by nia.
destruct Hm as [(-> & Hhalf & Heven) | (-> & Hhalf & Hodd)].
- assert (Hdist : (Z.of_N (q * g) * Z.of_N d - Z.of_N n = - Z.of_N r)%Z)
    by nia.
  rewrite Hdist. split.
  + destruct Hk' as [Hk' | Hk']; [specialize (Hbelow Hk') |
                                  specialize (Habove Hk')]; lia.
  + intros Heq Hne. exists s, q.
    split; [reflexivity|]. split; [exact Hgrid|]. split; [lia|].
    apply Heven. destruct Hk' as [Hk' | Hk'].
    * assert (Hlt : k' < q * g) by lia. specialize (Hbelow' Hlt). lia.
    * specialize (Habove Hk'). lia.
- assert (Hdist : (Z.of_N ((q + 1) * g) * Z.of_N d - Z.of_N n
                   = Z.of_N (d * g) - Z.of_N r)%Z) by nia.
  rewrite Hdist. split.
  + destruct Hk' as [Hk' | Hk']; [specialize (Hbelow Hk') |
                                  specialize (Habove Hk')]; lia.
  + intros Heq Hne. exists s, (q + 1).
    split; [reflexivity|].
    split; [destruct Hgrid; [left | right]; lia|]. split; [lia|].
    assert (Htie : 2 * r = d * g).
    { destruct Hk' as [Hk' | Hk'].
      - specialize (Hbelow Hk'). lia.
      - assert (Hlt : (q + 1) * g < k') by lia.
        specialize (Habove' Hlt). lia. }
    specialize (Hodd Htie).
    rewrite N.add_1_r, N.even_succ, <- N.negb_even, Hodd. reflexivity.
Qed.



(** Overflow: the result is [Infinity] from 2^1024 - 2^970 on, the middle
  between the greatest binary64 value and 2^1024. *)
Lemma roundToNearestEven_overflow (n d : N) :
d <> 0 ->
match roundToNearestEven n d with
| Finite _ => 2 * n < (2 ^ 2099 - 2 ^ 2045) * d
| Infinity => (2 ^ 2099 - 2 ^ 2045) * d <= 2 * n
end.
Proof.
intros Hd.
destruct (roundToNearestEven_cases n d Hd)
  as (s & q & r & m & Hgrid & Hq & Hn & Hr & Hm & Hround).
rewrite Hround. clear Hround.
pose proof (pow2_pos s) as Hs.
assert (Hsplit : 2 ^ 2099 - 2 ^ 2045 = (2 ^ 54 - 1) * 2 ^ 2045)
  by (vm_compute; reflexivity).
assert (Htop : 2 ^ 2098 = 2 ^ 53 * 2 ^ 2045) by (vm_compute; reflexivity).
rewrite Hsplit, Htop. clear Hsplit Htop.
set (top := 2 ^ 2045).
assert (Htoppos : 0 < top) by apply pow2_pos.
destruct (N.lt_trichotomy s 2045) as [Hlt | [Heq | Hgt]].
- (* below the last binade *)
  assert (Hle : 2 * 2 ^ s <= top).
  { unfold top. rewrite <- N.pow_succ_r'. apply N.pow_le_mono_r; lia. }
  assert (Hm53 : m <= 2 ^ 53) by (destruct Hm as [(-> & _) | (-> & _)]; lia).
  assert (Hfin : m * 2 ^ s < 2 ^ 53 * top).
  { apply N.le_lt_trans with (2 ^ 53 * 2 ^ s);
      [apply N.mul_le_mono_r; exact Hm53|].
    apply N.mul_lt_mono_pos_l; [reflexivity | lia]. }
  apply N.ltb_lt in Hfin. rewrite Hfin.
  assert (Hn' : n < 2 ^ 53 * (d * 2 ^ s)).
  { rewrite Hn. apply N.lt_le_trans with ((q + 1) * (d * 2 ^ s)); [lia|].
    apply N.mul_le_mono_r. lia. }
  assert (H2 : 2 * (2 ^ 53 * (d * 2 ^ s)) <= 2 ^ 53 * top * d).
  { replace (2 * (2 ^ 53 * (d * 2 ^ s))) with (2 ^ 53 * (2 * 2 ^ s) * d)
      by lia.
    apply N.mul_le_mono_r. apply N.mul_le_mono_l. exact Hle. }
  change (2 ^ 54 - 1) with (2 ^ 53 + (2 ^ 53 - 1)).
  rewrite !N.mul_add_distr_r. lia.
- (* the last binade *)
  subst s. fold top in Hn, Hr, Hm, Hs |- *.
  destruct (m * top <? 2 ^ 53 * top) eqn:Hfin.
  + apply N.ltb_lt in Hfin.
    assert (Hm53 : m < 2 ^ 53)
      by (apply (N.mul_lt_mono_pos_r top); assumption).
    change (2 ^ 54 - 1) with (2 * (2 ^ 53 - 1) + 1).
    destruct Hm as [(-> & Hhalf & Heven) | (-> & Hhalf & _)].
    * destruct (N.eq_dec q (2 ^ 53 - 1)) as [-> | Hne].
      -- assert (Hstrict : 2 * r <> d * top).
         { intros Htie. apply Heven in Htie. discriminate Htie. }
         nia.
      -- assert (Hq' : q + 1 <= 2 ^ 53 - 1) by lia.
         assert (Hb : (q + 1) * (d * top) <= (2 ^ 53 - 1) * (d * top))
           by (apply N.mul_le_mono_r; exact Hq').
         nia.
    * assert (Hq' : q + 1 + 1 <= 2 ^ 53) by lia.
      assert (Hb : (q + 1 + 1) * (d * top) <= 2 ^ 53 * (d * top))
        by (apply N.mul_le_mono_r; exact Hq').
      change (2 ^ 53) with (2 ^ 53 - 1 + 1) in Hb. nia.
  + apply N.ltb_ge in Hfin.
    assert (Hm53 : 2 ^ 53 <= m)
      by (apply (N.mul_le_mono_pos_r _ _ top); assumption).
    destruct Hm as [(-> & _) | (-> & Hhalf & _)]; [lia|].
    assert (Hq' : q = 2 ^ 53 - 1) by lia. subst q.
    change (2 ^ 54 - 1) with (2 * (2 ^ 53 - 1) + 1). nia.
- (* beyond *)
  assert (Hq52 : 2 ^ 52 <= q) by (destruct Hgrid; [lia | assumption]).
  assert (Hle : 2 * top <= 2 ^ s).
  { unfold top. rewrite <- N.pow_succ_r'. apply N.pow_le_mono_r; lia. }
  assert (Hm52 : 2 ^ 52 <= m) by (destruct Hm as [(-> & _) | (-> & _)]; lia).
  assert (Hinf : 2 ^ 53 * top <= m * 2 ^ s).
  { change (2 ^ 53) with (2 ^ 52 * 2).
    rewrite <- N.mul_assoc. apply N.mul_le_mono; assumption. }
  apply N.ltb_ge in Hinf. rewrite Hinf.
  assert (Hb : 2 ^ 52 * (d * (2 * top)) <= q * (d * 2 ^ s)).
  { apply N.mul_le_mono; [exact Hq52|]. apply N.mul_le_mono_l. exact Hle. }
  change (2 ^ 54 - 1) with (2 * 2 ^ 53 - 1).
  change (2 ^ 53) with (2 ^ 52 * 2). nia.
Qed.

Lemma roundToNearestEven_isNumber (n d : N) :
d <> 0 -> isNumber (roundToNearestEven n d).
Proof.
intros Hd. destruct (roundToNearestEven n d) as [k|] eqn:Hk; [|exact I].
exact (roundToNearestEven_binary64 n d k Hd Hk).
Qed.

(** Rounding is monotone: it does not fall below a binary64 value that the
  rational is not below. *)
Lemma roundToNearestEven_above (n d a : N) :
d <> 0 -> isBinary64 a -> a * d <= n ->
numberLe (Finite a) (roundToNearestEven n d).
Proof.
intros Hd [_ Ha] Hle.
destruct (roundToNearestEven_cases n d Hd)
  as (s & q & r & m & Hgrid & Hq & Hn & Hr & Hm & Hround).
rewrite Hround. destruct (m * 2 ^ s <? 2 ^ 2098); [|exact I].
cbn [numberLe].
pose proof (pow2_pos s) as Hs.
assert (Hqm : q * 2 ^ s <= m * 2 ^ s).
{ apply N.mul_le_mono_r. destruct Hm as [(-> & _) | (-> & _)]; lia. }
destruct (grid_neighbours s q a Hgrid Ha) as [Hbelow | Habove]; [lia|].
exfalso. set (g := 2 ^ s) in *. nia.
Qed.

(** The greatest binary64 value. *)
Lemma isBinary64_max (k : N) : isBinary64 k -> k <= (2 ^ 53 - 1) * 2 ^ 2045.
Proof.
intros [Hlt Hrep].
destruct (grid_neighbours 2045 (2 ^ 53 - 1) k) as [H | H];
  [right; vm_compute; discriminate | exact Hrep | exact H |].
exfalso. apply (N.lt_irrefl k).
apply N.lt_le_trans with (2 ^ 2098); [exact Hlt|].
apply N.le_trans with ((2 ^ 53 - 1 + 1) * 2 ^ 2045); [|exact H].
vm_compute. discriminate.
Qed.

(** A binary64 value is its own rounding. *)
Lemma roundToNearestEven_exact (k : N) :
isBinary64 k -> roundToNearestEven k 1 = Finite k.
Proof.
intros Hk. assert (H1 : 1 <> 0) by discriminate.
pose proof (roundToNearestEven_overflow k 1 H1) as Hover.
destruct (roundToNearestEven k 1) as [k0|] eqn:Hround.
- destruct Hk as [_ Hrep].
  destruct (roundToNearestEven_nearest k 1 k0 k H1 Hround Hrep) as [Hd _].
  unfold distanceInUnits in Hd. f_equal. lia.
- exfalso. apply isBinary64_max in Hk.
  assert (Hc : (2 ^ 2099 - 2 ^ 2045) * 1 <= 2 * ((2 ^ 53 - 1) * 2 ^ 2045))
    by lia.
  vm_compute in Hc. apply Hc. reflexivity.
Qed.

Lemma numberAdd_isNumber (a b : number) : isNumber (numberAdd a b).
Proof.
destruct a as [x|], b as [y|]; try exact I.
apply roundToNearestEven_isNumber. discriminate.
Qed.

Lemma numberAdd_le_l (a b : number) :
isNumber a -> numberLe a (numberAdd a b).
Proof.
destruct a as [x|], b as [y|]; intros Ha; try exact I.
apply roundToNearestEven_above; [discriminate | exact Ha | lia].
Qed.

Lemma numberAdd_le_r (a b : number) :
isNumber b -> numberLe b (numberAdd a b).
Proof.
destruct a as [x|], b as [y|]; intros Hb; try exact I.
apply roundToNearestEven_above; [discriminate | exact Hb | lia].
Qed.

Lemma numberLe_refl (a : number) : numberLe a a.
Proof. destruct a; cbn; [lia | exact I]. Qed.

Lemma numberLe_trans (a b c : number) :
numberLe a b -> numberLe b c -> numberLe a c.
Proof. destruct a, b, c; cbn; try tauto; lia. Qed.

Lemma wholeNumber_isNumber (n : N) : n < 2 ^ 53 -> isNumber (wholeNumber n).
Proof.
intros Hn. split; [|exists n, 1074; split; [reflexivity | exact Hn]].
change (2 ^ 2098) with (2 ^ 1024 * 2 ^ 1074).
apply N.mul_lt_mono_pos_r; [apply pow2_pos|].
apply N.lt_trans with (2 ^ 53); [exact Hn | reflexivity].
Qed.

(** Whole numbers add exactly as long as the sum keeps below 2^53. *)
Lemma numberAdd_wholeNumber (a b : N) :
a + b < 2 ^ 53 ->
numberAdd (wholeNumber a) (wholeNumber b) = wholeNumber (a + b).
Proof.
intros Hsum. unfold numberAdd, wholeNumber.
rewrite <- N.mul_add_distr_r.
apply roundToNearestEven_exact. exact (wholeNumber_isNumber _ Hsum).
Qed.


End Binary64.



(* ================================================================== *)
(** * The scoring render: blank numbering, explanation, identifier *)
(* ================================================================== *)

Lemma explanationNodes_In contentBody n :
  In n (explanationNodes contentBody) -> In n (childNodes contentBody).
Proof. unfold explanationNodes. intros H. apply filter_In in H. apply H. Qed.

(** The item body is rendered on a fresh counter and hands out [1..K]. *)
Lemma prompt_run itemBody options :
  exists promptHtml st,
    renderNodesForScoring itemBody (childNodes itemBody) options
                          newBlankCounter = Some (promptHtml, st)
    /\ map fst (issued st) = seq 1 (length (issued st)).
Proof.
  destruct (renderNodesForScoring_total itemBody (childNodes itemBody) options
              (fun n H => H) newBlankCounter) as (html & st & Hrun).
  exists html, st. split; [exact Hrun|].
  apply Counts_from_new.
  exact (renderNodesForScoring_Counts _ _ _ _ _ _ Hrun).
Qed.

Lemma explanation_run contentBody options :
  exists html st,
    renderNodesForScoring contentBody (explanationNodes contentBody) options
                          newBlankCounter = Some (html, st)
    /\ map fst (issued st) = seq 1 (length (issued st)).
Proof.
  destruct (renderNodesForScoring_total contentBody
              (explanationNodes contentBody) options
              (explanationNodes_In contentBody) newBlankCounter)
    as (html & st & Hrun).
  exists html, st. split; [exact Hrun|].
  apply Counts_from_new.
  exact (renderNodesForScoring_Counts _ _ _ _ _ _ Hrun).
Qed.

Lemma parseCandidateExplanation_returns root options :
  exists r, parseCandidateExplanation root options = Some r.
Proof.
  unfold parseCandidateExplanation.
  destruct (findExplanationFeedback root) as [fb|]; [|eexists; reflexivity].
  destruct (nth_error _ 0) as [cb|]; [|eexists; reflexivity].
  destruct (explanation_run cb options) as (html & st & -> & _).
  eexists; reflexivity.
Qed.

(** The scoring entry point never runs out of fuel. *)
Lemma renderQtiItemForScoring_fuel parseXml xml options :
  renderQtiItemForScoring parseXml xml options <> FuelExhausted.
Proof.
  unfold renderQtiItemForScoring.
  destruct (documentElement (parseXml xml)) as [root|]; [|discriminate].
  destruct (nodeName root =?s _); [discriminate|].
  destruct (nth_error _ 0) as [itemBody|]; [|discriminate].
  destruct (prompt_run itemBody (resolveScoringOptions options))
    as (html & st & -> & _).
  destruct (parseCandidateExplanation_returns root
              (resolveScoringOptions options)) as (r & ->).
  discriminate.
Qed.

(** For a parsed document with an item body the entry point returns, and
    its fields are the ones the source computes. *)
Lemma renderQtiItemForScoring_ok parseXml xml options root itemBody :
  documentElement (parseXml xml) = Some root ->
  (nodeName root =?s lit "parsererror") = false ->
  nth_error (getElementsByLocalName root (lit "qti-item-body")) 0
  = Some itemBody ->
  exists parsed st,
    renderQtiItemForScoring parseXml xml options = Ok parsed
    /\ renderNodesForScoring itemBody (childNodes itemBody)
         (resolveScoringOptions options) newBlankCounter
       = Some (promptHtml parsed, st)
    /\ identifier parsed = orElse (getAttribute root (lit "identifier")) []
    /\ title parsed = orElse (getAttribute root (lit "title"))
                             (identifier parsed)
    /\ parseCandidateExplanation root (resolveScoringOptions options)
       = Some (candidateExplanationHtml parsed).
Proof.
  intros Hroot Hname Hbody. unfold renderQtiItemForScoring.
  rewrite Hroot, Hname, Hbody.
  destruct (prompt_run itemBody (resolveScoringOptions options))
    as (html & st & Hrun & _).
  destruct (parseCandidateExplanation_returns root
              (resolveScoringOptions options)) as (r & Hr).
  rewrite Hrun, Hr. eexists _, st. split; [reflexivity|].
  cbn [promptHtml identifier title candidateExplanationHtml].
  repeat split; reflexivity.
Qed.


(** ** C1 *)

(** C1, as stated, fails.  The item body of [explanationExample] holds
    N = 1 text-entry interaction, and the blank of its explanation is
    rendered with index 1, not with index N + 1 = 2. *)
Lemma explanation_counter_restarts :
  exists parsed,
    renderQtiItemForScoring
      (fun _ => {| documentElement := Some explanationExample |})
      [] noScoringOptions = Ok parsed
    /\ promptHtml parsed
       = lit "<p>" ++ blankRenderer defaultScoringOptions 1 ++ lit "</p>"
    /\ candidateExplanationHtml parsed
       = Some (blankRenderer defaultScoringOptions 1)
    /\ candidateExplanationHtml parsed
       <> Some (blankRenderer defaultScoringOptions (1 + 1)).
Proof.
  eexists. split; [vm_compute; reflexivity|].
  split; [vm_compute; reflexivity|].
  split; [vm_compute; reflexivity|].
  vm_compute. discriminate.
Qed.

(** C1 (amended).  The candidate explanation is rendered on a counter of
    its own that starts from 0: whatever the number of blanks of the item
    body, the blanks of the explanation receive the indices 1, 2, ..., K in
    the order in which they are rendered, so the first of them receives
    index 1. *)
Theorem explanation_blanks_numbered_from_one
        parseXml xml options root itemBody feedback contentBody :
  documentElement (parseXml xml) = Some root ->
  (nodeName root =?s lit "parsererror") = false ->
  nth_error (getElementsByLocalName root (lit "qti-item-body")) 0
  = Some itemBody ->
  findExplanationFeedback root = Some feedback ->
  nth_error (getElementsByLocalName feedback (lit "qti-content-body")) 0
  = Some contentBody ->
  exists parsed html st,
    renderQtiItemForScoring parseXml xml options = Ok parsed
    /\ candidateExplanationHtml parsed = Some html
    /\ renderNodesForScoring contentBody (explanationNodes contentBody)
         (resolveScoringOptions options) newBlankCounter = Some (html, st)
    /\ map fst (issued st) = seq 1 (length (issued st)).
Proof.
  intros Hroot Hname Hbody Hfb Hcb.
  destruct (renderQtiItemForScoring_ok parseXml xml options root itemBody
              Hroot Hname Hbody)
    as (parsed & pst & Hok & _ & _ & _ & Hexp).
  destruct (explanation_run contentBody (resolveScoringOptions options))
    as (html & st & Hrun & Hidx).
  exists parsed, html, st. split; [exact Hok|].
  unfold parseCandidateExplanation in Hexp.
  rewrite Hfb, Hcb, Hrun in Hexp. injection Hexp as Hexp.
  repeat split; auto.
Qed.

Lemma explanation_blanks_numbered_from_one_witness :
  exists parsed html st,
    renderQtiItemForScoring
      (fun _ => {| documentElement := Some explanationExample |})
      [] noScoringOptions = Ok parsed
    /\ candidateExplanationHtml parsed = Some html
    /\ renderNodesForScoring
         (el "qti-content-body" [] [ el "qti-text-entry-interaction" [] [] ])
         (explanationNodes
            (el "qti-content-body" []
                [ el "qti-text-entry-interaction" [] [] ]))
         (resolveScoringOptions noScoringOptions) newBlankCounter
       = Some (html, st)
    /\ map fst (issued st) = seq 1 (length (issued st)).
Proof.
  apply (explanation_blanks_numbered_from_one
           (fun _ => {| documentElement := Some explanationExample |})
           [] noScoringOptions explanationExample
           (el "qti-item-body" []
               [ el "qti-p" [] [ el "qti-text-entry-interaction" [] [] ] ])
           (el "qti-modal-feedback"
               [attr "identifier" "EXPLANATION";
                attr "outcome-identifier" "FEEDBACK"]
               [ el "qti-content-body" []
                    [ el "qti-text-entry-interaction" [] [] ] ]));
    reflexivity.
Defined.

(** ** C2 *)







(** Why the second condition is there: a simple choice that lies in
    another one is rendered with it and once more as a choice of its own,
    so that its blank is rendered twice; a blank of a choice interaction
    outside the simple choices is not rendered. *)
Example choice_interactions_render_their_simple_choices :
  (textEntryInteractions nestedChoiceBody = [blankA]
   /\ exists html st,
       renderNodesForScoring nestedChoiceBody (childNodes nestedChoiceBody)
         defaultScoringOptions newBlankCounter = Some (html, st)
       /\ issued st = [(1, blankA); (2, blankA)])
  /\ (textEntryInteractions strayBlankBody = [blankA; blankB]
      /\ exists html st,
          renderNodesForScoring strayBlankBody (childNodes strayBlankBody)
            defaultScoringOptions newBlankCounter = Some (html, st)
          /\ issued st = [(1, blankB)]).
Proof.
  split; (split; [vm_compute; reflexivity|]);
    eexists _, _; split; vm_compute; reflexivity.
Qed.

(** ** C10 *)

(** C10, as stated, fails.  The root of [titledItem] has no [identifier]
    attribute and the render succeeds with [identifier = ""], but the
    title is the [title] attribute, not the empty string. *)
Lemma title_attribute_is_kept :
  getAttribute titledItem (lit "identifier") = None
  /\ exists parsed,
      renderQtiItemForScoring
        (fun _ => {| documentElement := Some titledItem |})
        [] noScoringOptions = Ok parsed
      /\ identifier parsed = []
      /\ title parsed = lit "Untitled draft"
      /\ title parsed <> [].
Proof.
  split; [reflexivity|].
  eexists. split; [vm_compute; reflexivity|].
  split; [reflexivity|]. split; [vm_compute; reflexivity|].
  vm_compute. discriminate.
Qed.

(** C10 (amended).  The scoring entry point does not validate the
    identifier: for every parsed document whose root has no [identifier]
    attribute and which has an item body it returns, with [identifier = ""]
    and with the root's [title] attribute as title when there is one, and
    [title = ""] when there is none. *)
Theorem scoring_accepts_missing_identifier
        parseXml xml options root itemBody :
  documentElement (parseXml xml) = Some root ->
  (nodeName root =?s lit "parsererror") = false ->
  nth_error (getElementsByLocalName root (lit "qti-item-body")) 0
  = Some itemBody ->
  getAttribute root (lit "identifier") = None ->
  exists parsed,
    renderQtiItemForScoring parseXml xml options = Ok parsed
    /\ identifier parsed = []
    /\ title parsed = orElse (getAttribute root (lit "title")) []
    /\ (getAttribute root (lit "title") = None -> title parsed = []).
Proof.
  intros Hroot Hname Hbody Hid.
  destruct (renderQtiItemForScoring_ok parseXml xml options root itemBody
              Hroot Hname Hbody)
    as (parsed & st & Hok & _ & Hident & Htitle & _).
  rewrite Hid in Hident. cbn [orElse] in Hident.
  rewrite Hident in Htitle.
  exists parsed. repeat split; try assumption.
  intros Hnone. rewrite Htitle, Hnone. reflexivity.
Qed.

Lemma scoring_accepts_missing_identifier_witness :
  exists parsed,
    renderQtiItemForScoring
      (fun _ => {| documentElement := Some anonymousItem |})
      [] noScoringOptions = Ok parsed
    /\ identifier parsed = []
    /\ title parsed = [].
Proof.
  destruct (scoring_accepts_missing_identifier
              (fun _ => {| documentElement := Some anonymousItem |})
              [] noScoringOptions anonymousItem
              (el "qti-item-body" [] [ el "qti-p" [] [ textNode "Prompt" ] ])
              eq_refl eq_refl eq_refl eq_refl)
    as (parsed & Hok & Hid & _ & Htitle).
  exists parsed. split; [exact Hok|]. split; [exact Hid|].
  exact (Htitle eq_refl).
Defined.



(* ================================================================== *)
(** * The rubric line parser *)
(* ================================================================== *)

Lemma takeWhile_stop (p : N -> bool) (w : jsstring) c s :
  Forall (fun x => p x = true) w -> p c = false ->
  takeWhile p (w ++ c :: s) = w /\ dropWhile p (w ++ c :: s) = c :: s.
Proof.
  intros Hw Hc. rewrite takeWhile_app_all, dropWhile_app_all by assumption.
  simpl. rewrite Hc, app_nil_r. split; reflexivity.
Qed.

Lemma isEmpty_false (s : jsstring) : s <> [] -> isEmpty s = false.
Proof. destruct s; [congruence | reflexivity]. Qed.

Lemma isEmpty_false_inv (s : jsstring) : isEmpty s = false -> s <> [].
Proof. destruct s; [discriminate | congruence]. Qed.






Lemma extractRubricCriteria_loop lines :
  forall acc,
    fold_left
      (fun criteria line =>
         let text := trim (textContent line) in
         let parsed := parseCriterionText text in
         criteria ++ [{| index := length criteria + 1;
                         points := fst parsed;
                         text := snd parsed |}])
      lines acc
    = acc ++ map (fun il =>
                    {| index := fst il;
                       points := fst (parseCriterionText
                                        (trim (textContent (snd il))));
                       text := snd (parseCriterionText
                                        (trim (textContent (snd il)))) |})
                 (combine (seq (length acc + 1) (length lines)) lines).
Proof.
  induction lines as [|l lines IH]; intros acc; simpl.
  - rewrite app_nil_r. reflexivity.
  - rewrite IH, <- app_assoc, length_app. simpl.
    replace (length acc + 1 + 1) with (S (length acc + 1)) by lia.
    reflexivity.
Qed.










(* ================================================================== *)
(** * Code inside a pre block *)
(* ================================================================== *)



Lemma skipn_takeWhile (p : N -> bool) (s : jsstring) :
  skipn (length (takeWhile p s)) s = dropWhile p s.
Proof.
  induction s as [|c s IH]; simpl; [reflexivity|].
  destruct (p c); simpl; [exact IH | reflexivity].
Qed.

Lemma orElse_matchLeading (s : jsstring) :
  orElse (matchLeadingWhiteSpace s) [] = takeWhile isWhiteSpace s.
Proof.
  unfold matchLeadingWhiteSpace.
  destruct (takeWhile isWhiteSpace s); reflexivity.
Qed.

Lemma orElse_matchTrailing (s : jsstring) :
  orElse (matchTrailingWhiteSpace s) []
  = rev (takeWhile isWhiteSpace (rev s)).
Proof.
  unfold matchTrailingWhiteSpace.
  destruct (rev (takeWhile isWhiteSpace (rev s))); reflexivity.
Qed.


Lemma firstn_app_sub {A : Type} (a b : list A) :
  firstn (length (a ++ b) - length b) (a ++ b) = a.
Proof.
  rewrite length_app, Nat.add_sub, firstn_app, Nat.sub_diag, firstn_all.
  simpl. apply app_nil_r.
Qed.

Lemma firstn_rev_dropWhile (p : N -> bool) (s : jsstring) :
  firstn (length s - length (rev (takeWhile p (rev s)))) s
  = rev (dropWhile p (rev s)).
Proof.
  pose proof (takeWhile_dropWhile p (rev s)) as H.
  apply (f_equal (@rev N)) in H. rewrite rev_app_distr, rev_involutive in H.
  remember (rev (takeWhile p (rev s))) as t eqn:Ht.
  remember (rev (dropWhile p (rev s))) as d eqn:Hd.
  clear Ht Hd. subst s. apply firstn_app_sub.
Qed.






(** *** Which children are significant *)

















(* ================================================================== *)
(** * The HTML post-processing utilities *)
(* ================================================================== *)

(** ** Places in a tree *)

Lemma nth_error_updateNth_same {A : Type} (f : A -> A) (l : list A) i :
  nth_error (updateNth i f l) i = option_map f (nth_error l i).
Proof.
  revert i; induction l as [|x l IH]; intros [|i]; simpl; auto.
Qed.

Lemma nth_error_updateNth_other {A : Type} (f : A -> A) (l : list A) i j :
  i <> j -> nth_error (updateNth i f l) j = nth_error l j.
Proof.
  revert i j; induction l as [|x l IH]; intros [|i] [|j] Hij; simpl; auto;
    congruence.
Qed.

Lemma setAttributeOf_keepsChildren name value :
  keepsChildren (setAttributeOf name value).
Proof. intros [t d | q l a ch]; reflexivity. Qed.

Lemma nodeAt_updateAt_same (f : Node -> Node) p :
  forall n, nodeAt p (updateAt p f n) = option_map f (nodeAt p n).
Proof.
  induction p as [|i p IH]; intros n; [reflexivity|].
  destruct n as [t d | q l a ch]; simpl.
  - destruct i; reflexivity.
  - rewrite nth_error_updateNth_same.
    destruct (nth_error ch i) as [c|]; simpl; [apply IH | reflexivity].
Qed.

Lemma elementAttributes_updateAt_cons i p f n :
  elementAttributes (updateAt (i :: p) f n) = elementAttributes n.
Proof. destruct n; reflexivity. Qed.

Lemma nodeAt_updateAt_other (f : Node -> Node) :
  keepsChildren f ->
  forall p p' n,
    p <> p' ->
    attrsOf (nodeAt p' (updateAt p f n)) = attrsOf (nodeAt p' n).
Proof.
  intros Hf. induction p as [|i p IH]; intros p' n Hne.
  - destruct p' as [|j p']; [congruence|].
    simpl. rewrite Hf. reflexivity.
  - destruct p' as [|j p'].
    + cbn [nodeAt attrsOf]. apply elementAttributes_updateAt_cons.
    + destruct n as [t d | q l a ch]; [reflexivity|].
      cbn [updateAt nodeAt childNodes].
      destruct (Nat.eq_dec i j) as [-> | Hij].
      * rewrite nth_error_updateNth_same.
        destruct (nth_error ch j) as [c|]; [|reflexivity].
        cbn [option_map]. apply IH. congruence.
      * rewrite nth_error_updateNth_other by exact Hij. reflexivity.
Qed.

Lemma deref_update_same doc r f :
  deref (update doc r f) r = option_map f (deref doc r).
Proof. destruct r; simpl; apply nodeAt_updateAt_same. Qed.

Lemma attrsAt_update_other doc r r' f :
  keepsChildren f -> r <> r' ->
  attrsAt (update doc r f) r' = attrsAt doc r'.
Proof.
  intros Hf Hne. unfold attrsAt.
  destruct r as [p|p], r' as [p'|p']; simpl; try reflexivity;
    apply nodeAt_updateAt_other; [exact Hf | congruence | exact Hf | congruence].
Qed.

Lemma attrsAt_setAttribute_same doc r name value :
  attrsAt (setAttribute doc r name value) r
  = option_map (setAttr name value) (attrsAt doc r).
Proof.
  unfold attrsAt, setAttribute. rewrite deref_update_same.
  destruct (deref doc r) as [[t d | q l a ch]|]; reflexivity.
Qed.

Lemma attrsAt_setAttribute_other doc r r' name value :
  r <> r' -> attrsAt (setAttribute doc r name value) r' = attrsAt doc r'.
Proof.
  intros Hne. apply attrsAt_update_other;
    [apply setAttributeOf_keepsChildren | exact Hne].
Qed.

(** ** The selected places are distinct *)

Lemma selectPaths_below_head matches children :
  forall i p,
    In p ((fix below (i : nat) (l : list Node) : list path :=
             match l with
             | [] => []
             | c :: l' =>
                 map (cons i) (selectPaths matches c) ++ below (S i) l'
             end) i children) ->
    exists j q, p = j :: q /\ i <= j.
Proof.
  induction children as [|c l IH]; intros i p Hin; [destruct Hin|].
  apply in_app_or in Hin as [Hin | Hin].
  - apply in_map_iff in Hin as (q & <- & _). exists i, q. auto.
  - destruct (IH _ _ Hin) as (j & q & -> & Hle). exists j, q.
    split; [reflexivity | lia].
Qed.

Lemma NoDup_app_intro {A : Type} (l1 l2 : list A) :
  NoDup l1 -> NoDup l2 -> (forall x, In x l1 -> In x l2 -> False) ->
  NoDup (l1 ++ l2).
Proof.
  induction l1 as [|x l1 IH]; intros H1 H2 Hd; simpl; [exact H2|].
  inversion H1 as [|? ? Hx H1']; subst. constructor.
  - intros Hin. apply in_app_or in Hin as [Hin | Hin]; [exact (Hx Hin)|].
    apply (Hd x); simpl; auto.
  - apply IH; [exact H1' | exact H2 |]. intros y Hy1 Hy2.
    apply (Hd y); simpl; auto.
Qed.

Lemma NoDup_map_inj {A B : Type} (f : A -> B) (l : list A) :
  (forall x y, f x = f y -> x = y) -> NoDup l -> NoDup (map f l).
Proof.
  intros Hinj. induction 1 as [|x l Hx _ IH]; simpl; constructor; [|exact IH].
  intros Hin. apply in_map_iff in Hin as (y & Hy & Hin).
  apply Hinj in Hy. subst y. exact (Hx Hin).
Qed.

Lemma selectPaths_NoDup matches n : NoDup (selectPaths matches n).
Proof.
  induction n as [t d | q l a children IH] using Node_induction;
    [constructor|].
  cbn [selectPaths].
  apply NoDup_app_intro.
  - destruct (matches _); repeat constructor. intros [].
  - generalize 0 as i. induction children as [|c rest IHrest]; intros i;
      [constructor|].
    apply NoDup_app_intro.
    + apply NoDup_map_inj; [congruence|]. apply IH. left. reflexivity.
    + apply IHrest. intros c' Hc'. apply IH. right. exact Hc'.
    + intros p Hp1 Hp2. apply in_map_iff in Hp1 as (p1 & <- & _).
      destruct (selectPaths_below_head _ _ _ _ Hp2) as (j & p2 & Heq & Hle).
      injection Heq as <- _. lia.
  - intros p Hp1 Hp2.
    destruct (selectPaths_below_head _ _ _ _ Hp2) as (j & p2 & -> & _).
    destruct (matches _); [destruct Hp1 as [H | []]; discriminate H
                          | destruct Hp1].
Qed.

Lemma querySelectorAll_NoDup matchesSelector doc selector :
  NoDup (querySelectorAll matchesSelector doc selector).
Proof.
  unfold querySelectorAll. apply NoDup_app_intro.
  - apply NoDup_map_inj; [congruence | apply selectPaths_NoDup].
  - apply NoDup_map_inj; [congruence | apply selectPaths_NoDup].
  - intros r H1 H2. apply in_map_iff in H1 as (p1 & <- & _).
    apply in_map_iff in H2 as (p2 & H & _). discriminate H.
Qed.

(** ** A loop that touches one place at a time *)

Lemma fold_LocalStep step effect :
  LocalStep step effect ->
  forall refs k doc,
    NoDup refs ->
    let doc' := fold_left (fun d ri => step d (fst ri) (snd ri))
                          (combine refs (seq k (length refs))) doc in
    (forall i r, nth_error refs i = Some r ->
                 attrsAt doc' r = option_map (effect (k + i)) (attrsAt doc r))
    /\ (forall r, ~ In r refs -> attrsAt doc' r = attrsAt doc r).
Proof.
  intros Hstep. induction refs as [|r0 refs IH]; intros k doc Hnd.
  - simpl. split; [intros [|i] r H; discriminate H | reflexivity].
  - inversion Hnd as [|? ? Hr0 Hnd']; subst.
    cbn [length seq combine fold_left fst snd].
    destruct (IH (S k) (step doc r0 k) Hnd') as [Hin Hout].
    destruct (Hstep doc r0 k) as [Hsame Hother].
    split.
    + intros [|i] r Hr.
      * injection Hr as <-. rewrite (Hout r0 Hr0), Hsame, Nat.add_0_r.
        reflexivity.
      * simpl in Hr. rewrite (Hin i r Hr).
        replace (S k + i) with (k + S i) by lia.
        rewrite Hother; [reflexivity|].
        intros ->. apply Hr0. eapply nth_error_In. exact Hr.
    + intros r Hr. rewrite Hout by (intros H; apply Hr; right; exact H).
      apply Hother. intros ->. apply Hr. left. reflexivity.
Qed.

Lemma forEachIndexed_LocalStep step effect refs doc :
  LocalStep step effect -> NoDup refs ->
  (forall i r, nth_error refs i = Some r ->
               attrsAt (forEachIndexed step refs doc) r
               = option_map (effect i) (attrsAt doc r))
  /\ (forall r, ~ In r refs ->
                attrsAt (forEachIndexed step refs doc) r = attrsAt doc r).
Proof.
  intros Hstep Hnd. exact (fold_LocalStep step effect Hstep refs 0 doc Hnd).
Qed.

(** ** Attribute lists *)

Lemma lookupAttr_setAttr_same name value attrs :
  lookupAttr name (setAttr name value attrs) = Some value.
Proof.
  induction attrs as [|[k v] rest IH]; simpl.
  - rewrite jseqb_refl. reflexivity.
  - destruct (k =?s name) eqn:E; simpl; rewrite E; [reflexivity | exact IH].
Qed.

Lemma lookupAttr_setAttr_other name other value attrs :
  (other =?s name) = false ->
  lookupAttr name (setAttr other value attrs) = lookupAttr name attrs.
Proof.
  intros Hne. induction attrs as [|[k v] rest IH]; simpl.
  - assert (H : (other =?s name) = false) by exact Hne. rewrite H.
    reflexivity.
  - destruct (k =?s other) eqn:E; simpl.
    + apply jseqb_eq in E. subst k. rewrite Hne. reflexivity.
    + destruct (k =?s name); [reflexivity | exact IH].
Qed.

(** ** Prefixes *)

Lemma startsWith_split (s p : jsstring) :
  startsWith s p = true -> s = p ++ skipn (length p) s.
Proof.
  revert s. induction p as [|x p IH]; intros s H; [reflexivity|].
  destruct s as [|c s]; [discriminate|].
  cbn [startsWith] in H. apply andb_true_iff in H as [Hc Hs].
  apply N.eqb_eq in Hc. subst c. cbn [length skipn app]. f_equal.
  apply IH, Hs.
Qed.



(** Every selected place holds an element that the selector accepts. *)
Lemma selectPaths_valid matches n :
  forall p, In p (selectPaths matches n) ->
            exists q l a ch,
              nodeAt p n = Some (Element q l a ch)
              /\ matches (Element q l a ch) = true.
Proof.
  induction n as [t d | q l a children IH] using Node_induction;
    intros p Hp; [destruct Hp|].
  cbn [selectPaths] in Hp. apply in_app_or in Hp as [Hp | Hp].
  - destruct (matches (Element q l a children)) eqn:Hm; [|destruct Hp].
    destruct Hp as [<- | []]. exists q, l, a, children. auto.
  - assert (Hgen : forall i,
               In p ((fix below (i : nat) (l : list Node) : list path :=
                        match l with
                        | [] => []
                        | c :: l' =>
                            map (cons i) (selectPaths matches c)
                            ++ below (S i) l'
                        end) i children) ->
               exists j p' c,
                 p = j :: p' /\ i <= j
                 /\ nth_error children (j - i) = Some c
                 /\ In p' (selectPaths matches c)).
    { clear Hp IH. induction children as [|c rest IHrest]; intros i Hin;
        [destruct Hin|].
      apply in_app_or in Hin as [Hin | Hin].
      - apply in_map_iff in Hin as (p' & <- & Hp').
        exists i, p', c. rewrite Nat.sub_diag. auto.
      - destruct (IHrest _ Hin) as (j & p' & c' & -> & Hle & Hnth & Hp').
        exists j, p', c'. repeat split; try lia; [|exact Hp'].
        replace (j - i) with (S (j - S i)) by lia. exact Hnth. }
    destruct (Hgen 0 Hp) as (j & p' & c & -> & _ & Hnth & Hp').
    rewrite Nat.sub_0_r in Hnth.
    destruct (IH c (nth_error_In _ _ Hnth) p' Hp')
      as (q' & l' & a' & ch' & Hat & Hm).
    exists q', l', a', ch'. cbn [nodeAt childNodes]. rewrite Hnth. auto.
Qed.

Lemma querySelectorAll_valid matchesSelector doc selector r :
  In r (querySelectorAll matchesSelector doc selector) ->
  exists attrs, attrsAt doc r = Some attrs.
Proof.
  unfold querySelectorAll, attrsAt. intros Hin.
  apply in_app_or in Hin as [Hin | Hin];
    apply in_map_iff in Hin as (p & <- & Hp);
    destruct (selectPaths_valid _ _ _ Hp) as (q & l & a & ch & Hat & _);
    exists a; cbn [deref]; rewrite Hat; reflexivity.
Qed.

(** ** C6, C7: filling the blanks *)

Lemma option_map_id {A : Type} (o : option A) : option_map (fun a => a) o = o.
Proof. destruct o; reflexivity. Qed.

Lemma fillBlank_local responses :
  LocalStep (fillBlank responses)
            (fun i => filledAttributes (nth_error responses i)).
Proof.
  intros doc r i. unfold fillBlank, filledAttributes.
  destruct (nth_error responses i) as [value|].
  - split.
    + rewrite !attrsAt_setAttribute_same.
      destruct (attrsAt doc r); reflexivity.
    + intros r' Hne. rewrite !attrsAt_setAttribute_other by exact Hne.
      reflexivity.
  - split; [rewrite option_map_id; reflexivity | reflexivity].
Qed.

Lemma forEachIndexed_ext step1 step2 refs doc :
  (forall d r i, i < length refs -> step1 d r i = step2 d r i) ->
  forEachIndexed step1 refs doc = forEachIndexed step2 refs doc.
Proof.
  intros Hext. unfold forEachIndexed.
  assert (Hgen : forall k l d,
             k + length l <= length refs ->
             fold_left (fun d ri => step1 d (fst ri) (snd ri))
                       (combine l (seq k (length l))) d
             = fold_left (fun d ri => step2 d (fst ri) (snd ri))
                         (combine l (seq k (length l))) d).
  { intros k l. revert k. induction l as [|r l IH]; intros k d Hk;
      [reflexivity|].
    cbn [length seq combine fold_left fst snd]. simpl in Hk.
    rewrite Hext by lia. apply IH. lia. }
  apply Hgen. simpl. lia.
Qed.

Lemma normalizeResponses_at response i :
  nth_error (normalizeResponses response) i = responseAt response i.
Proof.
  destruct response as [|s|l]; cbn [normalizeResponses responseAt].
  - destruct i; reflexivity.
  - destruct i as [|[|i]]; reflexivity.
  - reflexivity.
Qed.

Lemma normalizeResponses_none response :
  (length (normalizeResponses response) =? 0) = negb (hasResponse response).
Proof.
  unfold hasResponse. rewrite <- normalizeResponses_at.
  destruct (normalizeResponses response); reflexivity.
Qed.

(** C6.  [applyResponsesToPromptHtml] returns its input, the very same
    string, for every HTML string without the blank marker
    [qti-blank-input], and for every input when the response is absent
    ([null] or [undefined]) or an empty list; no DOM parser is needed for
    that. *)
Theorem applyResponses_identity
        matchesSelector innerHTML globalDOMParser
        (promptHtml : jsstring) (response : ResponseArg)
        (options : HtmlTransformOptions) :
  (includes promptHtml (lit "qti-blank-input") = false ->
   applyResponsesToPromptHtml matchesSelector innerHTML globalDOMParser
                              promptHtml response options
   = Ok promptHtml)
  /\ (response = NoResponse \/ response = ResponseList [] ->
      applyResponsesToPromptHtml matchesSelector innerHTML globalDOMParser
                                 promptHtml response options
      = Ok promptHtml).
Proof.
  unfold applyResponsesToPromptHtml. split.
  - intros ->. reflexivity.
  - intros [-> | ->]; destruct (negb (includes promptHtml _)); reflexivity.
Qed.

Lemma applyResponses_identity_witness :
  applyResponsesToPromptHtml exampleSelector exampleInnerHTML None
    (lit "<p>no blank here</p>") (SingleResponse (lit "x"))
    {| domParser := None |}
  = Ok (lit "<p>no blank here</p>")
  /\ applyResponsesToPromptHtml exampleSelector exampleInnerHTML None
       (lit "<input class=qti-blank-input>") NoResponse
       {| domParser := None |}
     = Ok (lit "<input class=qti-blank-input>").
Proof.
  split.
  - apply (proj1 (applyResponses_identity exampleSelector exampleInnerHTML None
                    (lit "<p>no blank here</p>") (SingleResponse (lit "x"))
                    {| domParser := None |})).
    reflexivity.
  - apply (proj2 (applyResponses_identity exampleSelector exampleInnerHTML None
                    (lit "<input class=qti-blank-input>") NoResponse
                    {| domParser := None |})).
    left. reflexivity.
Defined.

(** C7, as stated, fails: the call can raise an error.  Without a parser
    in the options and without [globalThis.DOMParser] (Node.js), a prompt
    that holds a blank and one response make [applyResponsesToPromptHtml]
    throw. *)
Lemma applyResponses_throws_without_parser :
  includes blankPrompt (lit "qti-blank-input") = true
  /\ applyResponsesToPromptHtml exampleSelector exampleSerializer None
       blankPrompt (SingleResponse (lit "TypeScript"))
       {| domParser := None |}
     = Throw (lit "DOMParser is not available. Provide a domParser option (e.g. from linkedom/jsdom).").
Proof. split; vm_compute; reflexivity. Qed.

(** C7 (amended).  With a DOM parser at hand [applyResponsesToPromptHtml]
    does not throw.  It returns the prompt itself on the early paths (no
    marker, no response, no blank input found) and otherwise the body of
    the parsed document after a loop that pairs the blank inputs, in
    document order, with the responses by position, a single string
    counting as a list of one response: the blank at position [i] gets
    [value] set to the response at index [i] and [size] set to
    [max(6, length)], its other attributes staying as they were; a blank
    with no response at its position keeps its attributes, as does every
    element that is not a blank; responses beyond the number of blanks
    change nothing. *)
Theorem applyResponses_pairs_by_position
        matchesSelector innerHTML globalDOMParser
        (promptHtml : jsstring) (response : ResponseArg)
        (options : HtmlTransformOptions) (parser : HtmlDomParser) :
  resolveHtmlDomParser globalDOMParser (domParser options) = Ok parser ->
  let doc := parseFromString parser promptHtml (lit "text/html") in
  let blanks :=
    querySelectorAll matchesSelector doc (lit "input.qti-blank-input") in
  let doc' :=
    forEachIndexed (fillBlank (normalizeResponses response)) blanks doc in
  applyResponsesToPromptHtml matchesSelector innerHTML globalDOMParser
                             promptHtml response options
  = Ok (if negb (includes promptHtml (lit "qti-blank-input"))
           || negb (hasResponse response) || (length blanks =? 0)
        then promptHtml
        else innerHTML (body doc'))
  /\ (forall i blank,
         nth_error blanks i = Some blank ->
         exists attrs,
           attrsAt doc blank = Some attrs
           /\ attrsAt doc' blank
              = Some (filledAttributes (responseAt response i) attrs)
           /\ (forall value,
                  responseAt response i = Some value ->
                  lookupAttr (lit "value")
                             (filledAttributes (Some value) attrs)
                  = Some value
                  /\ lookupAttr (lit "size")
                                (filledAttributes (Some value) attrs)
                     = Some (numberToString (Nat.max 6 (length value)))
                  /\ forall other,
                      (lit "value" =?s other) = false ->
                      (lit "size" =?s other) = false ->
                      lookupAttr other (filledAttributes (Some value) attrs)
                      = lookupAttr other attrs)
           /\ (responseAt response i = None ->
               attrsAt doc' blank = Some attrs))
  /\ (forall r, ~ In r blanks -> attrsAt doc' r = attrsAt doc r)
  /\ (forall l extra,
         response = ResponseList (l ++ extra) ->
         length blanks <= length l ->
         applyResponsesToPromptHtml matchesSelector innerHTML globalDOMParser
                                    promptHtml (ResponseList l) options
         = applyResponsesToPromptHtml matchesSelector innerHTML
                                      globalDOMParser promptHtml response
                                      options).
Proof.
  intros Hparser doc blanks doc'.
  destruct (forEachIndexed_LocalStep
              (fillBlank (normalizeResponses response))
              (fun i => filledAttributes
                          (nth_error (normalizeResponses response) i))
              blanks doc
              (fillBlank_local (normalizeResponses response))
              (querySelectorAll_NoDup _ _ _)) as [Hin Hout].
  split; [|split; [|split]].
  - unfold applyResponsesToPromptHtml.
    destruct (negb (includes promptHtml (lit "qti-blank-input")));
      [reflexivity|].
    rewrite normalizeResponses_none.
    destruct (negb (hasResponse response)); [reflexivity|].
    rewrite Hparser. fold doc. fold blanks.
    destruct (length blanks =? 0); reflexivity.
  - intros i blank Hi.
    destruct (querySelectorAll_valid _ _ _ _ (nth_error_In _ _ Hi))
      as (attrs & Hattrs).
    exists attrs. split; [exact Hattrs|].
    assert (Hafter : attrsAt doc' blank
                     = Some (filledAttributes (responseAt response i) attrs)).
    { unfold doc'. rewrite (Hin i blank Hi). fold doc in Hattrs.
      rewrite Hattrs, normalizeResponses_at. reflexivity. }
    split; [exact Hafter|]. split.
    + intros value Hv. cbn [filledAttributes]. split; [|split].
      * rewrite lookupAttr_setAttr_other by reflexivity.
        apply lookupAttr_setAttr_same.
      * apply lookupAttr_setAttr_same.
      * intros other Hvalue Hsize.
        rewrite !lookupAttr_setAttr_other by assumption. reflexivity.
    + intros Hnone. rewrite Hafter, Hnone. reflexivity.
  - exact Hout.
  - intros l extra -> Hlen. unfold applyResponsesToPromptHtml.
    destruct (negb (includes promptHtml (lit "qti-blank-input")));
      [reflexivity|].
    cbn [normalizeResponses]. rewrite Hparser. fold doc. fold blanks.
    destruct l as [|r l].
    + assert (Hnil : blanks = [])
        by (destruct blanks; [reflexivity | cbn in Hlen; lia]).
      rewrite Hnil. cbn [app length Nat.eqb].
      destruct (length extra =? 0); reflexivity.
    + cbn [app length Nat.eqb].
      destruct (length blanks =? 0); [reflexivity|].
      do 3 f_equal. apply forEachIndexed_ext.
      intros d ref i Hi. unfold fillBlank.
      change (r :: l ++ extra) with ((r :: l) ++ extra).
      rewrite (nth_error_app1 (r :: l) extra) by lia. reflexivity.
Qed.

(** The call of the test suite: one blank, the response a single string
    of ten characters. *)
Lemma applyResponses_pairs_by_position_witness :
  applyResponsesToPromptHtml exampleSelector exampleSerializer None
    blankPrompt (SingleResponse (lit "TypeScript"))
    {| domParser := Some blankPromptParser |}
  = Ok (lit "<p>A<input class=" ++ quoted (lit "qti-blank-input")
        ++ lit " data-blank=" ++ quoted (lit "1")
        ++ lit " type=" ++ quoted (lit "text")
        ++ lit " size=" ++ quoted (lit "10")
        ++ lit " disabled=" ++ quoted []
        ++ lit " aria-label=" ++ quoted (lit "blank 1")
        ++ lit " value=" ++ quoted (lit "TypeScript") ++ lit ">B</p>")
  /\ exists attrs',
      attrsAt (forEachIndexed (fillBlank [lit "TypeScript"])
                 (querySelectorAll exampleSelector blankPromptDocument
                                   (lit "input.qti-blank-input"))
                 blankPromptDocument)
              (InBody [0; 1]) = Some attrs'
      /\ lookupAttr (lit "value") attrs' = Some (lit "TypeScript")
      /\ lookupAttr (lit "size") attrs' = Some (lit "10").
Proof.
  destruct (applyResponses_pairs_by_position
              exampleSelector exampleSerializer None blankPrompt
              (SingleResponse (lit "TypeScript"))
              {| domParser := Some blankPromptParser |} blankPromptParser)
    as (Hres & Hblank & _).
  - reflexivity.
  - split.
    + rewrite Hres. vm_compute. reflexivity.
    + destruct (Hblank 0 (InBody [0; 1]) eq_refl)
        as (attrs & Hbefore & Hafter & Hset & _).
      exists (filledAttributes (Some (lit "TypeScript")) attrs).
      split; [exact Hafter|].
      destruct (Hset (lit "TypeScript") eq_refl) as (Hv & Hs & _).
      split; [exact Hv | exact Hs].
Defined.

(** ** C8: rewriting image sources *)

Lemma startsWith_app (p s : jsstring) : startsWith (p ++ s) p = true.
Proof.
  induction p as [|c p IH]; simpl; [destruct s; reflexivity|].
  rewrite N.eqb_refl. exact IH.
Qed.

Lemma listed_external_detected src :
  isListedExternal src -> defaultIsExternalSource src = true.
Proof.
  unfold defaultIsExternalSource, testSchemeOrProtocolRelative.
  intros [(scheme & rest & Hne & Hletters & ->) | [H | [H | H]]].
  - change (lit "://" ++ rest) with (58%N :: (lit "//" ++ rest)).
    destruct (takeWhile_stop isAsciiLetter scheme 58%N (lit "//" ++ rest)
                Hletters eq_refl) as [Ht Hd].
    rewrite Ht, Hd, (isEmpty_false _ Hne).
    change (58%N :: lit "//" ++ rest) with (lit "://" ++ rest).
    rewrite startsWith_app. reflexivity.
  - rewrite H, orb_true_r. reflexivity.
  - rewrite H, orb_true_r. reflexivity.
  - rewrite H, orb_true_r. reflexivity.
Qed.

Lemma detected_is_listed src :
  defaultIsExternalSource src = true -> isListedExternal src.
Proof.
  unfold defaultIsExternalSource, testSchemeOrProtocolRelative.
  rewrite !orb_true_iff, andb_true_iff, negb_true_iff.
  intros [[[[Hscheme Hrest] | H] | H] | H].
  - left. exists (takeWhile isAsciiLetter src),
      (skipn 3 (dropWhile isAsciiLetter src)).
    split; [apply isEmpty_false_inv, Hscheme|].
    split; [apply takeWhile_Forall|].
    rewrite <- (takeWhile_dropWhile isAsciiLetter src) at 1. f_equal.
    exact (startsWith_split _ _ Hrest).
  - right. left. exact H.
  - right. right. right. exact H.
  - right. right. left. exact H.
Qed.

Lemma rawSrc_attrsAt doc r :
  match deref doc r with
  | Some e => getAttribute e (lit "src")
  | None => None
  end
  = match attrsAt doc r with
    | Some a => lookupAttr (lit "src") a
    | None => None
    end.
Proof.
  unfold attrsAt. destruct (deref doc r) as [[t d | q l a ch]|]; reflexivity.
Qed.

Lemma rewriteImage_local resolveRelativePath baseFilePath options :
  LocalStep (rewriteImage resolveRelativePath baseFilePath options)
            (fun _ => rewrittenAttributes resolveRelativePath baseFilePath
                                          options).
Proof.
  intros doc r i. unfold rewriteImage, rewrittenAttributes.
  cbv zeta. rewrite rawSrc_attrsAt.
  destruct (attrsAt doc r) as [a|] eqn:Ha; cbn [option_map];
    [|split; [exact Ha | reflexivity]].
  destruct (lookupAttr (lit "src") a) as [src|];
    [|split; [exact Ha | reflexivity]].
  destruct (negb (truthy src) || _);
    [split; [exact Ha | reflexivity]|].
  destruct (resolveRelativePath baseFilePath src) as [res|];
    [|split; [exact Ha | reflexivity]].
  destruct (negb (truthy res));
    [split; [exact Ha | reflexivity]|].
  split.
  - rewrite attrsAt_setAttribute_same, Ha. reflexivity.
  - intros r' Hne. apply attrsAt_setAttribute_other. exact Hne.
Qed.

(** C8, as stated, fails.  The default detector knows a scheme only when
    it is made of letters, and a data URI only in lower case: the sources
    of [schemeDocument] are absolute or data URIs, the detector answers
    false for each of them, and a resolver that resolves them has them
    rewritten. *)
Lemma other_schemes_are_rewritten :
  defaultIsExternalSource (lit "s3://bucket/pic.png") = false
  /\ defaultIsExternalSource (lit "git+ssh://host/pic.png") = false
  /\ defaultIsExternalSource (lit "DATA:image/png;base64,AAAA") = false
  /\ rewriteHtmlImageSources exampleSelector exampleSerializer None
       itemsResolver
       (lit "<img src=s3://bucket/pic.png><img src=git+ssh://host/pic.png><img src=DATA:image/png;base64,AAAA>")
       (lit "items/item-1.qti.xml") schemeOptions
     = Ok (lit "<img src=" ++ quoted (lit "/assets/items/s3://bucket/pic.png")
           ++ lit "><img src="
           ++ quoted (lit "/assets/items/git+ssh://host/pic.png")
           ++ lit "><img src="
           ++ quoted (lit "/assets/items/DATA:image/png;base64,AAAA")
           ++ lit ">").
Proof.
  repeat match goal with |- _ /\ _ => split end; vm_compute; reflexivity.
Qed.

(** C8 (amended).  With the default external-source detector and a DOM
    parser at hand, [rewriteHtmlImageSources] leaves the attributes of an
    image unchanged when its [src] begins with a scheme of letters
    followed by "://", is protocol-relative, is root-relative or begins
    with "data:" in lower case; for every other source it sets [src] (to
    what [resolveUrl] returns for the resolved path and the original
    source) exactly when the source is not empty and the relative-path
    resolver returns a truthy path; an image whose source does not resolve
    keeps its attributes, and so does every element that is not such an
    image. *)
Theorem rewriteHtmlImageSources_default_detector
        matchesSelector innerHTML globalDOMParser resolveRelativePath
        (html baseFilePath : jsstring) (options : RewriteImageSourcesOptions)
        (parser : HtmlDomParser) :
  isExternalSource options = None ->
  resolveHtmlDomParser globalDOMParser (rw_domParser options) = Ok parser ->
  let doc := parseFromString parser html (lit "text/html") in
  let images := querySelectorAll matchesSelector doc (lit "img[src]") in
  let doc' :=
    forEachIndexed (rewriteImage resolveRelativePath baseFilePath options)
                   images doc in
  rewriteHtmlImageSources matchesSelector innerHTML globalDOMParser
                          resolveRelativePath html baseFilePath options
  = Ok (innerHTML (body doc'))
  /\ (forall i img,
         nth_error images i = Some img ->
         exists attrs attrs',
           attrsAt doc img = Some attrs
           /\ attrsAt doc' img = Some attrs'
           /\ forall src,
               lookupAttr (lit "src") attrs = Some src ->
               (isListedExternal src -> attrs' = attrs)
               /\ (resolveRelativePath baseFilePath src = None
                   \/ resolveRelativePath baseFilePath src = Some [] ->
                   attrs' = attrs)
               /\ (forall resolved,
                      src <> [] ->
                      ~ isListedExternal src ->
                      resolveRelativePath baseFilePath src = Some resolved ->
                      resolved <> [] ->
                      attrs' = setAttr (lit "src")
                                       (resolveUrl options resolved src)
                                       attrs)
               /\ (attrs' <> attrs ->
                   exists resolved,
                     src <> []
                     /\ ~ isListedExternal src
                     /\ resolveRelativePath baseFilePath src = Some resolved
                     /\ resolved <> []
                     /\ attrs' = setAttr (lit "src")
                                         (resolveUrl options resolved src)
                                         attrs))
  /\ (forall r, ~ In r images -> attrsAt doc' r = attrsAt doc r).
Proof.
  intros Hdefault Hparser doc images doc'.
  destruct (forEachIndexed_LocalStep
              (rewriteImage resolveRelativePath baseFilePath options)
              (fun _ => rewrittenAttributes resolveRelativePath baseFilePath
                                            options)
              images doc
              (rewriteImage_local resolveRelativePath baseFilePath options)
              (querySelectorAll_NoDup _ _ _)) as [Hin Hout].
  split; [|split].
  - unfold rewriteHtmlImageSources. rewrite Hparser. reflexivity.
  - intros i img Hi.
    destruct (querySelectorAll_valid _ _ _ _ (nth_error_In _ _ Hi))
      as (attrs & Hattrs).
    exists attrs,
      (rewrittenAttributes resolveRelativePath baseFilePath options attrs).
    split; [exact Hattrs|]. split.
    { unfold doc'. rewrite (Hin i img Hi). fold doc in Hattrs.
      rewrite Hattrs. reflexivity. }
    intros src Hsrc. unfold rewrittenAttributes.
    rewrite Hsrc, Hdefault. cbn [orElse].
    split; [|split; [|split]].
    + intros Hext. rewrite (listed_external_detected _ Hext), orb_true_r.
      reflexivity.
    + intros [Hres | Hres]; rewrite Hres;
        destruct (negb (truthy src) || defaultIsExternalSource src);
        reflexivity.
    + intros resolved Hne Hext Hres Hrne.
      assert (Hdet : defaultIsExternalSource src = false).
      { apply not_true_is_false. intros H. apply Hext.
        apply detected_is_listed, H. }
      rewrite Hdet, Hres.
      destruct src; [congruence|]. destruct resolved; [congruence|].
      reflexivity.
    + intros Hchanged.
      destruct src as [|c src'].
      { exfalso. apply Hchanged. reflexivity. }
      cbn [truthy isEmpty negb orb] in Hchanged |- *.
      destruct (defaultIsExternalSource (c :: src')) eqn:Hext.
      { exfalso. apply Hchanged. reflexivity. }
      destruct (resolveRelativePath baseFilePath (c :: src'))
        as [[|d res]|] eqn:Hres;
        try (exfalso; apply Hchanged; reflexivity).
      exists (d :: res). split; [discriminate|].
      split.
      { intros Hlisted. apply listed_external_detected in Hlisted.
        congruence. }
      split; [reflexivity|]. split; [discriminate | reflexivity].
  - exact Hout.
Qed.

Lemma rewriteHtmlImageSources_default_detector_witness :
  rewriteHtmlImageSources exampleSelector exampleSerializer None itemsResolver
    (lit "<img src=images/pic.png alt=pic><img src=https://example.org/a.png><img src=/top.png>")
    (lit "items/item-1.qti.xml") assetsOptions
  = Ok (lit "<img src=" ++ quoted (lit "/assets/items/images/pic.png")
        ++ lit " alt=" ++ quoted (lit "pic")
        ++ lit "><img src=" ++ quoted (lit "https://example.org/a.png")
        ++ lit "><img src=" ++ quoted (lit "/top.png") ++ lit ">")
  /\ exists attrs',
      attrsAt (forEachIndexed
                 (rewriteImage itemsResolver (lit "items/item-1.qti.xml")
                               assetsOptions)
                 (querySelectorAll exampleSelector imageDocument
                                   (lit "img[src]"))
                 imageDocument)
              (InBody [1]) = Some attrs'
      /\ attrs' = [attr "src" "https://example.org/a.png"].
Proof.
  destruct (rewriteHtmlImageSources_default_detector
              exampleSelector exampleSerializer None itemsResolver
              (lit "<img src=images/pic.png alt=pic><img src=https://example.org/a.png><img src=/top.png>")
              (lit "items/item-1.qti.xml") assetsOptions imageParser
              eq_refl eq_refl) as (Hres & Himg & _).
  split; [rewrite Hres; vm_compute; reflexivity|].
  destruct (Himg 1 (InBody [1]) eq_refl)
    as (attrs & attrs' & Hbefore & Hafter & Hsrc).
  exists attrs'. split; [exact Hafter|].
  vm_compute in Hbefore. injection Hbefore as <-.
  destruct (Hsrc (lit "https://example.org/a.png") eq_refl) as (Hlisted & _).
  apply Hlisted. left.
  exists (lit "https"), (lit "example.org/a.png").
  split; [discriminate|]. split; [repeat constructor | reflexivity].
Defined.



(* ================================================================== *)
(** * The report render *)
(* ================================================================== *)

(** ** C5 *)

(** C5.  The report entry point validates the identifier of every parsed
    document: when the root has no [identifier] attribute, or an empty one,
    it throws the identifier-missing error; when the identifier is there
    but is not the expected one, it throws the identifier-mismatch error;
    the messages of the two errors differ whatever the identifiers are, so
    a caller can tell them apart. *)
Theorem report_identifier_validation
        toLowerCase parseXml (xml expectedIdentifier : jsstring)
        (options : PartialReportRenderOptions) (root : Node) :
  documentElement (parseXml xml) = Some root ->
  (nodeName root =?s lit "parsererror") = false ->
  ((getAttribute root (lit "identifier") = None
    \/ getAttribute root (lit "identifier") = Some []) ->
   renderQtiItemForReport toLowerCase parseXml xml expectedIdentifier options
   = Throw (lit "Invalid assessment item: identifier missing in "
            ++ expectedIdentifier))
  /\ (forall found,
         getAttribute root (lit "identifier") = Some found ->
         found <> [] ->
         found <> expectedIdentifier ->
         renderQtiItemForReport toLowerCase parseXml xml expectedIdentifier
                                options
         = Throw (lit "Assessment item identifier mismatch: expected "
                  ++ expectedIdentifier ++ lit " but found " ++ found))
  /\ (forall expected1 expected2 found,
         lit "Invalid assessment item: identifier missing in " ++ expected1
         <> lit "Assessment item identifier mismatch: expected "
            ++ expected2 ++ lit " but found " ++ found).
Proof.
  intros Hroot Hname. unfold renderQtiItemForReport. rewrite Hroot, Hname.
  split; [|split].
  - intros [-> | ->]; reflexivity.
  - intros found -> Hne Hdiff. cbn [orElse].
    destruct found as [|c found]; [congruence|].
    cbn [truthy isEmpty negb].
    destruct ((c :: found) =?s expectedIdentifier) eqn:E.
    + apply jseqb_eq in E. congruence.
    + reflexivity.
  - intros expected1 expected2 found H. discriminate H.
Qed.

Lemma report_identifier_validation_witness :
  renderQtiItemForReport (fun s => s)
    (fun _ => {| documentElement := Some unnamedReportItem |})
    [] (lit "item-7") noReportOptions
  = Throw (lit "Invalid assessment item: identifier missing in item-7")
  /\ renderQtiItemForReport (fun s => s)
       (fun _ => {| documentElement := Some otherReportItem |})
       [] (lit "item-7") noReportOptions
     = Throw (lit "Assessment item identifier mismatch: expected item-7 but found item-8").
Proof.
  split.
  - apply (proj1 (report_identifier_validation
                    (fun s => s)
                    (fun _ => {| documentElement := Some unnamedReportItem |})
                    [] (lit "item-7") noReportOptions unnamedReportItem
                    eq_refl eq_refl)).
    left. reflexivity.
  - apply (proj1 (proj2 (report_identifier_validation
                    (fun s => s)
                    (fun _ => {| documentElement := Some otherReportItem |})
                    [] (lit "item-7") noReportOptions otherReportItem
                    eq_refl eq_refl)) (lit "item-8")).
    + reflexivity.
    + discriminate.
    + discriminate.
Defined.

(** ** C9 *)

(** C9: the passes at a failing input.  The class [$&], escaped to
    [$&amp;], still begins with a replacement pattern of
    [String.prototype.replace], and [addOrUpdateAttribute] hands the class
    list over as a replacement string.  The report of [dollarClassItem]
    therefore holds a mangled code tag, and running the three passes again
    on that output changes it once more: the class [code-inline], written
    once by the first run, stands twice in the tag after the second. *)
Theorem report_passes_reapply_inline_class toLowerCase :
  let passes := fun html =>
    enhanceInlineCode toLowerCase
      (enhanceCodeBlocks toLowerCase (normalizePreBlocks html)
                         defaultReportOptions None)
      defaultReportOptions in
  let once := passes dollarClassCode in
  let twice := passes once in
  (exists parsed,
      renderQtiItemForReport toLowerCase
        (fun _ => {| documentElement := Some dollarClassItem |})
        [] (lit "item-9") noReportOptions = Ok parsed
      /\ questionHtml parsed = once)
  /\ once = lit "<div class=" ++ quoted (lit "item-body") ++ lit ">"
            ++ lit "<code class=" ++ dq ++ lit " class="
            ++ quoted (lit "$&amp;") ++ lit "amp; code-inline" ++ dq
            ++ lit ">x</code></div>"
  /\ twice = lit "<div class=" ++ quoted (lit "item-body") ++ lit ">"
             ++ lit "<code class=" ++ quoted (lit "class= code-inline")
             ++ lit "$&amp;" ++ dq ++ lit "amp; code-inline" ++ dq
             ++ lit ">x</code></div>"
  /\ twice <> once
  /\ countOccurrences (lit "code-inline") once = 1
  /\ countOccurrences (lit "code-inline") twice = 2.
Proof.
  cbv zeta. split; [|split; [|split; [|split; [|split]]]].
  - eexists. split; vm_compute; reflexivity.
  - vm_compute. reflexivity.
  - vm_compute. reflexivity.
  - vm_compute. discriminate.
  - vm_compute. reflexivity.
  - vm_compute. reflexivity.
Qed.



(* ================================================================== *)
(** * The model on concrete inputs *)
(* ================================================================== *)

(** ** String helpers *)

Example trim_strips_both_ends :
  trim (lit "  a b 	
") = lit "a b".
Proof. reflexivity. Qed.

Example escapeHtml_all_five :
  escapeHtml (lit "<a href='x'>&</a>")
  = lit "&lt;a href=&#39;x&#39;&gt;&amp;&lt;/a&gt;".
Proof. reflexivity. Qed.

Example escapeHtml_double_quote : escapeHtml dq = lit "&quot;".
Proof. reflexivity. Qed.

Example split_ws_edges :
  split_ws (lit " a  b ") = [[]; lit "a"; lit "b"; []]
  /\ split_ws [] = [[]]
  /\ split_ws (lit "code-block hljs") = [lit "code-block"; lit "hljs"].
Proof. repeat split. Qed.

Example numberToString_examples :
  numberToString 0 = lit "0" /\ numberToString 10 = lit "10"
  /\ numberToString 123 = lit "123".
Proof. repeat split. Qed.

(** ** The criterion pattern *)

Example matchCriterion_integer :
  matchCriterion (lit "[2] Good") = Some (lit "2", lit "Good").
Proof. reflexivity. Qed.

Example matchCriterion_fraction :
  matchCriterion (lit "[1.50]x") = Some (lit "1.50", lit "x").
Proof. reflexivity. Qed.

Example matchCriterion_rejects :
  matchCriterion (lit "[1.] x") = None
  /\ matchCriterion (lit "[.5] x") = None
  /\ matchCriterion (lit "[] x") = None
  /\ matchCriterion (lit "[-1] x") = None
  /\ matchCriterion (lit "x [1] y") = None
  /\ matchCriterion (lit "[1] two
lines") = None.
Proof. repeat split. Qed.

(** Whole numbers and binary fractions are exact; other numerals are
    rounded: 0.1 is 3602879701896397 / 2^55, a numeral of 26 digits gives
    the binary64 value next to it (what is printed as 1e25), 2^53 + 1 lies
    half way between two values and goes to the even one, and a numeral
    of 310 digits is beyond the range. *)
Example parseFloat_examples :
  parseFloat (lit "2") = wholeNumber 2
  /\ parseFloat (lit "007") = wholeNumber 7
  /\ parseFloat (lit "1.50") = Finite (3 * 2 ^ 1073)
  /\ parseFloat (lit "0.1") = Finite (3602879701896397 * 2 ^ 1019)
  /\ parseFloat (lit "9999999999999999999999999.0001")
     = wholeNumber 10000000000000000905969664
  /\ parseFloat (lit "9007199254740993") = wholeNumber 9007199254740992
  /\ parseFloat (lit "9007199254740995") = wholeNumber 9007199254740996
  /\ parseFloat (49%N :: repeat 48%N 309) = Infinity.
Proof.
  repeat match goal with |- _ /\ _ => split end; vm_compute; reflexivity.
Qed.

(** Sums are rounded as well: 0.1 + 0.2 is not 0.3. *)
Example numberAdd_examples :
  numberAdd (parseFloat (lit "0.1")) (parseFloat (lit "0.2"))
  = parseFloat (lit "0.30000000000000004")
  /\ numberAdd (parseFloat (lit "0.1")) (parseFloat (lit "0.2"))
     <> parseFloat (lit "0.3")
  /\ numberAdd (wholeNumber 9007199254740992) (wholeNumber 1)
     = wholeNumber 9007199254740992
  /\ numberAdd (parseFloat (lit "1.5")) (wholeNumber 2)
     = parseFloat (lit "3.5").
Proof.
  repeat match goal with |- _ /\ _ => split end;
    try (vm_compute; reflexivity).
  vm_compute. discriminate.
Qed.

(** The rounding of this module and the operations of [SpecFloat] give the
    same values: the quotient 1 / 10 is the value of the numeral 0.1, the
    sum of the standard library is [numberAdd], and its rounding of a
    whole number is [parseFloat] of the numeral. *)
Example agrees_with_SpecFloat :
  SpecFloat.SFdiv 53 1024 (toSpecFloat (wholeNumber 1))
                  (toSpecFloat (wholeNumber 10))
  = toSpecFloat (parseFloat (lit "0.1"))
  /\ SpecFloat.SFdiv 53 1024 (toSpecFloat (wholeNumber 3))
                     (toSpecFloat (wholeNumber 10))
     = toSpecFloat (parseFloat (lit "0.3"))
  /\ SpecFloat.SFadd 53 1024 (toSpecFloat (parseFloat (lit "0.1")))
                     (toSpecFloat (parseFloat (lit "0.2")))
     = toSpecFloat (numberAdd (parseFloat (lit "0.1"))
                              (parseFloat (lit "0.2")))
  /\ SpecFloat.binary_normalize 53 1024 9999999999999999999999999 0 false
     = toSpecFloat (parseFloat (lit "9999999999999999999999999"))
  /\ SpecFloat.binary_normalize 53 1024 (10 ^ 309) 0 false
     = toSpecFloat (parseFloat (49%N :: repeat 48%N 309)).
Proof.
  repeat match goal with |- _ /\ _ => split end; vm_compute; reflexivity.
Qed.

(** ** Replacement strings *)

Example getSubstitution_patterns :
  getSubstitution (lit "M") (lit "B") (lit "A") [lit "G"]
                  (lit "[$$][$&][$`][$'][$1][$2][$01][$10][$<x>][$")
  = lit "[$][M][B][A][G][$2][G][G0][$<x>][$".
Proof. reflexivity. Qed.

(** ** Attributes of an open tag *)

Example parseAttributes_both_quotes :
  parseAttributes (lit "<code data-lang = 'css' class=" ++ quoted (lit "a b")
                   ++ lit " hidden>")
  = [(lit "data-lang", lit "css"); (lit "class", lit "a b")].
Proof. reflexivity. Qed.

Example addOrUpdateAttribute_inserts_after_the_tag_name :
  addOrUpdateAttribute (lit "<code>") (lit "class") (lit "code-inline")
  = lit "<code class=" ++ quoted (lit "code-inline") ++ lit ">".
Proof. reflexivity. Qed.

Example addOrUpdateAttribute_updates_in_place :
  addOrUpdateAttribute
    (lit "<pre id=" ++ quoted (lit "p") ++ lit " class=" ++ quoted (lit "a")
     ++ lit ">")
    (lit "class") (lit "a code-block")
  = lit "<pre id=" ++ quoted (lit "p") ++ lit " class="
    ++ quoted (lit "a code-block") ++ lit ">".
Proof. reflexivity. Qed.

Example addClasses_merges_without_repeating :
  addClasses (lit "<pre class=" ++ quoted (lit "hljs  wide") ++ lit ">")
             [lit "code-block"; lit "hljs"]
  = lit "<pre class=" ++ quoted (lit "hljs wide code-block") ++ lit ">".
Proof. reflexivity. Qed.

Example detectCodeLanguageFromOpenTag_examples :
  detectCodeLanguageFromOpenTag
    (lit "<code class=" ++ quoted (lit "x language-css") ++ lit ">")
  = Some (lit "css")
  /\ detectCodeLanguageFromOpenTag
       (lit "<code data-language=" ++ quoted (lit " XML ") ++ lit ">")
     = Some (lit "XML")
  /\ detectCodeLanguageFromOpenTag (lit "<code>") = None.
Proof. repeat split. Qed.

(** ** The test suite of the repository *)

Example scoring_test :
  exists parsed,
    renderQtiItemForScoring
      (fun _ => {| documentElement := Some scoringTestItem |})
      [] noScoringOptions = Ok parsed
    /\ identifier parsed = lit "item-1"
    /\ title parsed = lit "Item 1"
    /\ promptHtml parsed
       = lit "<p>Prompt</p><ol class=" ++ quoted (lit "qti-choice-list")
         ++ lit "><li data-choice=" ++ quoted (lit "A") ++ lit ">Alpha</li>"
         ++ lit "<li data-choice=" ++ quoted (lit "B") ++ lit ">Beta</li></ol>"
         ++ lit "<p>" ++ blankRenderer defaultScoringOptions 1 ++ lit "</p>"
    /\ rubricCriteria parsed
       = [{| index := 1; points := wholeNumber 2; text := lit "Good" |}]
    /\ choices parsed
       = [{| co_identifier := lit "A"; co_text := lit "Alpha" |};
          {| co_identifier := lit "B"; co_text := lit "Beta" |}]
    /\ candidateExplanationHtml parsed = None.
Proof.
  eexists. repeat match goal with |- _ /\ _ => split end;
    vm_compute; reflexivity.
Qed.

Example report_test :
  exists parsed,
    renderQtiItemForReport asciiLowerCase
      (fun _ => {| documentElement := Some reportTestItem |})
      [] (lit "item-7") reportTestOptions = Ok parsed
    /\ questionHtml parsed
       = lit "<div class=" ++ quoted (lit "item-body") ++ lit "><p>"
         ++ lit "<pre data-code-lang=" ++ quoted (lit "css")
         ++ lit " class=" ++ quoted (lit "code-block hljs") ++ lit ">"
         ++ lit "<code data-code-lang=" ++ quoted (lit "css")
         ++ lit " class=" ++ quoted (lit "language-css code-block-code")
         ++ lit "><span>css</span></code></pre></p><p>"
         ++ clozeInputHtml defaultReportOptions ++ lit "</p></div>"
    /\ itemMaxScore parsed = wholeNumber 1.
Proof.
  eexists. repeat match goal with |- _ /\ _ => split end;
    vm_compute; reflexivity.
Qed.

(** ** What holds of the class handling of the report passes *)

Lemma setAdd_NoDup merged token :
  NoDup merged -> NoDup (setAdd merged token).
Proof.
  intros Hnd. unfold setAdd, includesString.
  destruct (existsb (fun y => y =?s token) merged) eqn:E; [exact Hnd|].
  apply NoDup_app_intro; [exact Hnd | repeat constructor; intros [] |].
  intros x Hx [Heq | []]. subst x.
  assert (Hex : existsb (fun y => y =?s token) merged = true).
  { apply existsb_exists. exists token.
    split; [exact Hx | apply jseqb_refl]. }
  congruence.
Qed.

Lemma fold_setAdd_NoDup tokens :
  forall merged, NoDup merged -> NoDup (fold_left setAdd tokens merged).
Proof.
  induction tokens as [|t tokens IH]; intros merged Hnd; simpl;
    [exact Hnd|].
  apply IH. apply setAdd_NoDup. exact Hnd.
Qed.

(** The class list that [addClasses] writes names no class twice. *)
Lemma addClasses_merged_NoDup existing classNames :
  NoDup (fold_left setAdd classNames
                   (fold_left setAdd
                              (filter (fun token => 0 <? length token)
                                      (split_ws existing))
                              [])).
Proof. apply fold_setAdd_NoDup, fold_setAdd_NoDup. constructor. Qed.

(** The inline-code pass returns unchanged a code tag whose class
    attribute, as [parseAttributes] reads it, names the block-code
    class. *)
Lemma enhanceInlineCodeTag_skips_block_code toLowerCase options codeOpen :
  includesString
    (split_ws (orElse (attributeOf (parseAttributes codeOpen) (lit "class"))
                      []))
    (codeBlockCodeClassName options) = true ->
  enhanceInlineCodeTag toLowerCase options codeOpen = codeOpen.
Proof. intros H. unfold enhanceInlineCodeTag. rewrite H. reflexivity. Qed.

(** [parseAttributes] reads single-quoted values, [addOrUpdateAttribute]
    only finds double-quoted ones: on a code tag with a single-quoted
    class the code-block pass adds a second class attribute, the inline
    pass reads the old one, and the block-code class is replaced by the
    inline one. *)
Example single_quoted_class_loses_block_class :
  let html := lit "<pre><code class='x'>y</code></pre>" in
  let withCodeBlocks :=
    enhanceCodeBlocks asciiLowerCase (normalizePreBlocks html)
                      defaultReportOptions None in
  withCodeBlocks
  = lit "<pre data-code-lang=" ++ quoted (lit "plain") ++ lit " class="
    ++ quoted (lit "code-block hljs") ++ lit "><code data-code-lang="
    ++ quoted (lit "plain") ++ lit " class=" ++ quoted (lit "x code-block-code")
    ++ lit " class='x'>y</code></pre>"
  /\ enhanceInlineCode asciiLowerCase withCodeBlocks defaultReportOptions
     = lit "<pre data-code-lang=" ++ quoted (lit "plain") ++ lit " class="
       ++ quoted (lit "code-block hljs") ++ lit "><code data-code-lang="
       ++ quoted (lit "plain") ++ lit " class=" ++ quoted (lit "x code-inline")
       ++ lit " class='x'>y</code></pre>".
Proof. split; vm_compute; reflexivity. Qed.


(* ================================================================== *)
(** * Escaping and decoding *)
(* ================================================================== *)

Lemma replaceChar_app c rep a b :
  replaceChar c rep (a ++ b) = replaceChar c rep a ++ replaceChar c rep b.
Proof. unfold replaceChar. apply flat_map_app. Qed.

Lemma escapeHtml_app_units a b :
  escapeHtml (a ++ b) = escapeHtml a ++ escapeHtml b.
Proof. unfold escapeHtml. rewrite !replaceChar_app. reflexivity. Qed.

Ltac case_unit c :=
  destruct (N.eqb_spec c 38) as [->|?]; [|
  destruct (N.eqb_spec c 60) as [->|?]; [|
  destruct (N.eqb_spec c 62) as [->|?]; [|
  destruct (N.eqb_spec c 34) as [->|?]; [|
  destruct (N.eqb_spec c 39) as [->|?]]]]].

Lemma escapeHtml_unit c : escapeHtml [c] = escapeUnit c.
Proof.
  unfold escapeUnit. case_unit c; try reflexivity.
  unfold escapeHtml, replaceChar. cbn [flat_map app].
  repeat match goal with
         | H : c <> _ |- _ =>
             rewrite (proj2 (N.eqb_neq _ _) H); clear H; cbn [flat_map app]
         end.
  reflexivity.
Qed.

Lemma escapeHtml_flat_map s : escapeHtml s = flat_map escapeUnit s.
Proof.
  induction s as [|c s IH]; [reflexivity|].
  change (c :: s) with ([c] ++ s).
  rewrite escapeHtml_app_units, escapeHtml_unit, IH. reflexivity.
Qed.

Lemma escapeUnit_no_delimiter c :
  Forall (fun x => isMarkupDelimiter x = false) (escapeUnit c).
Proof.
  unfold escapeUnit. case_unit c;
    try (repeat constructor; fail).
  constructor; [|constructor]. unfold isMarkupDelimiter.
  repeat match goal with
         | H : c <> _ |- _ => rewrite (proj2 (N.eqb_neq _ _) H); clear H
         end.
  reflexivity.
Qed.

Lemma escapeHtml_no_delimiter value :
  Forall (fun x => isMarkupDelimiter x = false) (escapeHtml value).
Proof.
  rewrite escapeHtml_flat_map.
  induction value as [|c s IH]; simpl; [constructor|].
  apply Forall_app. split; [apply escapeUnit_no_delimiter | exact IH].
Qed.

Lemma escapeHtml_no_quote value : ~ In 34%N (escapeHtml value).
Proof.
  intros H. pose proof (escapeHtml_no_delimiter value) as F.
  rewrite Forall_forall in F. specialize (F _ H). discriminate F.
Qed.

Lemma escapeHtml_plain value :
  forallb (fun c => negb (isHtmlSpecial c)) value = true ->
  escapeHtml value = value.
Proof.
  rewrite escapeHtml_flat_map.
  induction value as [|c s IH]; simpl; [reflexivity|].
  intros H. apply andb_true_iff in H as [Hc Hs].
  rewrite (IH Hs). unfold escapeUnit, isHtmlSpecial in *.
  destruct (N.eqb c 38); [discriminate|].
  destruct (N.eqb c 60); [discriminate|].
  destruct (N.eqb c 62); [discriminate|].
  destruct (N.eqb c 34); [discriminate|].
  destruct (N.eqb c 39); [discriminate|].
  reflexivity.
Qed.

(** X1.  Whatever the text, [escapeHtml] leaves none of the characters
    that open or close a tag or an attribute value: its result holds no
    less-than sign, no greater-than sign, no double quote and no
    apostrophe; and a text that holds none of the five special characters
    is returned as it is. *)
Theorem escapeHtml_leaves_no_markup (value : jsstring) :
  Forall (fun c => c <> 60%N /\ c <> 62%N /\ c <> 34%N /\ c <> 39%N)
         (escapeHtml value)
  /\ (forallb (fun c => negb (isHtmlSpecial c)) value = true ->
      escapeHtml value = value).
Proof.
  split; [|apply escapeHtml_plain].
  eapply Forall_impl; [|apply escapeHtml_no_delimiter].
  intros c H. unfold isMarkupDelimiter in H.
  repeat split; intros ->; discriminate H.
Qed.

Lemma escapeUnit_head c :
  exists x rest, escapeUnit c = x :: rest
                 /\ (rest = [] -> x = c /\ c <> 38%N)
                 /\ (rest <> [] -> x = 38%N).
Proof.
  unfold escapeUnit. case_unit c;
    try (eexists _, _; split; [reflexivity|]; split;
         [discriminate | reflexivity]).
  repeat match goal with
         | H : c <> _ |- _ =>
             rewrite (proj2 (N.eqb_neq _ _) H)
         end.
  exists c, []. split; [reflexivity|]. split; [auto | congruence].
Qed.

Lemma escapeUnit_injective_app x y a b :
  escapeUnit x ++ a = escapeUnit y ++ b -> x = y /\ a = b.
Proof.
  unfold escapeUnit.
  case_unit x; case_unit y; cbn; intros H;
    try (injection H; intros; subst; split; congruence);
    try discriminate H;
    repeat match goal with
           | H : ?c <> _ |- _ =>
               rewrite (proj2 (N.eqb_neq _ _) H) in *; clear H
           end;
    cbn in H; try (injection H; intros; subst; split; congruence).
Qed.

(** X2.  [escapeHtml] loses nothing: two texts with the same escaped form
    are the same text. *)
Theorem escapeHtml_injective (a b : jsstring) :
  escapeHtml a = escapeHtml b -> a = b.
Proof.
  rewrite !escapeHtml_flat_map. revert b.
  induction a as [|x a IH]; intros [|y b] H; simpl in H.
  - reflexivity.
  - destruct (escapeUnit_head y) as (h & r & E & _). rewrite E in H.
    discriminate H.
  - destruct (escapeUnit_head x) as (h & r & E & _). rewrite E in H.
    discriminate H.
  - apply escapeUnit_injective_app in H as [-> H]. f_equal. apply IH, H.
Qed.

Lemma escapeHtml_injective_witness :
  escapeHtml (lit "a<b") = escapeHtml (lit "a<b") /\ lit "a<b" = lit "a<b".
Proof.
  split; [reflexivity|].
  apply (escapeHtml_injective (lit "a<b") (lit "a<b")). reflexivity.
Defined.

(** *** Decoding what was escaped *)

Lemma replaceLiteral_flat_map pat rep (f g : N -> jsstring) s :
  (forall c rest,
      replaceLiteral pat rep 0 (f c ++ rest)
      = g c ++ replaceLiteral pat rep 0 rest) ->
  replaceLiteral pat rep 0 (flat_map f s) = flat_map g s.
Proof.
  intros H. induction s as [|c s IH]; [reflexivity|].
  simpl. rewrite H, IH. reflexivity.
Qed.

Lemma replaceLiteral_other_head pat rep p c s :
  c <> p ->
  replaceLiteral (p :: pat) rep 0 (c :: s)
  = c :: replaceLiteral (p :: pat) rep 0 s.
Proof.
  intros H. cbn [replaceLiteral startsWith].
  rewrite (proj2 (N.eqb_neq _ _) H). reflexivity.
Qed.

Lemma replaceLiteral_absent pat rep s :
  includes s pat = false -> replaceLiteral pat rep 0 s = s.
Proof.
  induction s as [|c s IH]; [reflexivity|].
  cbn [includes replaceLiteral]. intros H.
  apply orb_false_iff in H as [H1 H2]. rewrite H1, (IH H2). reflexivity.
Qed.

Lemma startsWith_nil s : startsWith s [] = true.
Proof. destruct s; reflexivity. Qed.

Lemma startsWith_cons c s p prefix :
  startsWith (c :: s) (p :: prefix) = (N.eqb c p && startsWith s prefix)%bool.
Proof. reflexivity. Qed.

Ltac unit_cases c :=
  case_unit c; cbn; rewrite ?startsWith_nil;
  repeat match goal with
         | H : c <> _ |- _ =>
             rewrite (proj2 (N.eqb_neq _ _) H); cbn
         end.

Lemma decode_lt s :
  replaceLiteral (lit "&lt;") [60%N] 0 (flat_map escapeUnit s)
  = flat_map afterLt s.
Proof.
  apply replaceLiteral_flat_map. intros c rest.
  unfold afterLt, escapeUnit. unit_cases c; reflexivity.
Qed.

Lemma decode_gt s :
  replaceLiteral (lit "&gt;") [62%N] 0 (flat_map afterLt s)
  = flat_map afterGt s.
Proof.
  apply replaceLiteral_flat_map. intros c rest.
  unfold afterGt, afterLt, escapeUnit. unit_cases c; reflexivity.
Qed.

Lemma decode_amp s :
  replaceLiteral (lit "&amp;") [38%N] 0 (flat_map afterGt s)
  = flat_map afterAmp s.
Proof.
  apply replaceLiteral_flat_map. intros c rest.
  unfold afterAmp, afterGt, afterLt, escapeUnit. unit_cases c;
    reflexivity.
Qed.

(** A prefix without ampersand or double quote is seen through
    [afterAmp]. *)
Lemma startsWith_afterAmp p s :
  Forall (fun c => c <> 38%N /\ c <> 34%N) p ->
  ~ In 39%N s ->
  startsWith (flat_map afterAmp s) p = startsWith s p.
Proof.
  intros Hp. revert s. induction Hp as [|x p [Hx1 Hx2] Hp IH]; intros s Hs.
  - destruct s, (flat_map afterAmp _); reflexivity.
  - destruct s as [|c s]; [reflexivity|].
    assert (Hc : c <> 39%N) by (intros ->; apply Hs; left; reflexivity).
    assert (Hs' : ~ In 39%N s) by (intros H; apply Hs; right; exact H).
    cbn [flat_map]. unfold afterAmp at 1, afterGt, afterLt, escapeUnit.
    destruct (N.eqb_spec c 38) as [->|H38].
    { cbn [app startsWith]. rewrite IH by exact Hs'. reflexivity. }
    destruct (N.eqb_spec c 62) as [->|H62].
    { cbn [app startsWith]. rewrite IH by exact Hs'. reflexivity. }
    destruct (N.eqb_spec c 60) as [->|H60].
    { cbn [app startsWith]. rewrite IH by exact Hs'. reflexivity. }
    destruct (N.eqb_spec c 34) as [->|H34].
    { change (lit "&quot;") with (38%N :: lit "quot;").
      cbn [app]. rewrite !startsWith_cons.
      rewrite (proj2 (N.eqb_neq 38 x)) by congruence.
      rewrite (proj2 (N.eqb_neq 34 x)) by congruence. reflexivity. }
    destruct (N.eqb_spec c 39) as [->|H39]; [congruence|].
    cbn [app startsWith]. rewrite IH by exact Hs'. reflexivity.
Qed.

Lemma decode_quot s :
  ~ In 39%N s ->
  includes s (lit "&quot;") = false ->
  replaceLiteral (lit "&quot;") [34%N] 0 (flat_map afterAmp s) = s.
Proof.
  change (lit "&quot;") with (38%N :: lit "quot;").
  induction s as [|c s IH]; [reflexivity|].
  intros Hs Hinc.
  assert (Hc : c <> 39%N) by (intros ->; apply Hs; left; reflexivity).
  assert (Hs' : ~ In 39%N s) by (intros H; apply Hs; right; exact H).
  cbn [includes] in Hinc. apply orb_false_iff in Hinc as [Hhere Hrest].
  specialize (IH Hs' Hrest).
  cbn [flat_map]. unfold afterAmp at 1, afterGt, afterLt, escapeUnit.
  destruct (N.eqb_spec c 38) as [->|H38].
  { cbn [app]. rewrite startsWith_cons, N.eqb_refl in Hhere.
    cbn [andb] in Hhere.
    cbn [replaceLiteral]. rewrite startsWith_cons, N.eqb_refl.
    cbn [andb].
    rewrite startsWith_afterAmp; [|repeat constructor; discriminate|exact Hs'].
    rewrite Hhere, IH. reflexivity. }
  destruct (N.eqb_spec c 62) as [->|H62].
  { cbn [app]. rewrite replaceLiteral_other_head by discriminate.
    rewrite IH. reflexivity. }
  destruct (N.eqb_spec c 60) as [->|H60].
  { cbn [app]. rewrite replaceLiteral_other_head by discriminate.
    rewrite IH. reflexivity. }
  destruct (N.eqb_spec c 34) as [->|H34].
  { change (lit "&quot;") with (38%N :: lit "quot;").
    cbn [app replaceLiteral]. rewrite startsWith_cons, N.eqb_refl.
    cbn [andb].
    replace (startsWith (lit "quot;" ++ flat_map afterAmp s) (lit "quot;"))
      with true by (symmetry; apply startsWith_app).
    cbn. f_equal. exact IH. }
  destruct (N.eqb_spec c 39) as [->|H39]; [congruence|].
  cbn [app].
  rewrite replaceLiteral_other_head by exact H38.
  rewrite IH. reflexivity.
Qed.

(** X3.  [decodeXmlEntities] undoes [escapeHtml] on every text that holds
    no apostrophe (which [escapeHtml] writes as a numeric reference that
    [decodeXmlEntities] does not know) and neither of the entity names
    that the later replacements of [decodeXmlEntities] would read a second
    time. *)
Theorem decodeXmlEntities_undoes_escapeHtml (s : jsstring) :
  includes s (lit "'") = false ->
  includes s (lit "&quot;") = false ->
  includes s (lit "&apos;") = false ->
  decodeXmlEntities (escapeHtml s) = s.
Proof.
  intros Hapos Hquot Hap.
  assert (H39 : ~ In 39%N s).
  { clear Hquot Hap. induction s as [|c s IH]; [intros []|].
    cbn [includes] in Hapos. apply orb_false_iff in Hapos as [H1 H2].
    intros [Heq | H]; [|exact (IH H2 H)].
    subst c. cbn in H1. destruct s; discriminate H1. }
  unfold decodeXmlEntities.
  rewrite escapeHtml_flat_map, decode_lt, decode_gt, decode_amp.
  rewrite (decode_quot s H39 Hquot).
  apply replaceLiteral_absent. exact Hap.
Qed.

Lemma decodeXmlEntities_undoes_escapeHtml_witness :
  decodeXmlEntities (escapeHtml (lit "if (a < b && c > 0) print(&s, x);"))
  = lit "if (a < b && c > 0) print(&s, x);".
Proof.
  apply decodeXmlEntities_undoes_escapeHtml; reflexivity.
Defined.

(** The conditions are needed: an apostrophe comes back as a numeric
    reference, and an entity name written in the text is decoded although
    nobody encoded it. *)
Example decodeXmlEntities_not_always_inverse :
  decodeXmlEntities (escapeHtml (lit "it's")) = lit "it&#39;s"
  /\ decodeXmlEntities (escapeHtml (lit "&quot;")) = dq.
Proof. split; reflexivity. Qed.


(* ================================================================== *)
(** * Opening tags as the report passes read and write them *)
(* ================================================================== *)

Ltac char_classes :=
  unfold isAttrNameStart, isAttrNameChar, isTagNameChar, isLanguageChar,
    isWordChar, isAsciiLetter, isDigit, isWhiteSpace in *.

Ltac to_prop :=
  rewrite ?orb_true_iff, ?andb_true_iff, ?N.leb_le, ?N.eqb_eq in *.

Ltac class_false :=
  char_classes; apply not_true_is_false; intro; to_prop; lia.

Ltac class_true := char_classes; to_prop; lia.

Lemma isAttrNameStart_char c :
  isAttrNameStart c = true -> isAttrNameChar c = true.
Proof. intros H. class_true. Qed.

Lemma isAttrNameChar_not_space c :
  isAttrNameChar c = true -> isWhiteSpace c = false.
Proof. intros H. class_false. Qed.

Lemma isAttrNameChar_not_special c :
  isAttrNameChar c = true ->
  c <> 61%N /\ c <> 34%N /\ c <> 36%N /\ c <> 62%N /\ c <> 60%N.
Proof. intros H. char_classes. to_prop. lia. Qed.

Lemma isAttrNameStart_not_special c :
  isAttrNameStart c = true -> c <> 61%N /\ isWhiteSpace c = false.
Proof.
  intros H. split.
  - apply isAttrNameStart_char, isAttrNameChar_not_special in H. tauto.
  - apply isAttrNameChar_not_space, isAttrNameStart_char, H.
Qed.

Lemma isTagNameChar_attr c : isTagNameChar c = true -> isAttrNameChar c = true.
Proof. intros H. class_true. Qed.

Lemma isPlainAttrName_chars name :
  isPlainAttrName name = true ->
  name <> [] /\ Forall (fun c => isAttrNameChar c = true) name.
Proof.
  destruct name as [|c r]; [discriminate|]. cbn [isPlainAttrName].
  intros H. apply andb_true_iff in H as [Hc Hr]. split; [discriminate|].
  constructor; [apply isAttrNameStart_char, Hc|].
  apply Forall_forall. intros x Hx.
  rewrite forallb_forall in Hr. apply Hr, Hx.
Qed.

(** *** Reading attributes *)

Lemma scanAttributes_skip w s :
  scanAttributes (length w) (w ++ s) = scanAttributes 0 s.
Proof.
  induction w as [|c w IH]; [reflexivity|]. exact IH.
Qed.

Lemma scanAttributes_no_match c s :
  matchAttribute (c :: s) = None ->
  scanAttributes 0 (c :: s) = scanAttributes 0 s.
Proof. intros H. cbn [scanAttributes]. rewrite H. reflexivity. Qed.

Lemma scanAttributes_match c s len name value :
  matchAttribute (c :: s) = Some (len, name, value) ->
  scanAttributes 0 (c :: s) = (name, value) :: scanAttributes (len - 1) s.
Proof. intros H. cbn [scanAttributes]. rewrite H. reflexivity. Qed.

Lemma findFrom_single q v rest :
  ~ In q v -> findFrom [q] (v ++ q :: rest) = Some (v, rest).
Proof.
  induction v as [|x v IH]; intros Hq.
  - cbn [app findFrom]. rewrite startsWith_cons, N.eqb_refl, startsWith_nil.
    reflexivity.
  - cbn [app findFrom]. rewrite startsWith_cons.
    rewrite (proj2 (N.eqb_neq x q)).
    + cbn [andb]. rewrite IH; [reflexivity|].
      intros H. apply Hq. right. exact H.
    + intros ->. apply Hq. left. reflexivity.
Qed.

Lemma dropWhile_here (p : N -> bool) c s :
  p c = false -> dropWhile p (c :: s) = c :: s.
Proof. intros H. cbn [dropWhile]. rewrite H. reflexivity. Qed.

Lemma takeWhile_here (p : N -> bool) c s :
  p c = false -> takeWhile p (c :: s) = [].
Proof. intros H. cbn [takeWhile]. rewrite H. reflexivity. Qed.

(** The text of an attribute, unit by unit. *)
Lemma attributeText_app (name v rest : jsstring) :
  attributeText (name, v) ++ rest
  = 32%N :: name ++ 61%N :: 34%N :: v ++ 34%N :: rest.
Proof.
  unfold attributeText, quoted, dq. cbn [fst snd].
  change (lit " ") with [32%N]. change (lit "=") with [61%N].
  rewrite <- !app_assoc. reflexivity.
Qed.

Lemma matchAttribute_text (name v rest : jsstring) :
  isPlainAttrName name = true ->
  ~ In 34%N v ->
  matchAttribute (name ++ 61%N :: 34%N :: v ++ 34%N :: rest)
  = Some (length name + 3 + length v, name, v).
Proof.
  intros Hname Hv. destruct name as [|c r]; [discriminate|].
  cbn [isPlainAttrName] in Hname. apply andb_true_iff in Hname as [Hc Hr].
  assert (Fr : Forall (fun x => isAttrNameChar x = true) r).
  { apply Forall_forall. intros x Hx. rewrite forallb_forall in Hr.
    apply Hr, Hx. }
  unfold matchAttribute. cbn [app]. rewrite Hc.
  destruct (takeWhile_stop isAttrNameChar r 61%N (34%N :: v ++ 34%N :: rest)
              Fr eq_refl) as [Ht Hd].
  rewrite Ht, Hd.
  rewrite (dropWhile_here isWhiteSpace 61%N) by reflexivity.
  rewrite (takeWhile_here isWhiteSpace 61%N) by reflexivity.
  rewrite (dropWhile_here isWhiteSpace 34%N) by reflexivity.
  rewrite (takeWhile_here isWhiteSpace 34%N) by reflexivity.
  change (N.eqb 34 34 || N.eqb 34 39) with true. cbv iota.
  rewrite (findFrom_single 34%N v rest Hv).
  f_equal. f_equal. f_equal. cbn [length]. lia.
Qed.

Lemma matchAttribute_name_run w s :
  Forall (fun c => isAttrNameChar c = true) w ->
  noAssignment s ->
  matchAttribute (w ++ s) = None.
Proof.
  intros Hw [Ht Hd]. destruct w as [|c w].
  - cbn [app]. unfold matchAttribute. destruct s as [|c s]; [reflexivity|].
    destruct (isAttrNameStart c) eqn:E; [|reflexivity].
    apply isAttrNameStart_char in E. cbn [takeWhile] in Ht.
    rewrite E in Ht. discriminate Ht.
  - cbn [app]. unfold matchAttribute.
    destruct (isAttrNameStart c); [|reflexivity].
    inversion Hw as [|? ? Hc Hw']; subst.
    rewrite dropWhile_app_all by exact Hw'.
    assert (Hds : dropWhile isAttrNameChar s = s).
    { rewrite <- (takeWhile_dropWhile isAttrNameChar s) at 2.
      rewrite Ht. reflexivity. }
    rewrite Hds.
    destruct (dropWhile isWhiteSpace s) as [|x r]; [reflexivity|].
    destruct (N.eqb_spec x 61) as [->|Hx]; [congruence|].
    destruct x as [|p]; [reflexivity|].
    do 7 (try (destruct p as [p|p|]; try reflexivity)).
    congruence.
Qed.

Lemma scanAttributes_name_run w s :
  Forall (fun c => isAttrNameChar c = true) w ->
  noAssignment s ->
  scanAttributes 0 (w ++ s) = scanAttributes 0 s.
Proof.
  intros Hw Hs. induction Hw as [|c w Hc Hw IH]; [reflexivity|].
  cbn [app]. rewrite scanAttributes_no_match; [exact IH|].
  apply (matchAttribute_name_run (c :: w) s); [|exact Hs].
  constructor; assumption.
Qed.

Lemma matchAttribute_not_start c s :
  isAttrNameStart c = false -> matchAttribute (c :: s) = None.
Proof. intros H. unfold matchAttribute. rewrite H. reflexivity. Qed.

Lemma holdsUnit_false c s : holdsUnit c s = false <-> ~ In c s.
Proof.
  unfold holdsUnit. split.
  - intros H Hin. apply (existsb_false_In _ _ H) in Hin.
    rewrite N.eqb_refl in Hin. discriminate Hin.
  - intros H. apply not_true_is_false. intros E.
    apply existsb_exists in E as (x & Hx & Ex).
    apply N.eqb_eq in Ex. subst x. exact (H Hx).
Qed.

Lemma isReadable_readable attrs : isReadable attrs = true -> readable attrs.
Proof.
  unfold isReadable, readable. rewrite forallb_forall, Forall_forall.
  intros H a Ha. specialize (H a Ha). apply andb_true_iff in H as [H1 H2].
  split; [exact H1|]. apply holdsUnit_false, negb_true_iff, H2.
Qed.

Lemma attributesText_cons a attrs rest :
  attributesText (a :: attrs) ++ rest
  = attributeText a ++ attributesText attrs ++ rest.
Proof.
  unfold attributesText. cbn [map concat]. rewrite <- app_assoc.
  reflexivity.
Qed.

Lemma scanAttributes_attributesText attrs closing :
  readable attrs ->
  scanAttributes 0 closing = [] ->
  scanAttributes 0 (attributesText attrs ++ closing) = attrs.
Proof.
  intros Hattrs Hclosing.
  induction Hattrs as [|[name v] attrs [Hname Hv] _ IH]; [exact Hclosing|].
  cbn [fst snd] in *.
  rewrite attributesText_cons, attributeText_app.
  rewrite scanAttributes_no_match
    by (apply matchAttribute_not_start; reflexivity).
  pose proof (matchAttribute_text name v (attributesText attrs ++ closing)
                Hname Hv) as Hm.
  destruct name as [|c r]; [discriminate|].
  cbn [app] in Hm |- *.
  rewrite (scanAttributes_match _ _ _ _ _ Hm). f_equal.
  replace (length (c :: r) + 3 + length v - 1)
    with (length (r ++ 61%N :: 34%N :: v ++ [34%N])).
  - replace (r ++ 61%N :: 34%N :: v ++ 34%N :: attributesText attrs ++ closing)
      with ((r ++ 61%N :: 34%N :: v ++ [34%N])
            ++ attributesText attrs ++ closing).
    + rewrite scanAttributes_skip. exact IH.
    + rewrite <- !app_assoc. cbn [app]. rewrite <- !app_assoc. reflexivity.
  - rewrite !length_app. cbn [length]. rewrite !length_app. cbn [length]. lia.
Qed.

Lemma noAssignment_attributesText attrs :
  readable attrs -> noAssignment (attributesText attrs ++ lit ">").
Proof.
  intros Hattrs. destruct Hattrs as [|[name v] attrs [Hname Hv] _].
  - split; [reflexivity|]. cbn. discriminate.
  - cbn [fst snd] in *. rewrite attributesText_cons, attributeText_app.
    split; [reflexivity|].
    destruct name as [|c r]; [discriminate|].
    cbn [isPlainAttrName] in Hname. apply andb_true_iff in Hname as [Hc _].
    apply isAttrNameStart_not_special in Hc as [Hc1 Hc2].
    cbn [app dropWhile]. change (isWhiteSpace 32) with true. cbv iota.
    rewrite Hc2. exact Hc1.
Qed.

Lemma parseAttributes_openTag tag attrs :
  Forall (fun c => isAttrNameChar c = true) tag ->
  readable attrs ->
  parseAttributes (openTag tag attrs) = filter makesProperty attrs.
Proof.
  intros Htag Hattrs. unfold parseAttributes, openTag.
  change (lit "<") with [60%N]. cbn [app].
  rewrite scanAttributes_no_match
    by (apply matchAttribute_not_start; reflexivity).
  rewrite scanAttributes_name_run;
    [|exact Htag|apply noAssignment_attributesText, Hattrs].
  rewrite scanAttributes_attributesText; [reflexivity|exact Hattrs|reflexivity].
Qed.

Lemma lookupAttr_filter (keep : jsstring * jsstring -> bool) name l :
  (forall v, keep (name, v) = true) ->
  lookupAttr name (filter keep l) = lookupAttr name l.
Proof.
  intros Hkeep. induction l as [|[k v] l IH]; [reflexivity|].
  cbn [filter lookupAttr]. destruct (k =?s name) eqn:E.
  - apply jseqb_eq in E. subst k. rewrite Hkeep. cbn [lookupAttr].
    rewrite jseqb_refl. reflexivity.
  - destruct (keep (k, v)); [|exact IH]. cbn [lookupAttr]. rewrite E.
    exact IH.
Qed.

(** A property that is not [__proto__] is read as it was assigned. *)
Lemma attributeOf_makesProperty attrs name :
  name <> lit "__proto__" ->
  attributeOf (filter makesProperty attrs) name = attributeOf attrs name.
Proof.
  intros Hname. unfold attributeOf. rewrite <- filter_rev.
  apply lookupAttr_filter. intros v. unfold makesProperty. cbn [fst].
  apply negb_true_iff. apply not_true_is_false. intros E.
  apply jseqb_eq in E. exact (Hname E).
Qed.

Lemma attributeOf_openTag tag attrs name :
  Forall (fun c => isAttrNameChar c = true) tag ->
  readable attrs ->
  name <> lit "__proto__" ->
  attributeOf (parseAttributes (openTag tag attrs)) name
  = attributeOf attrs name.
Proof.
  intros Htag Hattrs Hname. rewrite parseAttributes_openTag by assumption.
  apply attributeOf_makesProperty, Hname.
Qed.

Lemma serializeAttributes_text el :
  serializeAttributes el
  = attributesText
      (map (fun a => (fst a, escapeHtml (snd a)))
           (filter (fun a => negb (isNamespaceDeclaration a))
                   (attributes el))).
Proof.
  unfold serializeAttributes, attributesText, join. rewrite map_map.
  reflexivity.
Qed.

(** X4.  What [serializeAttributes] writes, [parseAttributes] reads back:
    for an element whose attribute names are plain (they match the name
    part of the attribute pattern), the opening tag that
    [renderNodeForReport] builds from a tag name and the serialized
    attributes is parsed into the attributes of the element, in their
    order, each with its escaped value, without the namespace declarations
    (which are not written) and without an attribute named [__proto__]
    (which is written, and lost when the record is filled). *)
Theorem parseAttributes_reads_serializeAttributes (tag : jsstring) (el : Node) :
  forallb isAttrNameChar tag = true ->
  forallb (fun a => isPlainAttrName (fst a)) (attributes el) = true ->
  parseAttributes (lit "<" ++ tag ++ serializeAttributes el ++ lit ">")
  = map (fun a => (fst a, escapeHtml (snd a)))
        (filter (fun a => negb ((fst a =?s lit "xmlns")
                                || startsWith (fst a) (lit "xmlns:"))
                          && negb (fst a =?s lit "__proto__"))
                (attributes el)).
Proof.
  intros Htag Hnames. rewrite serializeAttributes_text.
  change (lit "<" ++ tag ++ attributesText ?a ++ lit ">") with (openTag tag a).
  rewrite parseAttributes_openTag.
  - clear Hnames. induction (attributes el) as [|[k v] l IH]; [reflexivity|].
    cbn [filter map fst snd]. unfold isNamespaceDeclaration at 1.
    cbn [fst].
    destruct (negb ((k =?s lit "xmlns") || startsWith k (lit "xmlns:")));
      cbn [andb]; [|exact IH].
    cbn [map filter fst snd]. unfold makesProperty at 1. cbn [fst].
    destruct (negb (k =?s lit "__proto__")); [|exact IH].
    cbn [map fst snd]. f_equal. exact IH.
  - apply Forall_forall. intros c Hc. rewrite forallb_forall in Htag.
    apply Htag, Hc.
  - unfold readable. apply Forall_forall. intros a Ha.
    apply in_map_iff in Ha as ([k v] & <- & Hin).
    apply filter_In in Hin as [Hin _]. cbn [fst snd]. split.
    + rewrite forallb_forall in Hnames. apply (Hnames _ Hin).
    + apply escapeHtml_no_quote.
Qed.

Lemma parseAttributes_reads_serializeAttributes_witness :
  serializeAttributes serializedExample
  = lit " class=" ++ quoted (lit "language-js")
    ++ lit " __proto__=" ++ quoted (lit "x")
    ++ lit " title=" ++ quoted (lit "a &quot;b&quot; &lt;c&gt;")
  /\ parseAttributes (lit "<" ++ lit "code"
                      ++ serializeAttributes serializedExample ++ lit ">")
     = [ attr "class" "language-js";
         attr "title" "a &quot;b&quot; &lt;c&gt;" ].
Proof.
  split; [vm_compute; reflexivity|].
  apply (parseAttributes_reads_serializeAttributes (lit "code")
           serializedExample); reflexivity.
Defined.

(** *** Setting an attribute *)

Lemma isUpdatable_updatable attrs : isUpdatable attrs = true -> updatable attrs.
Proof.
  unfold isUpdatable, updatable. intros H.
  apply andb_true_iff in H as [H1 H2]. split.
  - apply isReadable_readable, H1.
  - apply Forall_forall. intros a Ha. rewrite forallb_forall in H2.
    apply negb_true_iff, H2, Ha.
Qed.

Lemma prepend_app a b r : prepend a (prepend b r) = prepend (a ++ b) r.
Proof.
  destruct r as [[[x y] z]|]; [|reflexivity]. cbn [prepend].
  rewrite app_assoc. reflexivity.
Qed.

Lemma splitAtMatch_none_here matchAt c s :
  matchAt (c :: s) = None ->
  splitAtMatch matchAt (c :: s) = prepend [c] (splitAtMatch matchAt s).
Proof.
  intros H. cbn [splitAtMatch]. rewrite H.
  destruct (splitAtMatch matchAt s) as [[[x y] z]|]; reflexivity.
Qed.

Lemma splitAtMatch_here matchAt s len :
  matchAt s = Some len ->
  splitAtMatch matchAt s = Some ([], firstn len s, skipn len s).
Proof. intros H. destruct s; cbn [splitAtMatch]; rewrite H; reflexivity. Qed.

Lemma matchAttributeNamed_not_space name c s :
  isWhiteSpace c = false -> matchAttributeNamed name (c :: s) = None.
Proof. intros H. unfold matchAttributeNamed. rewrite H. reflexivity. Qed.

Lemma splitAtMatch_name_run name w s :
  Forall (fun c => isWhiteSpace c = false) w ->
  splitAtMatch (matchAttributeNamed name) (w ++ s)
  = prepend w (splitAtMatch (matchAttributeNamed name) s).
Proof.
  induction 1 as [|c w Hc Hw IH].
  - cbn [app]. destruct (splitAtMatch _ s) as [[[x y] z]|]; reflexivity.
  - cbn [app]. rewrite splitAtMatch_none_here
      by (apply matchAttributeNamed_not_space, Hc).
    rewrite IH, prepend_app. reflexivity.
Qed.

Lemma endsWith_equals_last v :
  endsWith v (lit "=") = false <-> last v 0%N <> 61%N.
Proof.
  unfold endsWith. change (rev (lit "=")) with [61%N].
  destruct v as [|x v] using rev_ind.
  - cbn. split; [discriminate | reflexivity].
  - rewrite rev_app_distr, last_last. cbn [rev app].
    rewrite startsWith_cons, startsWith_nil, andb_true_r.
    split; [apply N.eqb_neq | apply N.eqb_neq].
Qed.

Lemma last_tail (x y : N) u : last (x :: y :: u) 0%N = last (y :: u) 0%N.
Proof. reflexivity. Qed.

(** Inside a value that holds no double quote and does not end with an
    equals sign, the pattern of [addOrUpdateAttribute] finds nothing. *)
Lemma startsWith_inside_value name :
  ~ In 34%N name ->
  forall u X,
    ~ In 34%N u -> last u 0%N <> 61%N ->
    startsWith (u ++ 34%N :: X) (name ++ [61%N; 34%N]) = false.
Proof.
  induction name as [|n name IH]; intros Hname u X Hu Hlast.
  - cbn [app]. destruct u as [|x [|y u]].
    + reflexivity.
    + cbn [app]. rewrite startsWith_cons.
      cbn [last] in Hlast. rewrite (proj2 (N.eqb_neq _ _) Hlast).
      reflexivity.
    + cbn [app]. rewrite !startsWith_cons.
      rewrite (proj2 (N.eqb_neq y 34)).
      * rewrite andb_false_r. reflexivity.
      * intros ->. apply Hu. right. left. reflexivity.
  - cbn [app]. destruct u as [|x u].
    + cbn [app]. rewrite startsWith_cons.
      rewrite (proj2 (N.eqb_neq 34 n)); [reflexivity|].
      intros <-. apply Hname. left. reflexivity.
    + cbn [app]. rewrite startsWith_cons. rewrite IH.
      * apply andb_false_r.
      * intros H. apply Hname. right. exact H.
      * intros H. apply Hu. right. exact H.
      * destruct u as [|y u]; [cbn; discriminate|].
        rewrite last_tail in Hlast. exact Hlast.
Qed.

Lemma splitAtMatch_value_run name u X :
  ~ In 34%N name ->
  ~ In 34%N u -> last u 0%N <> 61%N ->
  splitAtMatch (matchAttributeNamed name) (u ++ 34%N :: X)
  = prepend u (splitAtMatch (matchAttributeNamed name) (34%N :: X)).
Proof.
  intros Hname. induction u as [|x u IH]; intros Hu Hlast.
  - cbn [app]. destruct (splitAtMatch _ _) as [[[a b] c]|]; reflexivity.
  - cbn [app]. rewrite splitAtMatch_none_here.
    + rewrite IH.
      * rewrite prepend_app. reflexivity.
      * intros H. apply Hu. right. exact H.
      * destruct u as [|y u]; [cbn; discriminate|].
        rewrite last_tail in Hlast. exact Hlast.
    + unfold matchAttributeNamed.
      destruct (isWhiteSpace x); [|reflexivity]. cbn [andb].
      change (name ++ lit "=" ++ dq) with (name ++ [61%N; 34%N]).
      rewrite startsWith_inside_value; [reflexivity|exact Hname| |].
      * intros H. apply Hu. right. exact H.
      * destruct u as [|y u]; [cbn; discriminate|].
        rewrite last_tail in Hlast. exact Hlast.
Qed.

Lemma startsWith_name_eq k name X :
  ~ In 61%N k -> ~ In 61%N name ->
  startsWith (k ++ 61%N :: 34%N :: X) (name ++ [61%N; 34%N]) = (k =?s name).
Proof.
  revert name. induction k as [|x k IH]; intros [|y name] Hk Hname.
  - cbn [app]. rewrite !startsWith_cons, startsWith_nil. reflexivity.
  - cbn [app jseqb]. rewrite startsWith_cons.
    rewrite (proj2 (N.eqb_neq 61 y)); [reflexivity|].
    intros <-. apply Hname. left. reflexivity.
  - cbn [app jseqb]. rewrite startsWith_cons.
    rewrite (proj2 (N.eqb_neq x 61)); [reflexivity|].
    intros ->. apply Hk. left. reflexivity.
  - cbn [app jseqb]. rewrite startsWith_cons. rewrite IH; [reflexivity| |].
    + intros H. apply Hk. right. exact H.
    + intros H. apply Hname. right. exact H.
Qed.

Lemma skipn_app_exact {A : Type} (a b : list A) n :
  n = length a -> skipn n (a ++ b) = b.
Proof.
  intros ->. induction a as [|x a IH]; [reflexivity|]. exact IH.
Qed.

Lemma firstn_app_exact {A : Type} (a b : list A) n :
  n = length a -> firstn n (a ++ b) = a.
Proof.
  intros ->. induction a as [|x a IH]; [reflexivity|].
  cbn [length app firstn]. rewrite IH. reflexivity.
Qed.

Lemma plain_name_facts name :
  isPlainAttrName name = true ->
  ~ In 61%N name /\ ~ In 34%N name /\ ~ In 36%N name
  /\ Forall (fun c => isWhiteSpace c = false) name.
Proof.
  intros H. apply isPlainAttrName_chars in H as [_ F].
  rewrite Forall_forall in F.
  repeat split;
    try (intros Hin; apply F, isAttrNameChar_not_special in Hin; tauto).
  apply Forall_forall. intros c Hc. apply isAttrNameChar_not_space, F, Hc.
Qed.

Lemma attributeText_length (name v : jsstring) :
  length (attributeText (name, v)) = 1 + length name + 2 + length v + 1.
Proof.
  unfold attributeText, quoted, dq. cbn [fst snd].
  rewrite !length_app. cbn [length lit map String.list_ascii_of_string].
  lia.
Qed.

Lemma matchAttributeNamed_text (name k v rest : jsstring) :
  isPlainAttrName k = true -> isPlainAttrName name = true ->
  ~ In 34%N v ->
  matchAttributeNamed name (attributeText (k, v) ++ rest)
  = if k =?s name then Some (length (attributeText (k, v))) else None.
Proof.
  intros Hk Hname Hv.
  destruct (plain_name_facts k Hk) as (Hk61 & _).
  destruct (plain_name_facts name Hname) as (Hn61 & _).
  rewrite attributeText_length, attributeText_app.
  unfold matchAttributeNamed. change (isWhiteSpace 32) with true.
  cbn [andb]. change (name ++ lit "=" ++ dq) with (name ++ [61%N; 34%N]).
  rewrite startsWith_name_eq by assumption.
  destruct (k =?s name) eqn:E; [|reflexivity].
  apply jseqb_eq in E. subst k.
  replace (name ++ 61%N :: 34%N :: v ++ 34%N :: rest)
    with ((name ++ [61%N; 34%N]) ++ v ++ 34%N :: rest)
    by (rewrite <- app_assoc; reflexivity).
  rewrite skipn_app_exact by (rewrite length_app; cbn [length]; lia).
  unfold dq. rewrite (findFrom_single 34%N v rest Hv). reflexivity.
Qed.

Lemma splitAtMatch_attribute_other (name k v rest : jsstring) :
  isPlainAttrName k = true -> isPlainAttrName name = true ->
  ~ In 34%N v -> endsWith v (lit "=") = false ->
  (k =?s name) = false ->
  splitAtMatch (matchAttributeNamed name) (attributeText (k, v) ++ rest)
  = prepend (attributeText (k, v))
            (splitAtMatch (matchAttributeNamed name) rest).
Proof.
  intros Hk Hname Hv Hend Hne.
  pose proof (matchAttributeNamed_text name k v rest Hk Hname Hv) as Hm.
  rewrite Hne in Hm.
  destruct (plain_name_facts k Hk) as (_ & _ & _ & Hkws).
  destruct (plain_name_facts name Hname) as (_ & Hn34 & _).
  apply endsWith_equals_last in Hend.
  rewrite attributeText_app in *.
  rewrite splitAtMatch_none_here by exact Hm.
  rewrite splitAtMatch_name_run by exact Hkws.
  rewrite (splitAtMatch_none_here _ 61%N)
    by (apply matchAttributeNamed_not_space; reflexivity).
  rewrite (splitAtMatch_none_here _ 34%N)
    by (apply matchAttributeNamed_not_space; reflexivity).
  rewrite splitAtMatch_value_run by assumption.
  rewrite (splitAtMatch_none_here _ 34%N)
    by (apply matchAttributeNamed_not_space; reflexivity).
  rewrite !prepend_app. f_equal.
  rewrite <- (app_nil_r (attributeText (k, v))), attributeText_app.
  rewrite <- !app_assoc. reflexivity.
Qed.

Lemma splitAtMatch_attributes name attrs closing :
  isPlainAttrName name = true ->
  updatable attrs ->
  splitAtMatch (matchAttributeNamed name) closing = None ->
  splitAtMatch (matchAttributeNamed name) (attributesText attrs ++ closing)
  = match firstNamed name attrs with
    | Some (pre, old, post) =>
        Some (attributesText pre, attributeText (name, old),
              attributesText post ++ closing)
    | None => None
    end.
Proof.
  intros Hname [Hread Hends] Hclosing.
  induction attrs as [|[k v] attrs IH]; [exact Hclosing|].
  inversion Hread as [|? ? [Hk Hv] Hread']; subst.
  inversion Hends as [|? ? Hend Hends']; subst.
  cbn [fst snd] in *. specialize (IH Hread' Hends').
  rewrite attributesText_cons. cbn [firstNamed].
  destruct (k =?s name) eqn:E.
  - pose proof (matchAttributeNamed_text name k v
                  (attributesText attrs ++ closing) Hk Hname Hv) as Hm.
    rewrite E in Hm.
    rewrite (splitAtMatch_here (matchAttributeNamed name) _ _ Hm).
    apply jseqb_eq in E. subst k.
    rewrite firstn_app_exact, skipn_app_exact by reflexivity.
    reflexivity.
  - rewrite splitAtMatch_attribute_other by assumption.
    rewrite IH. destruct (firstNamed name attrs) as [[[pre old] post]|];
      [|reflexivity].
    cbn [prepend]. reflexivity.
Qed.

Lemma getSubstitution_plain matched before after captures template :
  ~ In 36%N template ->
  getSubstitution matched before after captures template = template.
Proof.
  induction template as [|c t IH]; intros H; [reflexivity|].
  cbn [getSubstitution].
  rewrite (proj2 (N.eqb_neq c 36)).
  - rewrite IH; [reflexivity|]. intros Hin. apply H. right. exact Hin.
  - intros ->. apply H. left. reflexivity.
Qed.

Lemma attributeText_no_dollar (name value : jsstring) :
  ~ In 36%N name -> ~ In 36%N value -> ~ In 36%N (attributeText (name, value)).
Proof.
  intros Hn Hv H. rewrite <- (app_nil_r (attributeText _)) in H.
  rewrite attributeText_app in H.
  destruct H as [H|H]; [discriminate|].
  apply in_app_or in H as [H|H]; [exact (Hn H)|].
  destruct H as [H|[H|H]]; try discriminate.
  apply in_app_or in H as [H|H]; [exact (Hv H)|].
  destruct H as [H|[]]. discriminate.
Qed.

Lemma getSubstitution_first_group matched before after tag template :
  ~ In 36%N template ->
  getSubstitution matched before after [tag] (lit "<$1 " ++ template)
  = lit "<" ++ tag ++ lit " " ++ template.
Proof.
  intros H.
  change (lit "<$1 " ++ template)
    with (60%N :: 36%N :: 49%N :: 32%N :: template).
  cbn [getSubstitution].
  change (N.eqb 60 36) with false. change (N.eqb 36 36) with true.
  change (N.eqb 49 36) with false. change (N.eqb 49 38) with false.
  change (N.eqb 49 96) with false. change (N.eqb 49 39) with false.
  change (isDigit 49) with true. change (isDigit 32) with false.
  change (N.eqb 32 36) with false.
  cbv iota.
  change (captureAt [tag] (49 - 48)) with (Some tag). cbv iota.
  rewrite getSubstitution_plain by exact H. reflexivity.
Qed.

Lemma firstNamed_readable (name value : jsstring) attrs :
  isPlainAttrName name = true -> ~ In 34%N value ->
  readable attrs -> readable (withAttribute name value attrs).
Proof.
  intros Hname Hvalue Hread. unfold withAttribute.
  assert (Hnew : (fun a : jsstring * jsstring =>
                    isPlainAttrName (fst a) = true /\ ~ In 34%N (snd a))
                   (name, value)) by (split; assumption).
  destruct (firstNamed name attrs) as [[[pre old] post]|] eqn:E;
    [|constructor; assumption].
  revert pre old post E.
  induction Hread as [|[k v] attrs Hkv Hread IH]; intros pre old post E;
    [discriminate|].
  cbn [firstNamed] in E. destruct (k =?s name).
  - injection E as <- <- <-. constructor; assumption.
  - destruct (firstNamed name attrs) as [[[pre' old'] post']|];
      [|discriminate].
    injection E as <- <- <-. constructor; [exact Hkv|].
    apply (IH pre' old' post'). reflexivity.
Qed.

Lemma addOrUpdateAttribute_openTag (tag : jsstring) attrs (name value : jsstring) :
  tag <> [] ->
  Forall (fun c => isTagNameChar c = true) tag ->
  updatable attrs ->
  isPlainAttrName name = true ->
  ~ In 36%N value ->
  addOrUpdateAttribute (openTag tag attrs) name value
  = openTag tag (withAttribute name value attrs).
Proof.
  intros Hne Htag Hupd Hname Hvalue.
  destruct (plain_name_facts name Hname) as (_ & _ & Hn36 & _).
  assert (Htagws : Forall (fun c => isWhiteSpace c = false) tag).
  { eapply Forall_impl; [|exact Htag]. intros c Hc.
    apply isAttrNameChar_not_space, isTagNameChar_attr, Hc. }
  assert (Hsplit :
            splitAtMatch (matchAttributeNamed name) (openTag tag attrs)
            = match firstNamed name attrs with
              | Some (pre, old, post) =>
                  Some (lit "<" ++ tag ++ attributesText pre,
                        attributeText (name, old),
                        attributesText post ++ lit ">")
              | None => None
              end).
  { unfold openTag. change (lit "<") with [60%N]. cbn [app].
    rewrite splitAtMatch_none_here
      by (apply matchAttributeNamed_not_space; reflexivity).
    rewrite splitAtMatch_name_run by exact Htagws.
    rewrite splitAtMatch_attributes; [|exact Hname|exact Hupd|reflexivity].
    destruct (firstNamed name attrs) as [[[pre old] post]|]; [|reflexivity].
    reflexivity. }
  unfold addOrUpdateAttribute, withAttribute. rewrite Hsplit.
  destruct (firstNamed name attrs) as [[[pre old] post]|] eqn:E.
  - change (lit " " ++ name ++ lit "=" ++ quoted value)
      with (attributeText (name, value)).
    rewrite getSubstitution_plain
      by (apply attributeText_no_dollar; assumption).
    unfold openTag, attributesText. rewrite map_app, concat_app.
    cbn [map concat]. rewrite <- !app_assoc. reflexivity.
  - unfold openTag. change (lit "<") with [60%N]. cbn [app].
    assert (Hstop : exists c rest,
               attributesText attrs ++ lit ">" = c :: rest
               /\ isTagNameChar c = false).
    { destruct attrs as [|[k v] attrs].
      - exists 62%N, []. split; reflexivity.
      - rewrite attributesText_cons, attributeText_app.
        eexists _, _. split; reflexivity. }
    destruct Hstop as (c & rest & Hrest & Hc). rewrite Hrest.
    destruct (takeWhile_stop isTagNameChar tag c rest Htag Hc) as [Ht Hd].
    rewrite Ht, Hd, (isEmpty_false _ Hne).
    change (lit " " ++ name ++ lit "=" ++ quoted value)
      with (attributeText (name, value)).
    change (lit "<$1 " ++ name ++ lit "=" ++ quoted value)
      with (lit "<$1 " ++ (name ++ lit "=" ++ quoted value)).
    rewrite getSubstitution_first_group.
    + rewrite <- Hrest. rewrite attributesText_cons.
      unfold attributeText. cbn [fst snd].
      change (lit "<") with [60%N]. rewrite <- !app_assoc. reflexivity.
    + intros H. apply (attributeText_no_dollar name value Hn36 Hvalue).
      unfold attributeText. cbn [fst snd]. right. exact H.
Qed.

(** *** Reading an attribute after setting it *)

Lemma lookupAttr_app name a b :
  lookupAttr name (a ++ b)
  = match lookupAttr name a with
    | Some v => Some v
    | None => lookupAttr name b
    end.
Proof.
  induction a as [|[k v] a IH]; [reflexivity|].
  cbn [app lookupAttr]. destruct (k =?s name); [reflexivity | exact IH].
Qed.

Lemma lookupAttr_none name l :
  Forall (fun a => (fst a =?s name) = false) l -> lookupAttr name l = None.
Proof.
  induction 1 as [|[k v] l Hk _ IH]; [reflexivity|].
  cbn [fst] in Hk. cbn [lookupAttr]. rewrite Hk. exact IH.
Qed.

Lemma firstNamed_Some name attrs pre old post :
  firstNamed name attrs = Some (pre, old, post) ->
  attrs = pre ++ (name, old) :: post
  /\ Forall (fun a => (fst a =?s name) = false) pre.
Proof.
  revert pre. induction attrs as [|[k v] attrs IH]; intros pre E;
    [discriminate|].
  cbn [firstNamed] in E. destruct (k =?s name) eqn:Hk.
  - injection E as <- <- <-. apply jseqb_eq in Hk. subst k.
    split; [reflexivity | constructor].
  - destruct (firstNamed name attrs) as [[[pre' old'] post']|];
      [|discriminate].
    injection E as <- <- <-.
    destruct (IH pre' eq_refl) as [-> Hpre].
    split; [reflexivity|]. constructor; assumption.
Qed.

Lemma firstNamed_None name attrs :
  firstNamed name attrs = None ->
  Forall (fun a => (fst a =?s name) = false) attrs.
Proof.
  induction attrs as [|[k v] attrs IH]; intros E; [constructor|].
  cbn [firstNamed] in E. destruct (k =?s name) eqn:Hk; [discriminate|].
  destruct (firstNamed name attrs) as [[[pre old] post]|]; [discriminate|].
  constructor; [exact Hk | apply IH; reflexivity].
Qed.

Lemma NoDup_names_after name (old : jsstring) pre post :
  NoDup (map fst (pre ++ (name, old) :: post)) ->
  Forall (fun a : jsstring * jsstring => (fst a =?s name) = false) post.
Proof.
  rewrite map_app. cbn [map fst]. intros H.
  apply NoDup_remove_2 in H.
  apply Forall_forall. intros [k v] Hin. cbn [fst].
  destruct (k =?s name) eqn:E; [|reflexivity].
  apply jseqb_eq in E. subst k. exfalso. apply H.
  apply in_or_app. right. apply (in_map fst) in Hin. exact Hin.
Qed.

Lemma attributeOf_withAttribute_same (name value : jsstring) attrs :
  NoDup (map fst attrs) ->
  attributeOf (withAttribute name value attrs) name = Some value.
Proof.
  intros Hnd. unfold attributeOf, withAttribute.
  destruct (firstNamed name attrs) as [[[pre old] post]|] eqn:E.
  - apply firstNamed_Some in E as [-> Hpre].
    apply NoDup_names_after in Hnd.
    rewrite rev_app_distr. cbn [rev]. rewrite <- app_assoc.
    rewrite lookupAttr_app, (lookupAttr_none name (rev post))
      by (apply Forall_rev, Hnd).
    cbn [app lookupAttr]. rewrite jseqb_refl. reflexivity.
  - apply firstNamed_None in E. cbn [rev].
    rewrite lookupAttr_app, (lookupAttr_none name (rev attrs))
      by (apply Forall_rev, E).
    cbn [lookupAttr]. rewrite jseqb_refl. reflexivity.
Qed.

Lemma attributeOf_withAttribute_other (name value other : jsstring) attrs :
  other <> name ->
  attributeOf (withAttribute name value attrs) other = attributeOf attrs other.
Proof.
  intros Hne. unfold attributeOf, withAttribute.
  assert (Hk : (name =?s other) = false).
  { apply not_true_is_false. intros H. apply jseqb_eq in H. congruence. }
  destruct (firstNamed name attrs) as [[[pre old] post]|] eqn:E.
  - apply firstNamed_Some in E as [-> _].
    rewrite !rev_app_distr. cbn [rev]. rewrite <- !app_assoc.
    rewrite !lookupAttr_app. cbn [app lookupAttr]. rewrite Hk.
    reflexivity.
  - cbn [rev]. rewrite lookupAttr_app. cbn [lookupAttr]. rewrite Hk.
    destruct (lookupAttr other (rev attrs)); reflexivity.
Qed.

Lemma forallb_Forall_true {A : Type} (p : A -> bool) l :
  forallb p l = true -> Forall (fun x => p x = true) l.
Proof. intros H. apply Forall_forall. apply forallb_forall, H. Qed.

(** X5.  On an opening tag written with double-quoted attributes
    (plain names, no double quote in a value, no value ending with an
    equals sign), [addOrUpdateAttribute] with a name of letters, digits,
    [_] and [-] and a value that holds no dollar sign (code unit 36) and no
    double quote sets the attribute: the first attribute of that name
    takes the value where it stands, and when there is none the attribute
    is added right after the tag name; the other attributes stay as they
    are.  Read back with [parseAttributes], the attribute has the new
    value when the names of the tag are distinct, and every other
    attribute has the value it had; this for the names that a plain object
    does not inherit (the record has no property [__proto__], and reads
    the members of [Object.prototype] where nothing was assigned). *)
Theorem addOrUpdateAttribute_sets_the_attribute
        (tag : jsstring) (attrs : list (jsstring * jsstring))
        (name value : jsstring) :
  tag <> [] ->
  forallb isTagNameChar tag = true ->
  isUpdatable attrs = true ->
  isLiteralAttrName name = true ->
  holdsUnit 36 value = false ->
  holdsUnit 34 value = false ->
  let result := addOrUpdateAttribute (openTag tag attrs) name value in
  result = openTag tag (withAttribute name value attrs)
  /\ (NoDup (map fst attrs) ->
      isInherited name = false ->
      attributeOf (parseAttributes result) name = Some value)
  /\ (forall other,
         other <> name ->
         isInherited other = false ->
         attributeOf (parseAttributes result) other = attributeOf attrs other).
Proof.
  intros Hne Htag Hupd Hname H36 H34 result.
  apply forallb_Forall_true in Htag.
  apply isUpdatable_updatable in Hupd.
  apply andb_true_iff in Hname as [Hname _].
  apply holdsUnit_false in H36. apply holdsUnit_false in H34.
  assert (Hres : result = openTag tag (withAttribute name value attrs)).
  { apply addOrUpdateAttribute_openTag; assumption. }
  assert (Hown : forall n, isInherited n = false -> n <> lit "__proto__").
  { intros n Hn ->. discriminate Hn. }
  assert (Hparse : forall n,
             isInherited n = false ->
             attributeOf (parseAttributes result) n
             = attributeOf (withAttribute name value attrs) n).
  { intros n Hn. rewrite Hres. apply attributeOf_openTag.
    - eapply Forall_impl; [|exact Htag]. intros c. apply isTagNameChar_attr.
    - apply firstNamed_readable; [exact Hname|exact H34|apply Hupd].
    - apply Hown, Hn. }
  split; [exact Hres|]. split.
  - intros Hnd Hn. rewrite (Hparse _ Hn).
    apply attributeOf_withAttribute_same, Hnd.
  - intros other Hother Hn. rewrite (Hparse _ Hn).
    apply attributeOf_withAttribute_other, Hother.
Qed.

Lemma addOrUpdateAttribute_sets_the_attribute_witness :
  addOrUpdateAttribute (lit "<code class=" ++ quoted (lit "a b") ++ lit ">")
                       (lit "data-code-lang") (lit "js")
  = lit "<code data-code-lang=" ++ quoted (lit "js")
    ++ lit " class=" ++ quoted (lit "a b") ++ lit ">"
  /\ addOrUpdateAttribute
       (lit "<code class=" ++ quoted (lit "a b") ++ lit ">")
       (lit "class") (lit "a b c")
     = lit "<code class=" ++ quoted (lit "a b c") ++ lit ">"
  /\ attributeOf
       (parseAttributes
          (addOrUpdateAttribute
             (lit "<code class=" ++ quoted (lit "a b") ++ lit ">")
             (lit "data-code-lang") (lit "js")))
       (lit "data-code-lang")
     = Some (lit "js").
Proof.
  split; [|split].
  - apply (addOrUpdateAttribute_sets_the_attribute
             (lit "code") [attr "class" "a b"]
             (lit "data-code-lang") (lit "js"));
      solve [reflexivity | discriminate].
  - apply (addOrUpdateAttribute_sets_the_attribute
             (lit "code") [attr "class" "a b"]
             (lit "class") (lit "a b c"));
      solve [reflexivity | discriminate].
  - assert (Hne : lit "code" <> []) by discriminate.
    destruct (addOrUpdateAttribute_sets_the_attribute
                (lit "code") [attr "class" "a b"]
                (lit "data-code-lang") (lit "js")
                Hne eq_refl eq_refl eq_refl eq_refl eq_refl)
      as (_ & Hread & _).
    apply Hread; [|reflexivity].
    repeat constructor. intros [].
Defined.


(* ================================================================== *)
(** * The class list that the report passes write *)
(* ================================================================== *)

(** *** Splitting at white space *)

Lemma split_units s :
  (forall cur t c,
      In t (splitWhiteSpace cur s) -> In c t -> In c cur \/ In c s)
  /\ (forall t c, In t (skipWhiteSpace s) -> In c t -> In c s).
Proof.
  induction s as [|x s [IH1 IH2]].
  - split.
    + intros cur t c [<- | []] Hc. left. exact Hc.
    + intros t c [<- | []] [].
  - split.
    + intros cur t c Ht Hc. cbn [splitWhiteSpace] in Ht.
      destruct (isWhiteSpace x).
      * destruct Ht as [<- | Ht]; [left; exact Hc|].
        right. right. exact (IH2 t c Ht Hc).
      * destruct (IH1 _ t c Ht Hc) as [H | H].
        -- apply in_app_or in H as [H | [<- | []]];
             [left; exact H | right; left; reflexivity].
        -- right. right. exact H.
    + intros t c Ht Hc. cbn [skipWhiteSpace] in Ht.
      destruct (isWhiteSpace x).
      * right. exact (IH2 t c Ht Hc).
      * destruct (IH1 _ t c Ht Hc) as [[<- | []] | H];
          [left; reflexivity | right; exact H].
Qed.

Lemma split_no_space s :
  (forall cur t,
      Forall (fun c => isWhiteSpace c = false) cur ->
      In t (splitWhiteSpace cur s) ->
      Forall (fun c => isWhiteSpace c = false) t)
  /\ (forall t, In t (skipWhiteSpace s) ->
                Forall (fun c => isWhiteSpace c = false) t).
Proof.
  induction s as [|x s [IH1 IH2]].
  - split.
    + intros cur t Hcur [<- | []]. exact Hcur.
    + intros t [<- | []]. constructor.
  - split.
    + intros cur t Hcur Ht. cbn [splitWhiteSpace] in Ht.
      destruct (isWhiteSpace x) eqn:E.
      * destruct Ht as [<- | Ht]; [exact Hcur | exact (IH2 t Ht)].
      * apply (IH1 (cur ++ [x]) t); [|exact Ht].
        apply Forall_app. split; [exact Hcur | repeat constructor; exact E].
    + intros t Ht. cbn [skipWhiteSpace] in Ht.
      destruct (isWhiteSpace x) eqn:E.
      * exact (IH2 t Ht).
      * apply (IH1 [x] t); [repeat constructor; exact E | exact Ht].
Qed.

Lemma splitWhiteSpace_token t :
  Forall (fun c => isWhiteSpace c = false) t ->
  forall cur rest,
    splitWhiteSpace cur (t ++ rest) = splitWhiteSpace (cur ++ t) rest.
Proof.
  induction 1 as [|c t Hc _ IH]; intros cur rest.
  - rewrite app_nil_r. reflexivity.
  - cbn [app splitWhiteSpace]. rewrite Hc, IH, <- app_assoc. reflexivity.
Qed.

Lemma joinWith_cons sep (t t' : jsstring) l :
  joinWith sep (t :: t' :: l) = t ++ sep ++ joinWith sep (t' :: l).
Proof. reflexivity. Qed.

Lemma splitWhiteSpace_space cur rest :
  splitWhiteSpace cur (lit " " ++ rest) = cur :: skipWhiteSpace rest.
Proof. reflexivity. Qed.

Lemma skipWhiteSpace_start c rest :
  isWhiteSpace c = false ->
  skipWhiteSpace (c :: rest) = splitWhiteSpace [] (c :: rest).
Proof.
  intros H. cbn [skipWhiteSpace splitWhiteSpace app]. rewrite H. reflexivity.
Qed.

Lemma joinWith_first sep (c : N) t l :
  exists rest, joinWith sep ((c :: t) :: l) = c :: rest.
Proof. destruct l; eexists; reflexivity. Qed.

(** Names without white space, put together with single spaces, come
    apart again. *)
Lemma splitWhiteSpace_joinWith l :
  Forall (fun t => t <> [] /\ Forall (fun c => isWhiteSpace c = false) t) l ->
  l <> [] ->
  forall cur,
    splitWhiteSpace cur (joinWith (lit " ") l) = (cur ++ hd [] l) :: tl l.
Proof.
  induction 1 as [|t l [Hne Hws] Hl IH]; intros Hnil cur; [congruence|].
  destruct l as [|t' l].
  - cbn [joinWith hd tl]. rewrite <- (app_nil_r t) at 1.
    rewrite splitWhiteSpace_token by exact Hws. reflexivity.
  - rewrite joinWith_cons, splitWhiteSpace_token by exact Hws.
    rewrite splitWhiteSpace_space. cbn [hd tl]. f_equal.
    inversion Hl as [|? ? [Hne' Hws'] _]; subst.
    specialize (IH ltac:(discriminate) []).
    cbn [hd tl app] in IH. rewrite <- IH.
    destruct t' as [|c t']; [congruence|].
    inversion Hws' as [|? ? Hc _]; subst.
    unfold jsstring in *.
    destruct (joinWith_first (lit " ") c t' l) as (rest & ->).
    apply skipWhiteSpace_start, Hc.
Qed.

Lemma split_ws_joinWith l :
  Forall (fun t => t <> [] /\ Forall (fun c => isWhiteSpace c = false) t) l ->
  filter (fun token => 0 <? length token) (split_ws (joinWith (lit " ") l))
  = l.
Proof.
  intros Hl. destruct l as [|t l]; [reflexivity|].
  unfold split_ws. rewrite splitWhiteSpace_joinWith by (exact Hl || discriminate).
  cbn [hd tl app]. apply forallb_filter_id. apply forallb_forall.
  intros x Hx. rewrite Forall_forall in Hl. destruct (Hl x Hx) as [Hne _].
  destruct x; [congruence | reflexivity].
Qed.

(** *** Adding to the set *)

Lemma includesString_In l x : includesString l x = true <-> In x l.
Proof.
  unfold includesString. rewrite existsb_exists. split.
  - intros (y & Hy & E). apply jseqb_eq in E. subst y. exact Hy.
  - intros H. exists x. split; [exact H | apply jseqb_refl].
Qed.

Lemma setAdd_In merged token x :
  In x (setAdd merged token) <-> In x merged \/ x = token.
Proof.
  unfold setAdd. destruct (includesString merged token) eqn:E.
  - apply includesString_In in E. split; [auto|].
    intros [H | ->]; assumption.
  - rewrite in_app_iff. cbn [In]. intuition congruence.
Qed.

Lemma fold_setAdd_In tokens :
  forall merged x,
    In x (fold_left setAdd tokens merged) <-> In x merged \/ In x tokens.
Proof.
  induction tokens as [|t tokens IH]; intros merged x; cbn [fold_left In].
  - tauto.
  - rewrite IH, setAdd_In. intuition congruence.
Qed.

Lemma fold_setAdd_absorb tokens merged :
  (forall t, In t tokens -> In t merged) ->
  fold_left setAdd tokens merged = merged.
Proof.
  induction tokens as [|t tokens IH]; intros H; [reflexivity|].
  cbn [fold_left]. unfold setAdd at 2.
  rewrite (proj2 (includesString_In merged t)) by (apply H; left; reflexivity).
  apply IH. intros x Hx. apply H. right. exact Hx.
Qed.

Lemma fold_setAdd_distinct tokens :
  forall merged,
    NoDup (merged ++ tokens) ->
    fold_left setAdd tokens merged = merged ++ tokens.
Proof.
  induction tokens as [|t tokens IH]; intros merged Hnd.
  - rewrite app_nil_r. reflexivity.
  - cbn [fold_left]. unfold setAdd at 2.
    assert (Hnot : includesString merged t = false).
    { apply not_true_is_false. intros E. apply includesString_In in E.
      apply NoDup_remove_2 in Hnd. apply Hnd, in_or_app. left. exact E. }
    rewrite Hnot.
    replace (merged ++ t :: tokens) with ((merged ++ [t]) ++ tokens) in *
      by (rewrite <- app_assoc; reflexivity).
    apply IH. exact Hnd.
Qed.

Lemma mergedClasses_NoDup existing classNames :
  NoDup (mergedClasses existing classNames).
Proof. apply addClasses_merged_NoDup. Qed.

Lemma mergedClasses_In existing classNames x :
  In x (mergedClasses existing classNames)
  <-> (In x (split_ws existing) /\ x <> []) \/ In x classNames.
Proof.
  unfold mergedClasses. rewrite !fold_setAdd_In, filter_In. cbn [In].
  split.
  - intros [[[] | [H1 H2]] | H]; [left | right; exact H].
    split; [exact H1|]. destruct x; [discriminate | congruence].
  - intros [[H1 H2] | H]; [left; right | right; exact H].
    split; [exact H1|]. destruct x; [congruence | reflexivity].
Qed.

Lemma joinWith_units sep l c :
  In c (joinWith sep l) -> In c sep \/ exists t, In t l /\ In c t.
Proof.
  induction l as [|t l IH]; [intros []|].
  destruct l as [|t' l].
  - cbn [joinWith]. intros H. right. exists t. split; [left; reflexivity|].
    exact H.
  - rewrite joinWith_cons. intros H.
    apply in_app_or in H as [H | H].
    + right. exists t. split; [left; reflexivity | exact H].
    + apply in_app_or in H as [H | H]; [left; exact H|].
      destruct (IH H) as [Hs | (u & Hu & Hc)]; [left; exact Hs|].
      right. exists u. split; [right; exact Hu | exact Hc].
Qed.

(** A unit that is neither in the existing class value nor in a new name
    nor a space is not in the class value that is written. *)
Lemma mergedClasses_units existing classNames c :
  c <> 32%N ->
  ~ In c existing ->
  (forall t, In t classNames -> ~ In c t) ->
  ~ In c (joinWith (lit " ") (mergedClasses existing classNames)).
Proof.
  intros Hsp Hex Hcs H. apply joinWith_units in H as [H | (t & Ht & Hc)].
  - destruct H as [H | []]. apply Hsp. symmetry. exact H.
  - apply mergedClasses_In in Ht as [[Ht _] | Ht].
    + destruct (split_units existing) as [Hsplit _].
      destruct (Hsplit [] t c Ht Hc) as [[] | H]. exact (Hex H).
    + exact (Hcs t Ht Hc).
Qed.

Lemma mergedClasses_tokens existing classNames :
  Forall (fun t => t <> [] /\ Forall (fun c => isWhiteSpace c = false) t)
         classNames ->
  Forall (fun t => t <> [] /\ Forall (fun c => isWhiteSpace c = false) t)
         (mergedClasses existing classNames).
Proof.
  intros Hcs. apply Forall_forall. intros t Ht.
  apply mergedClasses_In in Ht as [[Ht Hne] | Ht].
  - split; [exact Hne|].
    destruct (split_no_space existing) as [Hsplit _].
    apply (Hsplit [] t); [constructor | exact Ht].
  - rewrite Forall_forall in Hcs. apply Hcs, Ht.
Qed.

(** Merging the written class value with the same names again gives the
    same names. *)
Lemma mergedClasses_again existing classNames :
  Forall (fun t => t <> [] /\ Forall (fun c => isWhiteSpace c = false) t)
         classNames ->
  mergedClasses (joinWith (lit " ") (mergedClasses existing classNames))
                classNames
  = mergedClasses existing classNames.
Proof.
  intros Hcs. unfold mergedClasses at 1.
  rewrite split_ws_joinWith by (apply mergedClasses_tokens, Hcs).
  rewrite (fold_setAdd_distinct _ [])
    by (cbn [app]; apply mergedClasses_NoDup).
  cbn [app]. apply fold_setAdd_absorb.
  intros t Ht. apply mergedClasses_In. right. exact Ht.
Qed.

(** *** [addClasses] on a well-formed tag *)

Lemma firstNamed_middle (name v : jsstring) pre post :
  Forall (fun a : jsstring * jsstring => (fst a =?s name) = false) pre ->
  firstNamed name (pre ++ (name, v) :: post) = Some (pre, v, post).
Proof.
  induction 1 as [|[k w] pre Hk _ IH].
  - cbn [app firstNamed]. rewrite jseqb_refl. reflexivity.
  - cbn [fst] in Hk. cbn [app firstNamed]. rewrite Hk, IH. reflexivity.
Qed.

Lemma withAttribute_again (name value : jsstring) attrs :
  withAttribute name value (withAttribute name value attrs)
  = withAttribute name value attrs.
Proof.
  unfold withAttribute.
  destruct (firstNamed name attrs) as [[[pre old] post]|] eqn:E.
  - apply firstNamed_Some in E as [-> Hpre].
    rewrite (firstNamed_middle name value pre post Hpre). reflexivity.
  - cbn [firstNamed]. rewrite jseqb_refl. reflexivity.
Qed.

Lemma withAttribute_Forall (P : jsstring * jsstring -> Prop)
      (name value : jsstring) attrs :
  P (name, value) -> Forall P attrs -> Forall P (withAttribute name value attrs).
Proof.
  intros Hnew Hattrs. unfold withAttribute.
  destruct (firstNamed name attrs) as [[[pre old] post]|] eqn:E;
    [|constructor; assumption].
  apply firstNamed_Some in E as [-> _].
  apply Forall_app in Hattrs as [Hpre Hpost].
  apply Forall_app. split; [exact Hpre|].
  inversion Hpost; subst. constructor; assumption.
Qed.

Lemma withAttribute_names (name value : jsstring) attrs :
  NoDup (map fst attrs) -> NoDup (map fst (withAttribute name value attrs)).
Proof.
  intros Hnd. unfold withAttribute.
  destruct (firstNamed name attrs) as [[[pre old] post]|] eqn:E.
  - apply firstNamed_Some in E as [-> _].
    rewrite map_app in *. exact Hnd.
  - apply firstNamed_None in E. cbn [map fst]. constructor; [|exact Hnd].
    intros Hin. apply in_map_iff in Hin as ([k v] & Hk & Hin).
    cbn [fst] in Hk. subst k. rewrite Forall_forall in E.
    specialize (E _ Hin). cbn [fst] in E. rewrite jseqb_refl in E.
    discriminate E.
Qed.

Lemma attributeOf_In attrs name (v : jsstring) :
  attributeOf attrs name = Some v -> exists k, In (k, v) attrs.
Proof.
  unfold attributeOf. intros H.
  assert (G : forall l, lookupAttr name l = Some v -> exists k, In (k, v) l).
  { induction l as [|[k w] l IH]; [discriminate|].
    cbn [lookupAttr]. destruct (k =?s name).
    - intros [= ->]. exists k. left. reflexivity.
    - intros E. destruct (IH E) as (k' & Hk'). exists k'. right. exact Hk'. }
  destruct (G _ H) as (k & Hk). exists k. apply in_rev. exact Hk.
Qed.

Lemma existingClass_no_quote attrs :
  readable attrs -> ~ In 34%N (existingClass attrs).
Proof.
  intros Hread. unfold existingClass.
  destruct (attributeOf attrs (lit "class")) as [v|] eqn:E; [|intros []].
  apply attributeOf_In in E as (k & Hk). unfold readable in Hread.
  rewrite Forall_forall in Hread. apply (Hread _ Hk).
Qed.

Lemma addClasses_openTag (tag : jsstring) attrs classNames :
  tag <> [] ->
  Forall (fun c => isTagNameChar c = true) tag ->
  updatable attrs ->
  ~ In 36%N (existingClass attrs) ->
  (forall t, In t classNames -> ~ In 36%N t) ->
  addClasses (openTag tag attrs) classNames
  = openTag tag
      (withAttribute (lit "class")
         (joinWith (lit " ") (mergedClasses (existingClass attrs) classNames))
         attrs).
Proof.
  intros Hne Htag Hupd Hex Hcs. unfold addClasses.
  rewrite attributeOf_openTag.
  - fold (existingClass attrs).
    fold (mergedClasses (existingClass attrs) classNames).
    apply addOrUpdateAttribute_openTag; try assumption; [reflexivity|].
    apply mergedClasses_units; [discriminate | exact Hex | exact Hcs].
  - eapply Forall_impl; [|exact Htag]. intros c. apply isTagNameChar_attr.
  - apply Hupd.
  - discriminate.
Qed.

Lemma last_In (l : list N) d : l <> [] -> In (last l d) l.
Proof.
  induction l as [|x l IH]; [congruence|]. intros _.
  destruct l as [|y l]; [left; reflexivity|].
  right. apply IH. discriminate.
Qed.

Lemma isClassName_facts t :
  isClassName t = true ->
  t <> [] /\ Forall (fun c => isWhiteSpace c = false) t
  /\ ~ In 36%N t /\ ~ In 34%N t /\ ~ In 61%N t.
Proof.
  unfold isClassName. intros H. apply andb_true_iff in H as [Hne Hall].
  split; [destruct t; [discriminate | congruence]|].
  rewrite forallb_forall in Hall.
  assert (G : forall c, In c t ->
                        isWhiteSpace c = false /\ c <> 36%N /\ c <> 34%N
                        /\ c <> 61%N).
  { intros c Hc. specialize (Hall c Hc). unfold isClassUnit in Hall.
    apply negb_true_iff in Hall.
    apply orb_false_iff in Hall as [Hall H61].
    apply orb_false_iff in Hall as [Hall H34].
    apply orb_false_iff in Hall as [Hws H36].
    apply N.eqb_neq in H61, H34, H36. auto. }
  split; [apply Forall_forall; intros c Hc; apply (G c Hc)|].
  repeat split; intros Hin; destruct (G _ Hin) as (_ & ? & ? & ?);
    congruence.
Qed.

(** X6.  On an opening tag written with double-quoted attributes,
    [addClasses] with names that hold no dollar sign, the class value of
    the tag holding none either, sets the class attribute (where it
    stands, or right after the tag name when the tag has none) to a list
    of names separated by single spaces in which no name occurs twice, and
    which holds exactly the names of the old class value and the new
    names; every other attribute stays as it is. *)
Theorem addClasses_merges_the_names
        (tag : jsstring) (attrs : list (jsstring * jsstring))
        (classNames : list jsstring) :
  tag <> [] ->
  forallb isTagNameChar tag = true ->
  isUpdatable attrs = true ->
  holdsUnit 36 (existingClass attrs) = false ->
  forallb (fun t => negb (holdsUnit 36 t)) classNames = true ->
  let merged := mergedClasses (existingClass attrs) classNames in
  addClasses (openTag tag attrs) classNames
  = openTag tag (withAttribute (lit "class") (joinWith (lit " ") merged) attrs)
  /\ NoDup merged
  /\ (forall name,
         In name merged
         <-> (In name (split_ws (existingClass attrs)) /\ name <> [])
             \/ In name classNames).
Proof.
  intros Hne Htag Hupd Hex Hcs merged.
  split; [|split].
  - apply addClasses_openTag.
    + exact Hne.
    + apply forallb_Forall_true, Htag.
    + apply isUpdatable_updatable, Hupd.
    + apply holdsUnit_false, Hex.
    + intros t Ht. rewrite forallb_forall in Hcs.
      apply holdsUnit_false, negb_true_iff, Hcs, Ht.
  - apply mergedClasses_NoDup.
  - intros name. apply mergedClasses_In.
Qed.

Lemma addClasses_merges_the_names_witness :
  addClasses (lit "<pre id=" ++ quoted (lit "p1") ++ lit " class="
              ++ quoted (lit "hljs  wide") ++ lit ">")
             [lit "code-block"; lit "hljs"]
  = lit "<pre id=" ++ quoted (lit "p1") ++ lit " class="
    ++ quoted (lit "hljs wide code-block") ++ lit ">".
Proof.
  destruct (addClasses_merges_the_names
              (lit "pre") [attr "id" "p1"; attr "class" "hljs  wide"]
              [lit "code-block"; lit "hljs"]) as [H _];
    [discriminate | reflexivity | reflexivity | reflexivity | reflexivity |].
  vm_compute in H |- *. exact H.
Defined.

(** X7.  Adding the same class names a second time changes nothing: on an
    opening tag written with double-quoted attributes of distinct names,
    whose class value holds no dollar sign and no equals sign, and for
    class names that are not empty and hold no white space, dollar sign,
    double quote or equals sign, [addClasses] applied to its own result
    returns that result. *)
Theorem addClasses_twice_is_once
        (tag : jsstring) (attrs : list (jsstring * jsstring))
        (classNames : list jsstring) :
  tag <> [] ->
  forallb isTagNameChar tag = true ->
  isUpdatable attrs = true ->
  NoDup (map fst attrs) ->
  holdsUnit 36 (existingClass attrs) = false ->
  holdsUnit 61 (existingClass attrs) = false ->
  forallb isClassName classNames = true ->
  addClasses (addClasses (openTag tag attrs) classNames) classNames
  = addClasses (openTag tag attrs) classNames.
Proof.
  intros Hne Htag Hupd Hnd H36 H61 Hcs.
  apply forallb_Forall_true in Htag.
  apply isUpdatable_updatable in Hupd.
  apply holdsUnit_false in H36. apply holdsUnit_false in H61.
  assert (Hfacts : forall t, In t classNames ->
             t <> [] /\ Forall (fun c => isWhiteSpace c = false) t
             /\ ~ In 36%N t /\ ~ In 34%N t /\ ~ In 61%N t).
  { intros t Ht. apply isClassName_facts.
    rewrite forallb_forall in Hcs. apply Hcs, Ht. }
  set (V := joinWith (lit " ") (mergedClasses (existingClass attrs) classNames)).
  assert (HV36 : ~ In 36%N V).
  { apply mergedClasses_units; [discriminate | exact H36|].
    intros t Ht. apply (Hfacts t Ht). }
  assert (HV34 : ~ In 34%N V).
  { apply mergedClasses_units;
      [discriminate | apply existingClass_no_quote, Hupd|].
    intros t Ht. apply (Hfacts t Ht). }
  assert (HV61 : ~ In 61%N V).
  { apply mergedClasses_units; [discriminate | exact H61|].
    intros t Ht. apply (Hfacts t Ht). }
  assert (Hfirst : addClasses (openTag tag attrs) classNames
                   = openTag tag (withAttribute (lit "class") V attrs)).
  { apply addClasses_openTag; try assumption.
    intros t Ht. apply (Hfacts t Ht). }
  rewrite Hfirst.
  assert (Hex1 : existingClass (withAttribute (lit "class") V attrs) = V).
  { unfold existingClass.
    rewrite attributeOf_withAttribute_same by exact Hnd. reflexivity. }
  rewrite addClasses_openTag; try assumption.
  - rewrite Hex1. unfold V at 1.
    rewrite mergedClasses_again.
    + fold V. rewrite withAttribute_again. reflexivity.
    + apply Forall_forall. intros t Ht.
      destruct (Hfacts t Ht) as (? & ? & _). split; assumption.
  - destruct Hupd as [Hread Hends]. split.
    + apply firstNamed_readable; [reflexivity | exact HV34 | exact Hread].
    + apply withAttribute_Forall; [|exact Hends]. cbn [snd].
      apply endsWith_equals_last. intros Hlast.
      apply HV61. rewrite <- Hlast. apply last_In.
      intros EV. rewrite EV in Hlast. discriminate Hlast.
  - rewrite Hex1. exact HV36.
  - intros t Ht. apply (Hfacts t Ht).
Qed.

Lemma addClasses_twice_is_once_witness :
  addClasses
    (addClasses (lit "<code class=" ++ quoted (lit "language-js") ++ lit ">")
                [lit "code-inline"])
    [lit "code-inline"]
  = addClasses (lit "<code class=" ++ quoted (lit "language-js") ++ lit ">")
               [lit "code-inline"].
Proof.
  apply (addClasses_twice_is_once
           (lit "code") [attr "class" "language-js"] [lit "code-inline"]);
    try reflexivity; try discriminate.
  repeat constructor. intros [].
Defined.


(* ================================================================== *)
(** * The three string passes on whole fragments and on pre blocks *)
(* ================================================================== *)

Lemma replaceMatches_absent matchAt pat s :
  (forall t, matchAt t <> None -> startsWith t pat = true) ->
  includes s pat = false ->
  replaceMatches matchAt 0 s = s.
Proof.
  intros Hm. induction s as [|c s IH]; [reflexivity|].
  cbn [includes replaceMatches]. intros H.
  apply orb_false_iff in H as [Hhere Hrest].
  destruct (matchAt (c :: s)) as [[len r]|] eqn:E.
  - rewrite Hm in Hhere; [discriminate | congruence].
  - rewrite (IH Hrest). reflexivity.
Qed.

Lemma matchTag_startsWith opening s :
  matchTag opening s <> None -> startsWith s opening = true.
Proof.
  unfold matchTag. destruct (startsWith s opening); [reflexivity | congruence].
Qed.

(** X8.  A fragment without the text of an opening pre tag passes
    [normalizePreBlocks] and [enhanceCodeBlocks] unchanged, one without
    the text of an opening code tag passes [enhanceInlineCode] unchanged;
    so the three passes of the report leave a fragment with neither as it
    is, whatever the options and the highlighter. *)
Theorem report_passes_keep_fragments_without_code
        (toLowerCase : jsstring -> jsstring) (htmlFragment : jsstring)
        (options : ReportRenderOptions) (codeHighlighter : option Highlighter) :
  (includes htmlFragment (lit "<pre") = false ->
   normalizePreBlocks htmlFragment = htmlFragment
   /\ enhanceCodeBlocks toLowerCase htmlFragment options codeHighlighter
      = htmlFragment)
  /\ (includes htmlFragment (lit "<code") = false ->
      enhanceInlineCode toLowerCase htmlFragment options = htmlFragment)
  /\ (includes htmlFragment (lit "<pre") = false ->
      includes htmlFragment (lit "<code") = false ->
      enhanceInlineCode toLowerCase
        (enhanceCodeBlocks toLowerCase (normalizePreBlocks htmlFragment)
                           options codeHighlighter)
        options
      = htmlFragment).
Proof.
  assert (Hpre : includes htmlFragment (lit "<pre") = false ->
                 normalizePreBlocks htmlFragment = htmlFragment
                 /\ enhanceCodeBlocks toLowerCase htmlFragment options
                                      codeHighlighter
                    = htmlFragment).
  { intros H. split.
    - unfold normalizePreBlocks.
      apply (replaceMatches_absent _ (lit "<pre")); [|exact H].
      intros t Ht. apply matchTag_startsWith. intros E. apply Ht.
      unfold matchPreBlock, matchPreOpen. rewrite E. reflexivity.
    - unfold enhanceCodeBlocks.
      apply (replaceMatches_absent _ (lit "<pre")); [|exact H].
      intros t Ht. apply matchTag_startsWith. intros E. apply Ht.
      unfold matchPreCode, matchPreOpen. rewrite E. reflexivity. }
  assert (Hcode : includes htmlFragment (lit "<code") = false ->
                  enhanceInlineCode toLowerCase htmlFragment options
                  = htmlFragment).
  { intros H. unfold enhanceInlineCode.
    apply (replaceMatches_absent _ (lit "<code")); [|exact H].
    intros t Ht. apply matchTag_startsWith. intros E. apply Ht.
    unfold matchCodeOpen. rewrite E. reflexivity. }
  split; [exact Hpre|]. split; [exact Hcode|].
  intros H1 H2. destruct (Hpre H1) as [-> ->]. exact (Hcode H2).
Qed.

(** *** Pre blocks *)

Lemma findFrom_split pat s before after :
  findFrom pat s = Some (before, after) -> s = before ++ pat ++ after.
Proof.
  revert before. induction s as [|c s IH]; intros before H.
  - cbn [findFrom] in H. destruct (startsWith [] pat) eqn:E; [|discriminate].
    injection H as <- <-. apply (startsWith_split [] pat E).
  - cbn [findFrom] in H. destruct (startsWith (c :: s) pat) eqn:E.
    + injection H as <- <-. apply (startsWith_split _ pat E).
    + destruct (findFrom pat s) as [[b a]|]; [|discriminate].
      injection H as <- <-. cbn [app]. f_equal. apply IH. reflexivity.
Qed.

Lemma findFrom_single_inv q s before after :
  findFrom [q] s = Some (before, after) -> ~ In q before.
Proof.
  revert before. induction s as [|c s IH]; intros before H.
  - cbn in H. discriminate H.
  - cbn [findFrom] in H. rewrite startsWith_cons, startsWith_nil in H.
    rewrite andb_true_r in H. destruct (N.eqb_spec c q) as [->|Hc].
    + injection H as <- <-. intros [].
    + destruct (findFrom [q] s) as [[b a]|]; [|discriminate].
      injection H as <- <-. intros [E | Hin]; [congruence|].
      exact (IH b eq_refl Hin).
Qed.

Lemma findFrom_found pat x y :
  exists before after, findFrom pat (x ++ pat ++ y) = Some (before, after).
Proof.
  induction x as [|c x (b & a & IH)].
  - cbn [app]. destruct (pat ++ y) as [|c s] eqn:E.
    + cbn [findFrom]. destruct pat; [|discriminate E].
      rewrite startsWith_nil. eexists _, _. reflexivity.
    + cbn [findFrom]. rewrite <- E, startsWith_app.
      eexists _, _. reflexivity.
  - cbn [app findFrom]. destruct (startsWith _ pat).
    + eexists _, _. reflexivity.
    + rewrite IH. eexists _, _. reflexivity.
Qed.

(** What [matchTag] accepts: the opening text, then units other than the
    greater-than sign that do not begin with a word character, then the
    greater-than sign. *)
Lemma matchTag_shape opening s tag rest :
  matchTag opening s = Some (tag, rest) ->
  exists inside,
    tag = opening ++ inside ++ [62%N]
    /\ s = tag ++ rest
    /\ ~ In 62%N inside
    /\ match inside ++ [62%N] with
       | c :: _ => isWordChar c = false
       | [] => True
       end.
Proof.
  unfold matchTag. destruct (startsWith s opening) eqn:E; [|discriminate].
  apply startsWith_split in E.
  destruct (skipn (length opening) s) as [|c r] eqn:Er; [discriminate|].
  destruct (isWordChar c) eqn:Ec; [discriminate|].
  destruct (findFrom [62%N] (c :: r)) as [[inside after]|] eqn:Ef;
    [|discriminate].
  intros [= <- <-]. exists inside.
  pose proof (findFrom_split _ _ _ _ Ef) as Hs.
  pose proof (findFrom_single_inv _ _ _ _ Ef) as Hin.
  split; [reflexivity|]. split.
  - rewrite E, Hs, <- !app_assoc. reflexivity.
  - split; [exact Hin|]. cbn [app] in Hs.
    destruct inside as [|i inside]; cbn [app] in *.
    + injection Hs as <- _. exact Ec.
    + injection Hs as <- _. exact Ec.
Qed.

(** A tag is recognised again whatever follows it. *)
Lemma matchTag_again opening inside rest :
  ~ In 62%N inside ->
  match inside ++ [62%N] with
  | c :: _ => isWordChar c = false
  | [] => True
  end ->
  matchTag opening ((opening ++ inside ++ [62%N]) ++ rest)
  = Some (opening ++ inside ++ [62%N], rest).
Proof.
  intros Hin Hword. unfold matchTag.
  rewrite <- app_assoc, startsWith_app.
  rewrite skipn_app_exact by reflexivity.
  rewrite <- app_assoc. cbn [app].
  rewrite (findFrom_single 62%N inside rest Hin).
  destruct inside as [|c inside]; cbn [app] in *; rewrite Hword; reflexivity.
Qed.

Lemma matchTag_prefix opening s tag rest other :
  matchTag opening s = Some (tag, rest) ->
  matchTag opening (tag ++ other) = Some (tag, other).
Proof.
  intros H. apply matchTag_shape in H as (inside & -> & _ & Hin & Hword).
  apply matchTag_again; assumption.
Qed.

Lemma endsWith_app s suffix : endsWith (s ++ suffix) suffix = true.
Proof. unfold endsWith. rewrite rev_app_distr. apply startsWith_app. Qed.

Lemma firstMatch_Some {X : Type} (matchAt : jsstring -> option X) s x :
  firstMatch matchAt s = Some x ->
  exists before t, s = before ++ t /\ matchAt t = Some x.
Proof.
  induction s as [|c s IH]; cbn [firstMatch].
  - destruct (matchAt []) eqn:E; [|discriminate].
    intros [= ->]. exists [], []. split; [reflexivity | exact E].
  - destruct (matchAt (c :: s)) eqn:E.
    + intros [= ->]. exists [], (c :: s). split; [reflexivity | exact E].
    + intros H. destruct (IH H) as (b & t & -> & Ht).
      exists (c :: b), t. split; [reflexivity | exact Ht].
Qed.

Lemma matchPreBlock_shape s preBlock :
  matchPreBlock s = Some preBlock ->
  exists preOpen inner,
    preBlock = preOpen ++ inner ++ lit "</pre>"
    /\ matchPreOpen preBlock = Some (preOpen, inner ++ lit "</pre>")
    /\ extractInnerXml preBlock (lit "pre") = Some inner.
Proof.
  unfold matchPreBlock.
  destruct (matchPreOpen s) as [[preOpen rest]|] eqn:Eo; [|discriminate].
  destruct (findFrom (lit "</pre>") rest) as [[inner after]|] eqn:Ef;
    [|discriminate].
  intros [= <-]. exists preOpen, inner.
  assert (Hopen : matchPreOpen (preOpen ++ inner ++ lit "</pre>")
                  = Some (preOpen, inner ++ lit "</pre>")).
  { exact (matchTag_prefix _ _ _ _ _ Eo). }
  split; [reflexivity|]. split; [exact Hopen|].
  unfold extractInnerXml. change (lit "<" ++ lit "pre") with (lit "<pre").
  unfold matchPreOpen in Hopen. rewrite Hopen.
  change (lit "</" ++ lit "pre" ++ lit ">") with (lit "</pre>").
  rewrite endsWith_app. f_equal.
  apply firstn_app_exact. rewrite length_app. lia.
Qed.

(** X9.  The callback of [normalizePreBlocks] never takes one of its
    defensive branches: every block that the pattern of the pass matches
    begins with an opening pre tag and [extractInnerXml] finds its inner
    text (it does not throw).  The block is returned as it is exactly when
    its inner text holds no opening code tag; otherwise the result is the
    opening pre tag, the first opening code tag of the inner text, the
    inner text with its code tags taken out, and the two closing tags. *)
Theorem normalizePreBlock_on_matched_blocks (s preBlock : jsstring) :
  matchPreBlock s = Some preBlock ->
  exists preOpen inner,
    preBlock = preOpen ++ inner ++ lit "</pre>"
    /\ matchPreOpen preBlock = Some (preOpen, inner ++ lit "</pre>")
    /\ extractInnerXml preBlock (lit "pre") = Some inner
    /\ normalizePreBlock preBlock
       = match firstMatch matchCodeOpen inner with
         | None => preBlock
         | Some (firstCodeOpen, _) =>
             preOpen ++ firstCodeOpen ++ withoutCodeTags inner
             ++ lit "</code></pre>"
         end.
Proof.
  intros H. destruct (matchPreBlock_shape s preBlock H)
    as (preOpen & inner & Hshape & Hopen & Hinner).
  exists preOpen, inner. repeat split; try assumption.
  unfold normalizePreBlock. rewrite Hopen, Hinner.
  destruct (firstMatch matchCodeOpen inner) as [[firstCodeOpen r]|];
    reflexivity.
Qed.

Lemma normalizePreBlock_on_matched_blocks_witness :
  exists preOpen inner,
    lit "<pre class='x'>a <code>b</code> c</pre>"
    = preOpen ++ inner ++ lit "</pre>"
    /\ matchPreOpen (lit "<pre class='x'>a <code>b</code> c</pre>")
       = Some (preOpen, inner ++ lit "</pre>")
    /\ extractInnerXml (lit "<pre class='x'>a <code>b</code> c</pre>")
                       (lit "pre")
       = Some inner
    /\ normalizePreBlock (lit "<pre class='x'>a <code>b</code> c</pre>")
       = match firstMatch matchCodeOpen inner with
         | None => lit "<pre class='x'>a <code>b</code> c</pre>"
         | Some (firstCodeOpen, _) =>
             preOpen ++ firstCodeOpen ++ withoutCodeTags inner
             ++ lit "</code></pre>"
         end.
Proof.
  apply (normalizePreBlock_on_matched_blocks
           (lit "<pre class='x'>a <code>b</code> c</pre><p>after</p>")).
  reflexivity.
Defined.

(** X10.  What [normalizePreBlocks] writes for a pre block with code,
    [enhanceCodeBlocks] finds: the normalized block, whatever text follows
    it, is matched by the pattern of the code-block pass, with the opening
    pre tag of the block as first group, no white space as second, and the
    first opening code tag of the block as third. *)
Theorem normalized_pre_block_is_a_code_block
        (s preBlock preOpen inner firstCodeOpen after rest : jsstring) :
  matchPreBlock s = Some preBlock ->
  matchPreOpen preBlock = Some (preOpen, inner ++ lit "</pre>") ->
  firstMatch matchCodeOpen inner = Some (firstCodeOpen, after) ->
  exists codeContent,
    matchPreCode (normalizePreBlock preBlock ++ rest)
    = Some (preOpen, [], firstCodeOpen, codeContent, lit "</code>").
Proof.
  intros Hblock Hopen Hcode.
  destruct (matchPreBlock_shape s preBlock Hblock)
    as (preOpen' & inner' & Hshape & Hopen' & Hinner).
  rewrite Hopen in Hopen'. injection Hopen' as <- Hin.
  apply app_inv_tail in Hin. subst inner'.
  unfold normalizePreBlock. rewrite Hopen, Hinner, Hcode.
  apply firstMatch_Some in Hcode as (before & t & _ & Ht).
  unfold matchPreCode.
  rewrite <- app_assoc.
  unfold matchPreOpen in *. rewrite (matchTag_prefix _ _ _ _ _ Hopen).
  rewrite <- !app_assoc.
  pose proof (matchTag_shape _ _ _ _ Ht) as (inside & Htag & _).
  assert (Hlt : exists r, firstCodeOpen = 60%N :: r).
  { rewrite Htag. eexists. reflexivity. }
  destruct Hlt as (r & Hr).
  assert (Htw : forall x, takeWhile isWhiteSpace (firstCodeOpen ++ x) = []).
  { intros x. rewrite Hr. reflexivity. }
  assert (Hdw : forall x, dropWhile isWhiteSpace (firstCodeOpen ++ x)
                          = firstCodeOpen ++ x).
  { intros x. rewrite Hr. reflexivity. }
  rewrite Htw, Hdw.
  unfold matchCodeOpen in *. rewrite (matchTag_prefix _ _ _ _ _ Ht).
  change (lit "</code></pre>") with (lit "</code>" ++ lit "</pre>").
  rewrite <- !app_assoc.
  destruct (findFrom_found (lit "</code>")
              (replaceMatches
                 (fun s0 => match matchCodeTag s0 with
                            | Some (tag, _) => Some (length tag, [])
                            | None => None
                            end) 0 inner)
              (lit "</pre>" ++ rest)) as (content & a & ->).
  exists content. reflexivity.
Qed.

Lemma normalized_pre_block_is_a_code_block_witness :
  exists codeContent,
    matchPreCode
      (normalizePreBlock (lit "<pre id='x'>a <code class='y'>b</code> c</pre>")
       ++ lit "<p>after</p>")
    = Some (lit "<pre id='x'>", [], lit "<code class='y'>", codeContent,
            lit "</code>").
Proof.
  apply (normalized_pre_block_is_a_code_block
           (lit "<pre id='x'>a <code class='y'>b</code> c</pre><p>after</p>")
           (lit "<pre id='x'>a <code class='y'>b</code> c</pre>")
           (lit "<pre id='x'>") (lit "a <code class='y'>b</code> c")
           (lit "<code class='y'>") (lit "b</code> c") (lit "<p>after</p>"));
    reflexivity.
Defined.

(** *** The wrapper of the question *)

Lemma replaceMatches_keep matchAt w s :
  (forall u v, w = u ++ v -> v <> [] -> matchAt (v ++ s) = None) ->
  replaceMatches matchAt 0 (w ++ s) = w ++ replaceMatches matchAt 0 s.
Proof.
  induction w as [|c w IH]; intros H; [reflexivity|].
  pose proof (H [] (c :: w) eq_refl ltac:(discriminate)) as H0.
  cbn [app replaceMatches] in *. rewrite H0.
  f_equal. apply IH. intros u v -> Hv.
  apply (H (c :: u) v); [reflexivity | exact Hv].
Qed.

Lemma wrapper_tail_no_lt cls :
  ~ In 60%N cls -> ~ In 60%N (lit "div class=" ++ quoted cls ++ lit ">").
Proof.
  intros Hcls. unfold quoted, dq. rewrite !in_app_iff. cbn.
  intuition discriminate.
Qed.

(** No tag of the passes begins inside the opening tag of the wrapper. *)
Lemma wrapper_holds_no_tag (cls u v s second : jsstring) (x : N) :
  holdsUnit 60 cls = false ->
  lit "<div class=" ++ quoted cls ++ lit ">" = u ++ v ->
  v <> [] ->
  x <> 100%N ->
  startsWith (v ++ s) (60%N :: x :: second) = false.
Proof.
  intros Hcls E Hv Hx. apply holdsUnit_false in Hcls.
  destruct u as [|c u].
  - cbn [app] in E. rewrite <- E.
    change (lit "<div class=" ++ quoted cls ++ lit ">")
      with (60%N :: 100%N :: (lit "iv class=" ++ quoted cls ++ lit ">")).
    cbn [app]. rewrite !startsWith_cons.
    rewrite (proj2 (N.eqb_neq 100 x)) by congruence.
    rewrite andb_false_r. reflexivity.
  - destruct v as [|y v]; [congruence|]. cbn [app].
    rewrite startsWith_cons.
    assert (Hy : y <> 60%N).
    { intros ->.
      assert (E2 : lit "div class=" ++ quoted cls ++ lit ">" = u ++ 60%N :: v).
      { change (lit "<div class=" ++ quoted cls ++ lit ">")
          with (60%N :: (lit "div class=" ++ quoted cls ++ lit ">")) in E.
        cbn [app] in E. injection E as _ E. exact E. }
      apply (wrapper_tail_no_lt cls Hcls). rewrite E2.
      apply in_or_app. right. left. reflexivity. }
    rewrite (proj2 (N.eqb_neq y 60) Hy). reflexivity.
Qed.

Lemma passes_keep_wrapper toLowerCase options codeHighlighter cls rest :
  holdsUnit 60 cls = false ->
  exists rest',
    enhanceInlineCode toLowerCase
      (enhanceCodeBlocks toLowerCase
         (normalizePreBlocks (lit "<div class=" ++ quoted cls ++ lit ">"
                              ++ rest))
         options codeHighlighter)
      options
    = lit "<div class=" ++ quoted cls ++ lit ">" ++ rest'.
Proof.
  intros Hcls.
  assert (Hpre : forall u v s,
             lit "<div class=" ++ quoted cls ++ lit ">" = u ++ v ->
             v <> [] -> matchPreOpen (v ++ s) = None).
  { intros u v s E Hv. unfold matchPreOpen.
    destruct (matchTag (lit "<pre") (v ++ s)) eqn:Em; [|reflexivity].
    assert (Hs : startsWith (v ++ s) (lit "<pre") = true)
      by (apply matchTag_startsWith; congruence).
    change (lit "<pre") with (60%N :: 112%N :: lit "re") in Hs.
    rewrite (wrapper_holds_no_tag cls u v s _ _ Hcls E Hv) in Hs
      by discriminate.
    discriminate Hs. }
  assert (Hcode : forall u v s,
             lit "<div class=" ++ quoted cls ++ lit ">" = u ++ v ->
             v <> [] -> matchCodeOpen (v ++ s) = None).
  { intros u v s E Hv. unfold matchCodeOpen.
    destruct (matchTag (lit "<code") (v ++ s)) eqn:Em; [|reflexivity].
    assert (Hs : startsWith (v ++ s) (lit "<code") = true)
      by (apply matchTag_startsWith; congruence).
    change (lit "<code") with (60%N :: 99%N :: lit "ode") in Hs.
    rewrite (wrapper_holds_no_tag cls u v s _ _ Hcls E Hv) in Hs
      by discriminate.
    discriminate Hs. }
  replace (lit "<div class=" ++ quoted cls ++ lit ">" ++ rest)
    with ((lit "<div class=" ++ quoted cls ++ lit ">") ++ rest)
    by (rewrite <- !app_assoc; reflexivity).
  unfold normalizePreBlocks. rewrite replaceMatches_keep.
  - unfold enhanceCodeBlocks. rewrite replaceMatches_keep.
    + unfold enhanceInlineCode. rewrite replaceMatches_keep.
      * eexists. rewrite <- !app_assoc. reflexivity.
      * intros u v E Hv. rewrite (Hcode u v _ E Hv). reflexivity.
    + intros u v E Hv. unfold matchPreCode. rewrite (Hpre u v _ E Hv).
      reflexivity.
  - intros u v E Hv. unfold matchPreBlock. rewrite (Hpre u v _ E Hv).
    reflexivity.
Qed.

(** X24.  The question of a report always stands in its wrapper: when
    the class name of the wrapper holds no less-than sign (the default,
    item-body, holds none), the question HTML of every result begins with
    the opening div tag that carries this class name; the three passes
    leave it as the renderer wrote it. *)
Theorem question_begins_with_the_wrapper
        (toLowerCase : jsstring -> jsstring)
        (parseXml : jsstring -> Document) (xml expectedIdentifier : jsstring)
        (options : PartialReportRenderOptions) (parsed : ParsedItemForReport) :
  holdsUnit 60 (itemBodyWrapperClassName (resolveReportOptions options))
  = false ->
  renderQtiItemForReport toLowerCase parseXml xml expectedIdentifier options
  = Ok parsed ->
  exists rest,
    questionHtml parsed
    = lit "<div class="
      ++ quoted (itemBodyWrapperClassName (resolveReportOptions options))
      ++ lit ">" ++ rest.
Proof.
  intros Hcls. unfold renderQtiItemForReport.
  destruct (documentElement (parseXml xml)) as [root|]; [|discriminate].
  destruct (nodeName root =?s lit "parsererror"); [discriminate|].
  destruct (negb (truthy _)); [discriminate|].
  destruct (negb (_ =?s expectedIdentifier)); [discriminate|].
  destruct (nth_error _ 0) as [itemBody|]; [|discriminate].
  intros [= <-]. cbn [questionHtml].
  apply passes_keep_wrapper. exact Hcls.
Qed.


(* ================================================================== *)
(** * The entry points: what they throw, what they return *)
(* ================================================================== *)

Lemma renderQtiItemForScoring_inv parseXml xml options parsed :
  renderQtiItemForScoring parseXml xml options = Ok parsed ->
  exists root itemBody,
    documentElement (parseXml xml) = Some root
    /\ (nodeName root =?s lit "parsererror") = false
    /\ nth_error (getElementsByLocalName root (lit "qti-item-body")) 0
       = Some itemBody
    /\ identifier parsed = orElse (getAttribute root (lit "identifier")) []
    /\ title parsed
       = orElse (getAttribute root (lit "title")) (identifier parsed)
    /\ rubricCriteria parsed = extractRubricCriteria itemBody
    /\ choices parsed = extractChoices itemBody
    /\ parseCandidateExplanation root (resolveScoringOptions options)
       = Some (candidateExplanationHtml parsed).
Proof.
  unfold renderQtiItemForScoring.
  destruct (documentElement (parseXml xml)) as [root|]; [|discriminate].
  destruct (nodeName root =?s lit "parsererror") eqn:Hname; [discriminate|].
  destruct (nth_error _ 0) as [itemBody|] eqn:Hbody; [|discriminate].
  destruct (renderNodesForScoring _ _ _ _) as [[html st]|]; [|discriminate].
  destruct (parseCandidateExplanation _ _) as [expl|] eqn:Hex;
    [|discriminate].
  intros [= <-]. exists root, itemBody. cbn.
  repeat split; try reflexivity; assumption.
Qed.

Lemma renderQtiItemForReport_inv toLowerCase parseXml xml expected options r :
  renderQtiItemForReport toLowerCase parseXml xml expected options = Ok r ->
  exists root itemBody,
    documentElement (parseXml xml) = Some root
    /\ (nodeName root =?s lit "parsererror") = false
    /\ getAttribute root (lit "identifier") = Some expected
    /\ expected <> []
    /\ nth_error (getElementsByLocalName root (lit "qti-item-body")) 0
       = Some itemBody
    /\ rp_identifier r = expected
    /\ rp_title r = orElse (getAttribute root (lit "title")) expected
    /\ rp_rubricCriteria r = extractRubricCriteria itemBody
    /\ rp_choices r = extractChoices itemBody
    /\ itemMaxScore r = sumOfPoints (extractRubricCriteria itemBody).
Proof.
  unfold renderQtiItemForReport.
  destruct (documentElement (parseXml xml)) as [root|]; [|discriminate].
  destruct (nodeName root =?s lit "parsererror") eqn:Hname; [discriminate|].
  destruct (getAttribute root (lit "identifier")) as [id|] eqn:Hid;
    [|discriminate].
  cbn [orElse]. destruct id as [|c id]; [discriminate|].
  cbn [truthy isEmpty negb].
  destruct ((c :: id) =?s expected) eqn:Heq; [|discriminate].
  apply jseqb_eq in Heq. subst expected. cbn [negb].
  destruct (nth_error _ 0) as [itemBody|] eqn:Hbody; [|discriminate].
  intros [= <-]. exists root, itemBody. cbn.
  repeat split; try reflexivity; try assumption. discriminate.
Qed.

(** X11.  Given an XML parser that returns a document and renderer
    callbacks that return (the entry point catches nothing: an error of
    the parser, such as the ParseError of xmldom on malformed XML, or of a
    callback passes through), [renderQtiItemForScoring] itself throws in
    two situations only: when the parser gives no root element or a
    parsererror root it throws the parse error, and when the root has no
    item body it throws the item-body error; for every other document it
    returns, with the rubric criteria and the choices of the item body, and
    with a null explanation exactly when the root has no explanation
    feedback or the feedback that was chosen has no content body. *)
Theorem renderQtiItemForScoring_outcomes
        (parseXml : jsstring -> Document) (xml : jsstring)
        (options : PartialScoringRenderOptions) :
  match documentElement (parseXml xml) with
  | None =>
      renderQtiItemForScoring parseXml xml options
      = Throw (lit "QTI item XML parse failed")
  | Some root =>
      if nodeName root =?s lit "parsererror" then
        renderQtiItemForScoring parseXml xml options
        = Throw (lit "QTI item XML parse failed")
      else
        match nth_error (getElementsByLocalName root (lit "qti-item-body"))
                        0 with
        | None =>
            renderQtiItemForScoring parseXml xml options
            = Throw (lit "qti-item-body not found")
        | Some itemBody =>
            exists parsed,
              renderQtiItemForScoring parseXml xml options = Ok parsed
              /\ rubricCriteria parsed = extractRubricCriteria itemBody
              /\ choices parsed = extractChoices itemBody
              /\ (candidateExplanationHtml parsed = None
                  <-> match findExplanationFeedback root with
                      | None => True
                      | Some feedback =>
                          getElementsByLocalName feedback
                                                 (lit "qti-content-body")
                          = []
                      end)
        end
  end.
Proof.
  destruct (documentElement (parseXml xml)) as [root|] eqn:Hroot.
  - destruct (nodeName root =?s lit "parsererror") eqn:Hname.
    + unfold renderQtiItemForScoring. rewrite Hroot, Hname. reflexivity.
    + destruct (nth_error _ 0) as [itemBody|] eqn:Hbody.
      * destruct (renderQtiItemForScoring_ok parseXml xml options root
                    itemBody Hroot Hname Hbody)
          as (parsed & st & Hok & _).
        exists parsed. split; [exact Hok|].
        destruct (renderQtiItemForScoring_inv _ _ _ _ Hok)
          as (root' & itemBody' & Hroot' & _ & Hbody' & _ & _ & Hr & Hc
              & Hex).
        rewrite Hroot in Hroot'. injection Hroot' as <-.
        rewrite Hbody in Hbody'. injection Hbody' as <-.
        split; [exact Hr|]. split; [exact Hc|].
        unfold parseCandidateExplanation in Hex.
        destruct (findExplanationFeedback root) as [feedback|].
        -- destruct (getElementsByLocalName feedback (lit "qti-content-body"))
             as [|contentBody others] eqn:Hcb; cbn [nth_error] in Hex.
           ++ injection Hex as <-. tauto.
           ++ destruct (renderNodesForScoring _ _ _ _) as [[html st']|];
                [|discriminate].
              injection Hex as <-. split; discriminate.
        -- injection Hex as <-. tauto.
      * unfold renderQtiItemForScoring. rewrite Hroot, Hname, Hbody.
        reflexivity.
  - unfold renderQtiItemForScoring. rewrite Hroot. reflexivity.
Qed.


(** X13.  The two entry points agree on what they read from the same
    document: when both return, the report result has the identifier, the
    title, the rubric criteria and the choices of the scoring result. *)
Theorem scoring_and_report_agree
        (toLowerCase : jsstring -> jsstring)
        (parseXml : jsstring -> Document) (xml expectedIdentifier : jsstring)
        (scoringOptions : PartialScoringRenderOptions)
        (reportOptions : PartialReportRenderOptions)
        (scored : ParsedItemForScoring) (reported : ParsedItemForReport) :
  renderQtiItemForScoring parseXml xml scoringOptions = Ok scored ->
  renderQtiItemForReport toLowerCase parseXml xml expectedIdentifier
                         reportOptions
  = Ok reported ->
  rp_identifier reported = identifier scored
  /\ rp_title reported = title scored
  /\ rp_rubricCriteria reported = rubricCriteria scored
  /\ rp_choices reported = choices scored.
Proof.
  intros Hs Hr.
  apply renderQtiItemForScoring_inv in Hs
    as (root & itemBody & Hroot & _ & Hbody & Hid & Htitle & Hrub & Hch & _).
  apply renderQtiItemForReport_inv in Hr
    as (root' & itemBody' & Hroot' & _ & Hid' & _ & Hbody' & Hrid & Hrtitle
        & Hrrub & Hrch & _).
  rewrite Hroot in Hroot'. injection Hroot' as <-.
  rewrite Hbody in Hbody'. injection Hbody' as <-.
  rewrite Hid' in Hid. cbn [orElse] in Hid.
  rewrite Hrid, Hrtitle, Hrrub, Hrch, Htitle, Hid, Hrub, Hch.
  repeat split; reflexivity.
Qed.


Lemma scoring_and_report_agree_witness :
  rp_identifier agreeingReported = lit "item-1"
  /\ rp_title agreeingReported = title agreeingScored
  /\ rp_rubricCriteria agreeingReported = rubricCriteria agreeingScored
  /\ rp_choices agreeingReported = choices agreeingScored.
Proof.
  apply (scoring_and_report_agree
           (fun s => s) (fun _ => {| documentElement := Some agreeingItem |})
           [] (lit "item-1") noScoringOptions noReportOptions
           agreeingScored agreeingReported);
    vm_compute; reflexivity.
Defined.

(** *** Points and texts of the criteria *)

Lemma dropWhile_fixed (p : N -> bool) s :
  match s with
  | c :: _ => p c = false
  | [] => True
  end ->
  dropWhile p s = s.
Proof. destruct s as [|c s]; [reflexivity|]. cbn. intros ->. reflexivity. Qed.

Lemma trimEnd_prefix s : exists t, s = trimEnd s ++ t.
Proof.
  unfold trimEnd. exists (rev (takeWhile isWhiteSpace (rev s))).
  rewrite <- rev_app_distr, takeWhile_dropWhile, rev_involutive.
  reflexivity.
Qed.

Lemma trimEnd_fixed s : trimEnd (trimEnd s) = trimEnd s.
Proof.
  unfold trimEnd. rewrite rev_involutive, dropWhile_idem. reflexivity.
Qed.

Lemma trim_idempotent s : trim (trim s) = trim s.
Proof.
  unfold trim at 1. unfold trimStart at 1.
  rewrite dropWhile_fixed.
  - unfold trim. apply trimEnd_fixed.
  - unfold trim. pose proof (dropWhile_head isWhiteSpace s) as Hhead.
    destruct (trimEnd_prefix (trimStart s)) as (t & Ht).
    unfold trimStart in *.
    destruct (trimEnd (dropWhile isWhiteSpace s)) as [|c b]; [exact I|].
    rewrite Ht in Hhead. exact Hhead.
Qed.

Lemma zero_isNumber : isNumber (Finite 0).
Proof. split; [reflexivity|]. exists 0%N, 0%N. split; reflexivity. Qed.

Lemma parseFloat_isNumber s : isNumber (parseFloat s).
Proof. apply roundToNearestEven_isNumber. discriminate. Qed.

Lemma parseCriterionText_facts rawText :
  isNumber (fst (parseCriterionText rawText))
  /\ trim (snd (parseCriterionText rawText)) = snd (parseCriterionText rawText).
Proof.
  unfold parseCriterionText.
  destruct (matchCriterion (trim rawText)) as [[g1 g2]|]; cbn [fst snd].
  - split; [apply parseFloat_isNumber | apply trim_idempotent].
  - split; [apply zero_isNumber | apply trim_idempotent].
Qed.

Lemma extractRubricCriteria_each itemBody criterion :
  In criterion (extractRubricCriteria itemBody) ->
  exists rawText,
    points criterion = fst (parseCriterionText rawText)
    /\ text criterion = snd (parseCriterionText rawText).
Proof.
  unfold extractRubricCriteria.
  destruct (find _ _) as [scorer|]; [|intros []].
  rewrite extractRubricCriteria_loop. cbn [app].
  intros H. apply in_map_iff in H as ([i line] & <- & _).
  eexists. cbn. split; reflexivity.
Qed.

(** A binary64 sum is a binary64 value, and no summand is above it. *)
Lemma sumOfPoints_bounds criteria :
  Forall (fun c => isNumber (points c)) criteria ->
  forall acc,
    isNumber acc ->
    let sum :=
      fold_left (fun sum criterion => numberAdd sum (points criterion))
                criteria acc in
    isNumber sum /\ numberLe acc sum
    /\ Forall (fun c => numberLe (points c) sum) criteria.
Proof.
  induction 1 as [|c criteria Hc _ IH]; intros acc Hacc; cbn [fold_left].
  - split; [exact Hacc|]. split; [apply numberLe_refl | constructor].
  - destruct (IH (numberAdd acc (points c)) (numberAdd_isNumber _ _))
      as (Hnum & Hle & Hall).
    split; [exact Hnum|]. split.
    + exact (numberLe_trans _ _ _ (numberAdd_le_l acc (points c) Hacc) Hle).
    + constructor; [|exact Hall].
      exact (numberLe_trans _ _ _ (numberAdd_le_r acc (points c) Hc) Hle).
Qed.

(** Whole numbers are added without error while the sum keeps below
    2^53. *)
Lemma sumOfPoints_whole criteria :
  forall values a,
    map points criteria = map wholeNumber values ->
    (a + total values < 2 ^ 53)%N ->
    fold_left (fun sum criterion => numberAdd sum (points criterion))
              criteria (wholeNumber a)
    = wholeNumber (a + total values).
Proof.
  induction criteria as [|c criteria IH]; intros values a Hmap Hsum.
  - destruct values; [|discriminate Hmap]. cbn. rewrite N.add_0_r.
    reflexivity.
  - destruct values as [|v values]; [discriminate Hmap|].
    cbn [map] in Hmap. injection Hmap as Hc Hmap.
    cbn [fold_left total fold_right] in *. fold (total values) in *.
    rewrite Hc, numberAdd_wholeNumber by lia.
    rewrite (IH values (a + v)%N Hmap) by lia.
    f_equal. lia.
Qed.

(** X14.  In every result of the report entry point the points of the
    criteria and the maximum score are binary64 values, no criterion has
    more points than the maximum score (rounding the sum never takes it
    below a summand), and the texts have no white space at either end.
    The maximum score is 0 when there is no criterion, and it is the exact
    total when the points are whole numbers with a total below 2^53. *)
Theorem report_scores_are_bounded
        (toLowerCase : jsstring -> jsstring)
        (parseXml : jsstring -> Document) (xml expectedIdentifier : jsstring)
        (options : PartialReportRenderOptions) (parsed : ParsedItemForReport) :
  renderQtiItemForReport toLowerCase parseXml xml expectedIdentifier options
  = Ok parsed ->
  isNumber (itemMaxScore parsed)
  /\ Forall (fun criterion =>
               isNumber (points criterion)
               /\ numberLe (points criterion) (itemMaxScore parsed)
               /\ trim (text criterion) = text criterion)
            (rp_rubricCriteria parsed)
  /\ (rp_rubricCriteria parsed = [] -> itemMaxScore parsed = Finite 0)
  /\ (forall values,
         map points (rp_rubricCriteria parsed) = map wholeNumber values ->
         (total values < 2 ^ 53)%N ->
         itemMaxScore parsed = wholeNumber (total values)).
Proof.
  intros H. apply renderQtiItemForReport_inv in H
    as (root & itemBody & _ & _ & _ & _ & _ & _ & _ & Hrub & _ & Hmax).
  rewrite Hrub, Hmax.
  assert (Hnum : Forall (fun c => isNumber (points c))
                        (extractRubricCriteria itemBody)).
  { apply Forall_forall. intros c Hc.
    apply extractRubricCriteria_each in Hc as (raw & -> & _).
    apply parseCriterionText_facts. }
  destruct (sumOfPoints_bounds _ Hnum (Finite 0) zero_isNumber)
    as (Hsum & _ & Hall).
  split; [exact Hsum|]. split; [|split].
  - apply Forall_forall. intros c Hc.
    rewrite Forall_forall in Hnum, Hall.
    split; [exact (Hnum c Hc)|]. split; [exact (Hall c Hc)|].
    apply extractRubricCriteria_each in Hc as (raw & _ & ->).
    apply parseCriterionText_facts.
  - intros ->. reflexivity.
  - intros values Hmap Hlt. unfold sumOfPoints.
    change (Finite 0) with (wholeNumber 0).
    rewrite (sumOfPoints_whole _ values 0%N Hmap) by lia.
    reflexivity.
Qed.

Lemma report_scores_are_bounded_witness :
  isNumber (itemMaxScore agreeingReported)
  /\ Forall (fun criterion =>
               isNumber (points criterion)
               /\ numberLe (points criterion) (itemMaxScore agreeingReported)
               /\ trim (text criterion) = text criterion)
            (rp_rubricCriteria agreeingReported)
  /\ (rp_rubricCriteria agreeingReported = [] ->
      itemMaxScore agreeingReported = Finite 0)
  /\ (forall values,
         map points (rp_rubricCriteria agreeingReported)
         = map wholeNumber values ->
         (total values < 2 ^ 53)%N ->
         itemMaxScore agreeingReported = wholeNumber (total values)).
Proof.
  apply (report_scores_are_bounded
           (fun s => s) (fun _ => {| documentElement := Some agreeingItem |})
           [] (lit "item-1") noReportOptions agreeingReported).
  vm_compute. reflexivity.
Defined.

(** *** The explanation feedback *)

Lemma hasAttribute_eq node name value :
  match getAttribute node name with
  | Some v => v =?s value
  | None => false
  end = true
  <-> getAttribute node name = Some value.
Proof.
  destruct (getAttribute node name) as [v|].
  - rewrite jseqb_eq. split; [intros ->; reflexivity | intros [= ->]; reflexivity].
  - split; discriminate.
Qed.

(** X15.  [parseCandidateExplanation] looks for its feedback among the
    modal feedbacks of the root: it finds none exactly when no modal
    feedback has the identifier EXPLANATION; the one it finds is a modal
    feedback with that identifier, and it is one bound to the outcome
    FEEDBACK whenever the root has such a one, even if an explanation
    without that outcome comes first in the document. *)
Theorem explanation_feedback_preference (root : Node) :
  let modalFeedbacks :=
    getElementsByLocalName root (lit "qti-modal-feedback") in
  (findExplanationFeedback root = None
   <-> forall feedback, In feedback modalFeedbacks -> ~ isExplanation feedback)
  /\ (forall feedback,
         findExplanationFeedback root = Some feedback ->
         In feedback modalFeedbacks
         /\ isExplanation feedback
         /\ ((exists other, In other modalFeedbacks
                            /\ isFeedbackExplanation other) ->
             isFeedbackExplanation feedback)).
Proof.
  intros modalFeedbacks.
  pose (hasId := fun feedback : Node =>
                  match getAttribute feedback (lit "identifier") with
                  | Some v => v =?s lit "EXPLANATION"
                  | None => false
                  end).
  pose (hasOutcome := fun feedback : Node =>
                       match getAttribute feedback (lit "outcome-identifier")
                       with
                       | Some v => v =?s lit "FEEDBACK"
                       | None => false
                       end).
  assert (Hdef : findExplanationFeedback root
                 = match find (fun feedback =>
                                 hasId feedback && hasOutcome feedback)
                              modalFeedbacks with
                   | Some f => Some f
                   | None => find hasId modalFeedbacks
                   end) by reflexivity.
  rewrite Hdef. clear Hdef.
  assert (Hid : forall f, hasId f = true <-> isExplanation f).
  { intros f. apply hasAttribute_eq. }
  assert (Hboth : forall f, hasId f && hasOutcome f = true
                            <-> isFeedbackExplanation f).
  { intros f. rewrite andb_true_iff. unfold isFeedbackExplanation.
    rewrite <- Hid. unfold hasOutcome. rewrite hasAttribute_eq. reflexivity. }
  split.
  - destruct (find (fun feedback => hasId feedback && hasOutcome feedback)
                   modalFeedbacks) as [f|] eqn:E1.
    + split; [discriminate|]. intros H. exfalso.
      apply find_some in E1 as [Hin Hf].
      apply (H f Hin). apply Hboth in Hf. apply Hf.
    + split.
      * intros E2 f Hin Hf. apply Hid in Hf.
        pose proof (find_none _ _ E2 f Hin) as Hn. congruence.
      * intros H. destruct (find hasId modalFeedbacks) as [f|] eqn:E2;
          [|reflexivity].
        apply find_some in E2 as [Hin Hf]. apply Hid in Hf.
        exfalso. exact (H f Hin Hf).
  - intros feedback.
    destruct (find (fun feedback => hasId feedback && hasOutcome feedback)
                   modalFeedbacks) as [f|] eqn:E1.
    + intros [= <-]. apply find_some in E1 as [Hin Hf].
      apply Hboth in Hf. split; [exact Hin|]. split; [apply Hf|].
      intros _. exact Hf.
    + intros E2. apply find_some in E2 as [Hin Hf]. apply Hid in Hf.
      split; [exact Hin|]. split; [exact Hf|].
      intros (other & Hother & Hfe). apply Hboth in Hfe.
      pose proof (find_none _ _ E1 other Hother) as Hn. cbv beta in Hn.
      congruence.
Qed.

Lemma question_begins_with_the_wrapper_witness :
  exists rest,
    questionHtml agreeingReported
    = lit "<div class=" ++ quoted (lit "item-body") ++ lit ">" ++ rest.
Proof.
  apply (question_begins_with_the_wrapper
           (fun s => s) (fun _ => {| documentElement := Some agreeingItem |})
           [] (lit "item-1") noReportOptions agreeingReported);
    [reflexivity | vm_compute; reflexivity].
Defined.


(* ================================================================== *)
(** * The HTML utilities: what they leave alone, when they throw *)
(* ================================================================== *)

Lemma map_updateNth {A B : Type} (g : A -> B) (h : A -> A) i l :
  (forall x, g (h x) = g x) -> map g (updateNth i h l) = map g l.
Proof.
  intros H. revert i. induction l as [|x l IH]; intros [|i]; cbn;
    try reflexivity.
  - rewrite H. reflexivity.
  - rewrite IH. reflexivity.
Qed.

Lemma withoutAttributes_updateAt f :
  (forall m, withoutAttributes (f m) = withoutAttributes m) ->
  forall p n, withoutAttributes (updateAt p f n) = withoutAttributes n.
Proof.
  intros Hf. induction p as [|i p IH]; intros n; [apply Hf|].
  destruct n as [t d | q l a children]; [reflexivity|].
  cbn [updateAt withoutAttributes]. f_equal.
  apply map_updateNth. exact IH.
Qed.

Lemma withoutAttributes_setAttributeOf name value m :
  withoutAttributes (setAttributeOf name value m) = withoutAttributes m.
Proof. destruct m; reflexivity. Qed.

Lemma treesOf_setAttribute doc r name value :
  treesOf (setAttribute doc r name value) = treesOf doc.
Proof.
  unfold treesOf, setAttribute, update.
  destruct r as [p|p]; cbn [head body];
    rewrite withoutAttributes_updateAt
      by (apply withoutAttributes_setAttributeOf);
    reflexivity.
Qed.

Lemma treesOf_forEachIndexed step refs doc :
  (forall d r i, treesOf (step d r i) = treesOf d) ->
  treesOf (forEachIndexed step refs doc) = treesOf doc.
Proof.
  intros Hstep. unfold forEachIndexed.
  generalize (combine refs (seq 0 (length refs))). intros l. revert doc.
  induction l as [|[r i] l IH]; intros doc; [reflexivity|].
  cbn [fold_left fst snd]. rewrite IH. apply Hstep.
Qed.

Lemma treesOf_fillBlank responses doc blank index :
  treesOf (fillBlank responses doc blank index) = treesOf doc.
Proof.
  unfold fillBlank. destruct (nth_error responses index); [|reflexivity].
  rewrite !treesOf_setAttribute. reflexivity.
Qed.

Lemma treesOf_rewriteImage resolveRelativePath baseFilePath options doc img i :
  treesOf (rewriteImage resolveRelativePath baseFilePath options doc img i)
  = treesOf doc.
Proof.
  unfold rewriteImage.
  destruct (match deref doc img with
            | Some e => getAttribute e (lit "src")
            | None => None
            end) as [src|]; [|reflexivity].
  destruct (negb (truthy src) || _); [reflexivity|].
  destruct (resolveRelativePath baseFilePath src) as [r|]; [|reflexivity].
  destruct (negb (truthy r)); [reflexivity|].
  apply treesOf_setAttribute.
Qed.

(** X16.  The two HTML utilities change attributes only.  Given a DOM
    parser, the document whose body [applyResponsesToPromptHtml] writes
    back after its loop (when it does not return the prompt itself) and
    the one whose body [rewriteHtmlImageSources] writes back have the
    elements, the texts and the nesting of the parsed document: no node is
    added, removed, moved or renamed, and no text is changed. *)
Theorem html_utilities_change_attributes_only
        (matchesSelector : jsstring -> Node -> bool)
        (innerHTML : Node -> jsstring)
        (globalDOMParser : option HtmlDomParser)
        (resolveRelativePath : jsstring -> jsstring -> option jsstring)
        (html : jsstring) :
  (forall response options parser,
      resolveHtmlDomParser globalDOMParser (domParser options) = Ok parser ->
      let responses := normalizeResponses response in
      let doc := parseFromString parser html (lit "text/html") in
      let blanks :=
        querySelectorAll matchesSelector doc (lit "input.qti-blank-input") in
      let doc' := forEachIndexed (fillBlank responses) blanks doc in
      applyResponsesToPromptHtml matchesSelector innerHTML globalDOMParser
                                 html response options
      = Ok (if negb (includes html (lit "qti-blank-input"))
               || (length responses =? 0) || (length blanks =? 0)
            then html
            else innerHTML (body doc'))
      /\ withoutAttributes (body doc') = withoutAttributes (body doc)
      /\ withoutAttributes (head doc') = withoutAttributes (head doc))
  /\ (forall baseFilePath options parser,
         resolveHtmlDomParser globalDOMParser (rw_domParser options)
         = Ok parser ->
         let doc := parseFromString parser html (lit "text/html") in
         let images := querySelectorAll matchesSelector doc (lit "img[src]") in
         let doc' :=
           forEachIndexed (rewriteImage resolveRelativePath baseFilePath
                                        options)
                          images doc in
         rewriteHtmlImageSources matchesSelector innerHTML globalDOMParser
                                 resolveRelativePath html baseFilePath options
         = Ok (innerHTML (body doc'))
         /\ withoutAttributes (body doc') = withoutAttributes (body doc)
         /\ withoutAttributes (head doc') = withoutAttributes (head doc)).
Proof.
  split.
  - intros response options parser Hparser responses doc blanks doc'.
    pose proof (treesOf_forEachIndexed (fillBlank responses) blanks doc
                  (treesOf_fillBlank _)) as H.
    unfold treesOf in H. injection H as Hhead Hbody.
    split; [|split; [exact Hbody | exact Hhead]].
    unfold applyResponsesToPromptHtml.
    destruct (negb (includes html (lit "qti-blank-input"))); [reflexivity|].
    fold responses. destruct (length responses =? 0); [reflexivity|].
    rewrite Hparser. fold doc. fold blanks.
    destruct (length blanks =? 0); reflexivity.
  - intros baseFilePath options parser Hparser doc images doc'.
    pose proof (treesOf_forEachIndexed
                  (rewriteImage resolveRelativePath baseFilePath options)
                  images doc (treesOf_rewriteImage _ _ _)) as H.
    unfold treesOf in H. injection H as Hhead Hbody.
    split; [|split; [exact Hbody | exact Hhead]].
    unfold rewriteHtmlImageSources. rewrite Hparser. reflexivity.
Qed.


(** *** The default detector of external sources *)

Lemma holdsUnit_app c a b : holdsUnit c (a ++ b) = holdsUnit c a || holdsUnit c b.
Proof. unfold holdsUnit. apply existsb_app. Qed.

Lemma startsWith_holds s c p :
  startsWith s (c :: p) = true -> holdsUnit c s = true.
Proof.
  destruct s as [|x s]; [discriminate|]. rewrite startsWith_cons.
  intros H. apply andb_true_iff in H as [H _]. apply N.eqb_eq in H.
  subst x. unfold holdsUnit. cbn [existsb]. rewrite N.eqb_refl. reflexivity.
Qed.

Lemma startsWith_shorter s c p :
  startsWith s (c :: p) = true -> startsWith s [c] = true.
Proof.
  destruct s as [|x s]; [discriminate|]. rewrite !startsWith_cons.
  intros H. apply andb_true_iff in H as [-> _]. rewrite startsWith_nil.
  reflexivity.
Qed.

(** X18.  Without a detector of the caller, a source is external exactly
    when it begins with ASCII letters followed by a colon and two slashes,
    with two slashes, with one slash, or with "data:" in lower case; in
    particular a source that holds no colon and does not begin with a
    slash is never external. *)
Theorem defaultIsExternalSource_exactly (src : jsstring) :
  (defaultIsExternalSource src = true <-> isListedExternal src)
  /\ (holdsUnit 58 src = false ->
      startsWith src (lit "/") = false ->
      defaultIsExternalSource src = false).
Proof.
  assert (Hiff : defaultIsExternalSource src = true <-> isListedExternal src).
  { split; [|apply listed_external_detected].
    unfold defaultIsExternalSource, testSchemeOrProtocolRelative.
    rewrite !orb_true_iff, andb_true_iff, negb_true_iff.
    intros [[[[Hscheme Hrest] | H] | H] | H].
    - left. exists (takeWhile isAsciiLetter src),
        (skipn 3 (dropWhile isAsciiLetter src)).
      split; [apply isEmpty_false_inv, Hscheme|].
      split; [apply takeWhile_Forall|].
      rewrite <- (takeWhile_dropWhile isAsciiLetter src) at 1. f_equal.
      exact (startsWith_split _ _ Hrest).
    - right. left. exact H.
    - right. right. right. exact H.
    - right. right. left. exact H. }
  split; [exact Hiff|].
  intros Hcolon Hslash. apply not_true_is_false. intros H.
  apply Hiff in H as [(scheme & rest & _ & _ & ->) | [H | [H | H]]].
  - rewrite !holdsUnit_app in Hcolon. cbn in Hcolon.
    rewrite orb_true_r in Hcolon. discriminate Hcolon.
  - change (lit "//") with (47%N :: [47%N]) in H.
    change (lit "/") with [47%N] in Hslash.
    apply startsWith_shorter in H. congruence.
  - congruence.
  - apply startsWith_split in H. rewrite H in Hcolon.
    rewrite holdsUnit_app in Hcolon. cbn in Hcolon. discriminate Hcolon.
Qed.

Example defaultIsExternalSource_examples :
  defaultIsExternalSource (lit "images/pic.png") = false
  /\ defaultIsExternalSource (lit "../pic.png") = false
  /\ defaultIsExternalSource (lit "HTTPS://example.org/pic.png") = true
  /\ defaultIsExternalSource (lit "//cdn.example.org/pic.png") = true
  /\ defaultIsExternalSource (lit "/pic.png") = true
  /\ defaultIsExternalSource (lit "data:image/png;base64,AAAA") = true
  /\ defaultIsExternalSource (lit "DATA:image/png;base64,AAAA") = false
  /\ defaultIsExternalSource (lit "mailto:someone") = false.
Proof. repeat split; reflexivity. Qed.


(* ================================================================== *)
(** * The language of a code element *)
(* ================================================================== *)

(** X19.  [normalizeLanguageForReport] never answers "xml" or
    "plaintext", whatever [toLowerCase] gives: it answers "html" and
    "plain" for them.  [normalizeLanguage] is the same function.  When
    [toLowerCase] leaves "html", "plain" and its own results as they are,
    normalizing a second time changes nothing. *)
Theorem normalizeLanguageForReport_never_xml
        (toLowerCase : jsstring -> jsstring) (language : jsstring) :
  normalizeLanguageForReport toLowerCase language <> lit "xml"
  /\ normalizeLanguageForReport toLowerCase language <> lit "plaintext"
  /\ normalizeLanguage toLowerCase language
     = normalizeLanguageForReport toLowerCase language
  /\ (toLowerCase (lit "html") = lit "html" ->
      toLowerCase (lit "plain") = lit "plain" ->
      (forall s, toLowerCase (toLowerCase s) = toLowerCase s) ->
      normalizeLanguageForReport toLowerCase
        (normalizeLanguageForReport toLowerCase language)
      = normalizeLanguageForReport toLowerCase language).
Proof.
  unfold normalizeLanguageForReport, normalizeLanguage.
  destruct (toLowerCase language =?s lit "xml") eqn:Exml.
  - repeat split; try discriminate.
    intros Hhtml _ _. rewrite Hhtml. reflexivity.
  - destruct (toLowerCase language =?s lit "plaintext") eqn:Eplain.
    + repeat split; try discriminate.
      intros _ Hplain _. rewrite Hplain. reflexivity.
    + repeat split.
      * intros H. rewrite H in Exml. discriminate Exml.
      * intros H. rewrite H in Eplain. discriminate Eplain.
      * intros _ _ Hidem. rewrite Hidem, Exml, Eplain. reflexivity.
Qed.

(** *** The detector on tags and the detector on elements *)

Lemma lookupAttr_rev_distinct name l :
  NoDup (map fst l) -> lookupAttr name (rev l) = lookupAttr name l.
Proof.
  induction l as [|[k v] l IH]; intros Hnd; [reflexivity|].
  cbn [map fst] in Hnd. inversion Hnd as [|? ? Hk Hnd']; subst.
  cbn [rev]. rewrite lookupAttr_app, (IH Hnd'). cbn [lookupAttr].
  destruct (k =?s name) eqn:E.
  - apply jseqb_eq in E. subst k.
    rewrite lookupAttr_none; [reflexivity|].
    apply Forall_forall. intros [k' v'] Hin. cbn [fst].
    apply not_true_is_false. intros E. apply jseqb_eq in E. subst k'.
    apply Hk. apply (in_map fst) in Hin. exact Hin.
  - destruct (lookupAttr name l); reflexivity.
Qed.

Lemma lookupAttr_map_values (g : jsstring -> jsstring) name l :
  lookupAttr name (map (fun a => (fst a, g (snd a))) l)
  = option_map g (lookupAttr name l).
Proof.
  induction l as [|[k v] l IH]; [reflexivity|].
  cbn [map fst snd lookupAttr]. destruct (k =?s name); [reflexivity|exact IH].
Qed.

Lemma NoDup_map_filter {A B : Type} (f : A -> B) (p : A -> bool) l :
  NoDup (map f l) -> NoDup (map f (filter p l)).
Proof.
  induction l as [|x l IH]; intros Hnd; [constructor|].
  cbn [map] in Hnd. inversion Hnd as [|? ? Hx Hnd']; subst.
  cbn [filter]. destruct (p x); [|apply IH, Hnd'].
  cbn [map]. constructor; [|apply IH, Hnd'].
  intros Hin. apply Hx. apply in_map_iff in Hin as (y & Hy & Hin).
  apply filter_In in Hin as [Hin _]. rewrite <- Hy. apply in_map, Hin.
Qed.

(** What the tag of an element gives for one of the language attributes:
    the value of the element. *)
Lemma attributeOf_serialized (tag : jsstring) el name :
  Forall (fun c => isAttrNameChar c = true) tag ->
  forallb (fun a => isPlainAttrName (fst a)) (attributes el) = true ->
  NoDup (map fst (attributes el)) ->
  In name languageAttributes ->
  hasPlainValue el name = true ->
  attributeOf (parseAttributes (lit "<" ++ tag ++ serializeAttributes el
                                ++ lit ">")) name
  = getAttribute el name.
Proof.
  intros Htag Hnames Hnd Hname Hplain.
  rewrite serializeAttributes_text.
  change (lit "<" ++ tag ++ attributesText ?a ++ lit ">") with (openTag tag a).
  rewrite attributeOf_openTag; [|exact Htag| |].
  - unfold attributeOf. rewrite lookupAttr_rev_distinct.
    + rewrite (lookupAttr_map_values escapeHtml).
      rewrite lookupAttr_filter.
      * unfold getAttribute, hasPlainValue, getAttribute in *.
        destruct (lookupAttr name (attributes el)) as [v|]; [|reflexivity].
        cbn [option_map]. rewrite (escapeHtml_plain v Hplain). reflexivity.
      * intros v. unfold isNamespaceDeclaration. cbn [fst].
        destruct Hname as [<- | [<- | [<- | [<- | []]]]]; reflexivity.
    + rewrite map_map. cbn [fst].
      apply (NoDup_map_filter fst). exact Hnd.
  - unfold readable. apply Forall_forall. intros a Ha.
    apply in_map_iff in Ha as ([k v] & <- & Hin).
    apply filter_In in Hin as [Hin _]. cbn [fst snd]. split.
    + rewrite forallb_forall in Hnames. apply (Hnames _ Hin).
    + apply escapeHtml_no_quote.
  - intros ->.
    destruct Hname as [H | [H | [H | [H | []]]]]; discriminate H.
Qed.

(** X20.  The report detects the language on the text of the tag that it
    has rendered, and finds what the element says: for an element with
    plain and distinct attribute names, whose language attributes
    (data-lang, data-language, data-code-lang, class) hold none of the
    characters that are escaped, [detectCodeLanguageFromOpenTag] on the
    opening tag built from [serializeAttributes] gives the answer of
    [detectCodeLanguage] on the element. *)
Theorem detectCodeLanguageFromOpenTag_reads_the_element
        (tag : jsstring) (el : Node) :
  forallb isAttrNameChar tag = true ->
  forallb (fun a => isPlainAttrName (fst a)) (attributes el) = true ->
  NoDup (map fst (attributes el)) ->
  forallb (hasPlainValue el) languageAttributes = true ->
  detectCodeLanguageFromOpenTag
    (lit "<" ++ tag ++ serializeAttributes el ++ lit ">")
  = detectCodeLanguage el.
Proof.
  intros Htag Hnames Hnd Hplain.
  apply forallb_Forall_true in Htag.
  rewrite forallb_forall in Hplain.
  assert (H : forall name, In name languageAttributes ->
              attributeOf (parseAttributes
                             (lit "<" ++ tag ++ serializeAttributes el
                              ++ lit ">")) name
              = getAttribute el name).
  { intros name Hname. apply attributeOf_serialized; try assumption.
    apply Hplain, Hname. }
  unfold detectCodeLanguageFromOpenTag, detectCodeLanguage.
  rewrite !H by (unfold languageAttributes; cbn [In]; tauto).
  reflexivity.
Qed.

Lemma detectCodeLanguageFromOpenTag_reads_the_element_witness :
  detectCodeLanguageFromOpenTag
    (lit "<" ++ lit "code" ++ serializeAttributes languageExample ++ lit ">")
  = Some (lit "js").
Proof.
  rewrite (detectCodeLanguageFromOpenTag_reads_the_element
             (lit "code") languageExample);
    try reflexivity.
  repeat constructor; cbn; intuition discriminate.
Defined.

(* ================================================================== *)
(** * The report renderer and scorer-only content *)
(* ================================================================== *)

Lemma renderNodeForReport_emptied node options :
  forall inPre preserveWhitespace,
    renderNodeForReport (withEmptyRubricBlocks node) options inPre
                        preserveWhitespace
    = renderNodeForReport node options inPre preserveWhitespace.
Proof.
  induction node as [t d | q l a children IH] using Node_induction;
    intros inPre preserveWhitespace; [reflexivity|].
  cbn [withEmptyRubricBlocks].
  destruct (l =?s lit "qti-rubric-block") eqn:E.
  - cbn [renderNodeForReport]. rewrite E. reflexivity.
  - assert (Hch : forall p w,
               join (map (fun child =>
                            renderNodeForReport child options p w)
                         (map withEmptyRubricBlocks children))
               = join (map (fun child =>
                              renderNodeForReport child options p w)
                           children)).
    { intros p w. rewrite map_map. f_equal. apply map_ext_in.
      intros c Hc. apply IH, Hc. }
    cbn [renderNodeForReport]. rewrite E, !Hch. reflexivity.
Qed.

(** X21.  Nothing that stands in a rubric block reaches the HTML of the
    report: [renderNodeForReport] gives the same text for a tree and for
    the tree with its rubric blocks emptied, so two trees that differ
    only inside rubric blocks are rendered alike. *)
Theorem renderNodeForReport_ignores_rubric_blocks
        (node : Node) (options : ReportRenderOptions)
        (inPre preserveWhitespace : bool) :
  renderNodeForReport (withEmptyRubricBlocks node) options inPre
                      preserveWhitespace
  = renderNodeForReport node options inPre preserveWhitespace
  /\ (forall other,
         withEmptyRubricBlocks other = withEmptyRubricBlocks node ->
         renderNodeForReport other options inPre preserveWhitespace
         = renderNodeForReport node options inPre preserveWhitespace).
Proof.
  split; [apply renderNodeForReport_emptied|].
  intros other H.
  rewrite <- (renderNodeForReport_emptied other),
    <- (renderNodeForReport_emptied node), H.
  reflexivity.
Qed.


(* ================================================================== *)
(** * The marker of a blank in the prompt *)
(* ================================================================== *)

Lemma startsWith_app_l a b m :
  startsWith a m = true -> startsWith (a ++ b) m = true.
Proof.
  revert a. induction m as [|x m IH]; intros a H.
  - apply startsWith_nil.
  - destruct a as [|c a]; [discriminate|]. cbn [app].
    rewrite startsWith_cons in *. apply andb_true_iff in H as [-> H].
    apply IH, H.
Qed.

Lemma includes_nil s : includes s [] = true.
Proof. destruct s; reflexivity. Qed.

Lemma includes_app_l a b m :
  includes a m = true -> includes (a ++ b) m = true.
Proof.
  induction a as [|c a IH]; intros H.
  - cbn in H. destruct m; [apply includes_nil | discriminate].
  - cbn [app includes] in *. apply orb_true_iff in H as [H | H].
    + change (c :: a ++ b) with ((c :: a) ++ b).
      rewrite (startsWith_app_l _ b _ H). reflexivity.
    + rewrite (IH H). apply orb_true_r.
Qed.

Lemma includes_app_r a b m :
  includes b m = true -> includes (a ++ b) m = true.
Proof.
  intros H. induction a as [|c a IH]; [exact H|].
  cbn [app includes]. rewrite IH. apply orb_true_r.
Qed.

Lemma includes_here s m : startsWith s m = true -> includes s m = true.
Proof. intros H. destruct s; cbn [includes]; rewrite H; reflexivity. Qed.

Lemma includes_intro a m b : includes (a ++ m ++ b) m = true.
Proof. apply includes_app_r, includes_here, startsWith_app. Qed.

Lemma includes_inv s m :
  includes s m = true -> exists a b, s = a ++ m ++ b.
Proof.
  induction s as [|c s IH]; cbn [includes]; intros H.
  - rewrite orb_false_r in H. exists [], []. cbn.
    destruct m; [reflexivity | discriminate H].
  - apply orb_true_iff in H as [H | H].
    + exists [], (skipn (length m) (c :: s)). apply (startsWith_split _ _ H).
    + destruct (IH H) as (a & b & ->). exists (c :: a), b. reflexivity.
Qed.

Ltac includes_part :=
  first [ assumption
        | apply includes_app_l; includes_part
        | apply includes_app_r; includes_part ].

(** Trimming the white space at the ends of the code of a pre block does
    not take the marker away: the marker begins and ends with a letter. *)
Lemma includes_dropWhile s m c :
  isWhiteSpace c = false ->
  includes s (c :: m) = true ->
  includes (dropWhile isWhiteSpace s) (c :: m) = true.
Proof.
  intros Hc. induction s as [|x s IH]; intros H; [exact H|].
  cbn [dropWhile]. destruct (isWhiteSpace x) eqn:Ex; [|exact H].
  apply IH. cbn [includes] in H. apply orb_true_iff in H as [H | H];
    [|exact H].
  rewrite startsWith_cons in H. apply andb_true_iff in H as [H _].
  apply N.eqb_eq in H. congruence.
Qed.

Lemma includes_without_last t x m z :
  isWhiteSpace x = true -> isWhiteSpace z = false ->
  includes (t ++ [x]) (m ++ [z]) = true ->
  includes t (m ++ [z]) = true.
Proof.
  intros Hx Hz H. apply includes_inv in H as (a & b & E).
  destruct b as [|y b] using rev_ind.
  - rewrite app_nil_r, app_assoc in E. apply app_inj_tail in E as [_ E].
    congruence.
  - rewrite !app_assoc in E. apply app_inj_tail in E as [E _].
    rewrite E.
    replace (((a ++ m) ++ [z]) ++ b) with (a ++ (m ++ [z]) ++ b)
      by (rewrite <- !app_assoc; reflexivity).
    apply includes_intro.
Qed.

Lemma includes_trimEnd s m z :
  isWhiteSpace z = false ->
  includes s (m ++ [z]) = true ->
  includes (rev (dropWhile isWhiteSpace (rev s))) (m ++ [z]) = true.
Proof.
  intros Hz. induction s as [|x s IH] using rev_ind; intros H; [exact H|].
  rewrite rev_app_distr. cbn [rev app dropWhile].
  destruct (isWhiteSpace x) eqn:Ex.
  - apply IH. exact (includes_without_last s x m z Ex Hz H).
  - cbn [rev]. rewrite rev_involutive. exact H.
Qed.

Lemma trimCodeStart_cases b inner :
  trimCodeStart b inner = inner
  \/ trimCodeStart b inner = dropWhile isWhiteSpace inner.
Proof.
  unfold trimCodeStart. destruct b; [|left; reflexivity].
  rewrite orElse_matchLeading.
  destruct (truthy _ && _ && _); [|left; reflexivity].
  right. apply skipn_takeWhile.
Qed.

Lemma trimCodeEnd_cases b inner :
  trimCodeEnd b inner = inner
  \/ trimCodeEnd b inner = rev (dropWhile isWhiteSpace (rev inner)).
Proof.
  unfold trimCodeEnd. destruct b; [|left; reflexivity].
  rewrite orElse_matchTrailing.
  destruct (truthy _ && _ && _); [|left; reflexivity].
  right. apply firstn_rev_dropWhile.
Qed.

Lemma includes_trimmed_code b1 b2 inner :
  includes inner blankMarker = true ->
  includes (trimCodeEnd b2 (trimCodeStart b1 inner)) blankMarker = true.
Proof.
  intros H.
  assert (H1 : includes (trimCodeStart b1 inner) blankMarker = true).
  { destruct (trimCodeStart_cases b1 inner) as [-> | ->]; [exact H|].
    apply (includes_dropWhile inner (lit "ti-blank-input") 113%N);
      [reflexivity | exact H]. }
  destruct (trimCodeEnd_cases b2 (trimCodeStart b1 inner)) as [-> | ->];
    [exact H1|].
  apply (includes_trimEnd _ (lit "qti-blank-inpu") 116%N);
    [reflexivity | exact H1].
Qed.

(** *** The renderer *)

Lemma Marks_ret {A : Type} (out : A -> jsstring) (a : A) : Marks out (ret a).
Proof. intros st b st' H. apply ret_Some in H as [_ ->]. left. reflexivity. Qed.

Lemma Marks_wrap {A : Type} (out : A -> jsstring) (m : M A)
      (f : A -> jsstring) :
  Marks out m ->
  (forall x, includes (out x) blankMarker = true ->
             includes (f x) blankMarker = true) ->
  Marks (fun s => s) (x <- m ;; ret (f x)).
Proof.
  intros Hm Hf st b st' H.
  apply bind_Some in H as (a & st1 & H1 & H2).
  apply ret_Some in H2 as [-> ->].
  destruct (Hm _ _ _ H1) as [Hi | Hi]; [left; exact Hi|].
  right. apply Hf, Hi.
Qed.

Lemma Marks_mapM {A : Type} (f : A -> M jsstring) (l : list A) :
  (forall x, In x l -> Marks (fun s => s) (f x)) ->
  Marks join (mapM f l).
Proof.
  induction l as [|x l IH]; intros Hf; cbn [mapM].
  - apply Marks_ret.
  - intros st b st' H.
    apply bind_Some in H as (y & st1 & H1 & H2).
    apply bind_Some in H2 as (ys & st2 & H2 & H3).
    apply ret_Some in H3 as [-> ->].
    assert (IH' : Marks join (mapM f l)).
    { apply IH. intros z Hz. apply Hf. right. exact Hz. }
    destruct (Hf x (or_introl eq_refl) _ _ _ H1) as [Hy | Hy];
      destruct (IH' _ _ _ H2) as [Hys | Hys].
    + left. congruence.
    + right. cbn [join concat]. apply includes_app_r, Hys.
    + right. cbn [join concat]. apply includes_app_l, Hy.
    + right. cbn [join concat]. apply includes_app_l, Hy.
Qed.

Lemma Marks_mapiM_from {A : Type} (f : A -> nat -> M jsstring) (l : list A) :
  (forall x i, In x l -> Marks (fun s => s) (f x i)) ->
  forall i, Marks join (mapiM_from i f l).
Proof.
  induction l as [|x l IH]; intros Hf i; cbn [mapiM_from].
  - apply Marks_ret.
  - intros st b st' H.
    apply bind_Some in H as (y & st1 & H1 & H2).
    apply bind_Some in H2 as (ys & st2 & H2 & H3).
    apply ret_Some in H3 as [-> ->].
    assert (IH' : Marks join (mapiM_from (S i) f l)).
    { apply IH. intros z j Hz. apply Hf. right. exact Hz. }
    destruct (Hf x i (or_introl eq_refl) _ _ _ H1) as [Hy | Hy];
      destruct (IH' _ _ _ H2) as [Hys | Hys].
    + left. congruence.
    + right. cbn [join concat]. apply includes_app_r, Hys.
    + right. cbn [join concat]. apply includes_app_l, Hy.
    + right. cbn [join concat]. apply includes_app_l, Hy.
Qed.

Lemma Marks_mapJoin {A : Type} (f : A -> M jsstring) (l : list A) :
  (forall x, In x l -> Marks (fun s => s) (f x)) ->
  Marks (fun s => s) (mapJoin f l).
Proof.
  intros Hf. unfold mapJoin.
  apply (Marks_wrap join); [apply Marks_mapM, Hf | auto].
Qed.

Lemma Marks_blank options el :
  (forall i, includes (blankRenderer options i) blankMarker = true) ->
  Marks (fun s => s) (idx <- preIncrement ;; callBlankRenderer options el idx).
Proof.
  intros Hopt st a st' H. unfold bind, preIncrement, callBlankRenderer in H.
  injection H as <- _. right. apply Hopt.
Qed.

Lemma Marks_renderPre render options el :
  (forall n a b, Marks (fun s => s) (render n a b)) ->
  Marks (fun s => s) (renderPre render options el).
Proof.
  intros Hr. unfold renderPre. apply (Marks_wrap join).
  - unfold mapiM. apply Marks_mapiM_from. intros x i _.
    unfold renderPreChild. destruct (isCodeElement x); [|apply Hr].
    unfold renderCodeInPre. apply (Marks_wrap (fun s => s)).
    + apply Marks_mapJoin. intros; apply Hr.
    + intros inner Hinner.
      apply includes_app_r, includes_app_l, includes_trimmed_code, Hinner.
  - intros parts Hparts. includes_part.
Qed.

Lemma Marks_renderChoiceInteraction render options el :
  (forall n a b, Marks (fun s => s) (render n a b)) ->
  Marks (fun s => s) (renderChoiceInteraction render options el).
Proof.
  intros Hr. unfold renderChoiceInteraction. apply (Marks_wrap (fun s => s)).
  - apply Marks_mapJoin. intros choice _. unfold renderChoice.
    apply (Marks_wrap (fun s => s)).
    + apply Marks_mapJoin. intros; apply Hr.
    + intros text Htext. includes_part.
  - intros items Hitems. includes_part.
Qed.

Lemma Marks_renderNodeForScoring options :
  (forall i, includes (blankRenderer options i) blankMarker = true) ->
  forall fuel node inPre preserveWhitespace,
    Marks (fun s => s)
          (renderNodeForScoring fuel node options inPre preserveWhitespace).
Proof.
  intros Hopt. induction fuel as [|fuel IH]; intros node inPre pw.
  - intros st a st' H. discriminate H.
  - destruct node as [t data | q name attrs children].
    + cbn [renderNodeForScoring].
      repeat lazymatch goal with
             | |- Marks _ (if ?c then _ else _) => destruct c
             end; apply Marks_ret.
    + assert (Hch : forall a b,
                 Marks (fun s => s)
                       (mapJoin (fun child =>
                          renderNodeForScoring fuel child options a b)
                          children)).
      { intros a b. apply Marks_mapJoin. intros; apply IH. }
      cbn [renderNodeForScoring].
      repeat lazymatch goal with
             | |- Marks _ (if ?c then _ else _) => destruct c
             end;
        try apply Marks_ret;
        try (apply Marks_blank; exact Hopt);
        try apply Hch;
        try (apply (Marks_wrap (fun s => s)); [apply Hch|];
             intros inner Hinner; unfold wrapTag; includes_part).
      * apply Marks_renderPre. intros; apply IH.
      * apply Marks_renderChoiceInteraction. intros; apply IH.
Qed.

Lemma defaultBlankRenderer_marks options :
  blankRenderer_opt options = None ->
  forall i,
    includes (blankRenderer (resolveScoringOptions options) i) blankMarker
    = true.
Proof.
  intros Hnone i. unfold resolveScoringOptions. cbn [blankRenderer].
  rewrite Hnone. cbn [orElse defaultScoringOptions blankRenderer].
  unfold quoted. rewrite <- !app_assoc.
  apply includes_app_r, includes_app_r. apply (includes_intro []).
Qed.

(** X22.  What the scoring entry point renders,
    [applyResponsesToPromptHtml] recognises: with the default blank
    renderer, or with any blank renderer whose results hold the text
    qti-blank-input, the prompt of every item for which at least one blank
    was rendered holds that text, which is what the first guard of
    [applyResponsesToPromptHtml] looks for. *)
Theorem prompt_with_blanks_holds_the_marker
        (parseXml : jsstring -> Document) (xml : jsstring)
        (options : PartialScoringRenderOptions) (root itemBody : Node) :
  documentElement (parseXml xml) = Some root ->
  (nodeName root =?s lit "parsererror") = false ->
  nth_error (getElementsByLocalName root (lit "qti-item-body")) 0
  = Some itemBody ->
  (blankRenderer_opt options = None
   \/ forall i,
       includes (blankRenderer (resolveScoringOptions options) i)
                (lit "qti-blank-input") = true) ->
  exists parsed st,
    renderQtiItemForScoring parseXml xml options = Ok parsed
    /\ renderNodesForScoring itemBody (childNodes itemBody)
         (resolveScoringOptions options) newBlankCounter
       = Some (promptHtml parsed, st)
    /\ (issued st <> [] ->
        includes (promptHtml parsed) (lit "qti-blank-input") = true).
Proof.
  intros Hroot Hname Hbody Hopt.
  destruct (renderQtiItemForScoring_ok parseXml xml options root itemBody
              Hroot Hname Hbody)
    as (parsed & st & Hok & Hrun & _).
  exists parsed, st. split; [exact Hok|]. split; [exact Hrun|].
  intros Hissued.
  assert (Hmarks : forall i,
             includes (blankRenderer (resolveScoringOptions options) i)
                      blankMarker = true).
  { destruct Hopt as [Hnone | Hall];
      [apply defaultBlankRenderer_marks, Hnone | exact Hall]. }
  unfold renderNodesForScoring in Hrun.
  destruct (Marks_mapJoin _ _
              (fun x _ => Marks_renderNodeForScoring _ Hmarks _ x false false)
              _ _ _ Hrun) as [Hsame | Hin].
  - exfalso. apply Hissued. rewrite Hsame. reflexivity.
  - exact Hin.
Qed.

Lemma prompt_with_blanks_holds_the_marker_witness :
  exists parsed,
    renderQtiItemForScoring
      (fun _ => {| documentElement := Some nestedBlanksItem |})
      [] noScoringOptions = Ok parsed
    /\ includes (promptHtml parsed) (lit "qti-blank-input") = true.
Proof.
  destruct (prompt_with_blanks_holds_the_marker
              (fun _ => {| documentElement := Some nestedBlanksItem |})
              [] noScoringOptions nestedBlanksItem nestedBlanksBody
              eq_refl eq_refl eq_refl (or_introl eq_refl))
    as (parsed & st & Hok & Hrun & Hmark).
  exists parsed. split; [exact Hok|]. apply Hmark.
  vm_compute in Hrun. injection Hrun as _ <-. discriminate.
Defined.

(* ================================================================== *)
(** * The default blank renderer *)
(* ================================================================== *)

Lemma uintDigits_injective d d' : uintDigits d = uintDigits d' -> d = d'.
Proof.
  revert d'. induction d as [|d IH|d IH|d IH|d IH|d IH|d IH|d IH|d IH|d IH|d IH];
    intros [|d'|d'|d'|d'|d'|d'|d'|d'|d'|d'] H; cbn [uintDigits] in H;
    try discriminate H; try reflexivity;
    injection H as H; f_equal; apply IH, H.
Qed.

Lemma uintDigits_are_digits d : Forall (fun c => isDigit c = true) (uintDigits d).
Proof. induction d; cbn [uintDigits]; constructor; try reflexivity; assumption. Qed.

Lemma numberToString_injective i j :
  numberToString i = numberToString j -> i = j.
Proof.
  unfold numberToString. intros H. apply uintDigits_injective in H.
  rewrite <- (DecimalNat.Unsigned.of_to i), <- (DecimalNat.Unsigned.of_to j).
  rewrite H. reflexivity.
Qed.

Lemma app_until_unit (q : N) a b x y :
  ~ In q a -> ~ In q b -> a ++ q :: x = b ++ q :: y -> a = b.
Proof.
  revert b. induction a as [|c a IH]; intros [|d b] Ha Hb H; cbn [app] in H.
  - reflexivity.
  - injection H as -> _. exfalso. apply Hb. left. reflexivity.
  - injection H as -> _. exfalso. apply Ha. left. reflexivity.
  - injection H as -> H. f_equal. apply (IH b); [| |exact H].
    + intros Hin. apply Ha. right. exact Hin.
    + intros Hin. apply Hb. right. exact Hin.
Qed.

Lemma numberToString_no_quote i : ~ In 34%N (numberToString i).
Proof.
  intros H. pose proof (uintDigits_are_digits (Nat.to_uint i)) as F.
  rewrite Forall_forall in F. specialize (F _ H). discriminate F.
Qed.

(** X23.  The default blank renderer tells the blanks apart: it writes
    the index into the data-blank attribute, so two indices with the same
    markup are the same index, and the decimal numeral of an index is
    never empty and holds digits only. *)
Theorem default_blank_markup_is_distinct (i j : nat) :
  (blankRenderer defaultScoringOptions i = blankRenderer defaultScoringOptions j
   -> i = j)
  /\ numberToString i <> []
  /\ Forall (fun c => isDigit c = true) (numberToString i).
Proof.
  split; [|split].
  - cbn [blankRenderer defaultScoringOptions]. intros H.
    apply app_inv_head in H. unfold quoted in H.
    rewrite <- !app_assoc in H. apply app_inv_head in H.
    apply app_inv_head in H. apply app_inv_head in H.
    apply app_inv_head in H. apply app_inv_head in H.
    unfold dq in H. cbn [app] in H.
    apply numberToString_injective.
    apply (app_until_unit 34%N _ _ _ _
             (numberToString_no_quote i) (numberToString_no_quote j) H).
  - unfold numberToString. destruct i; [discriminate|].
    intros H.
    assert (E : Nat.to_uint (S i) = Decimal.Nil).
    { apply uintDigits_injective. exact H. }
    apply (f_equal Nat.of_uint) in E.
    rewrite DecimalNat.Unsigned.of_to in E. discriminate E.
  - apply uintDigits_are_digits.
Qed.

